(** * NeighborSearchRules of mlpack 1.0.8

    A shallow embedding of [nearest_neighbor_rules_impl.hpp]: the base case
    with its one-slot memo, the two [Score] and [Rescore] overloads, the
    five-bound [CalculateBound] and the ranked insertion [InsertNeighbor].

    The class is a template over the sort policy, the metric and the tree
    type; the embedding is parametric in the same three, as type classes.
    The rules object and the tree nodes it mutates are threaded explicitly;
    an access the C++ leaves undefined (a null pointer, an index outside a
    matrix) ends the computation with a [Fault]. *)

From Stdlib Require Import ZArith NArith Lia Bool.
From stdpp Require Import base tactics option numbers list sorting relations.

(** ** Machine integers

    A 64-bit target: [size_t], and Armadillo's [uword] with it, have 64
    bits, an [int] has 32. *)

Definition size_modulus : N := 2 ^ 64.

(** [size_t() - 1]: what [SortDistance] returns for "do not insert". *)
Definition size_max : N := size_modulus - 1.

(** Subtraction of two [size_t], wrapping around. *)
Definition size_sub (a b : N) : N :=
  ((a mod size_modulus + size_modulus) - b mod size_modulus) mod size_modulus.

(** A [size_t] stored into an [int]. *)
Definition to_int (x : N) : Z :=
  let r := (Z.of_N x mod 2 ^ 32)%Z in
  if (r <? 2 ^ 31)%Z then r else (r - 2 ^ 32)%Z.

(** [sizeof(T) * len] with [len] an [int]: the product is taken in [size_t]. *)
Definition byte_count (elt : N) (len : Z) : N :=
  Z.to_N ((Z.of_N elt * len) mod Z.of_N size_modulus).

Definition sizeof_double : N := 8.
Definition sizeof_size_t : N := 8.

(** ** Faults *)

Inductive fault : Type :=
  | NullPointer      (* a null [TreeType*] is dereferenced *)
  | OutOfBounds      (* an index outside a matrix, a vector or a node *)
  | DanglingNode.    (* a node handle that names no node *)

Inductive result (A : Type) : Type :=
  | Ok (a : A)
  | Fault (f : fault).
Arguments Ok {A} a.
Arguments Fault {A} f.

#[global] Instance result_ret : MRet result := λ A a, Ok a.
#[global] Instance result_bind : MBind result :=
  λ A B f m, match m with Ok a => f a | Fault e => Fault e end.

Definition or_fault {A} (e : fault) (o : option A) : result A :=
  match o with Some a => Ok a | None => Fault e end.

(** ** Doubles

    The arithmetic the rules need, kept abstract.  [d_eqb] is [==]; the one
    fact used about it is that [DBL_MAX == DBL_MAX] holds. *)

Class DoubleOps : Type := {
  double : Type;
  DBL_MAX : double;
  d_zero : double;
  d_add : double → double → double;
  d_sub : double → double → double;
  d_twice : double → double;
  d_eqb : double → double → bool;
  d_eqb_DBL_MAX : d_eqb DBL_MAX DBL_MAX = true
}.

(** ** Matrices

    Armadillo matrices are column-major; a matrix is kept as the list of its
    columns, each the storage [colptr] points at. *)

Record Mat (A : Type) : Type := mkMat { n_rows : N; columns : list (list A) }.
Arguments mkMat {A} _ _.
Arguments n_rows {A} _.
Arguments columns {A} _.

Section Matrices.
Context {A : Type}.

Definition n_cols (m : Mat A) : N := N.of_nat (length (columns m)).

(** [m.unsafe_col(c)] and [m.colptr(c)]. *)
Definition unsafe_col (m : Mat A) (c : N) : result (list A) :=
  or_fault OutOfBounds (columns m !! N.to_nat c).

Definition set_col (m : Mat A) (c : N) (col : list A) : Mat A :=
  mkMat (n_rows m) (<[N.to_nat c := col]> (columns m)).

(** [m(row, c)], read. *)
Definition mat_at (m : Mat A) (row c : N) : result A :=
  if (row <? n_rows m)%N then
    col ← unsafe_col m c; or_fault OutOfBounds (col !! N.to_nat row)
  else Fault OutOfBounds.

(** [m(row, c) = v]. *)
Definition mat_store (m : Mat A) (row c : N) (v : A) : result (Mat A) :=
  if (row <? n_rows m)%N then
    col ← unsafe_col m c;
    if (row <? N.of_nat (length col))%N
    then Ok (set_col m c (<[N.to_nat row := v]> col))
    else Fault OutOfBounds
  else Fault OutOfBounds.

(** [memmove(base + dst, base + src, count * sizeof(A))] inside the storage
    of one column.  A move that leaves the column is a fault: in the C++ it
    runs into the next column, or off the matrix. *)
Definition memmove (mem : list A) (dst src count : N) : result (list A) :=
  if ((src + count <=? N.of_nat (length mem))%N
      && (dst + count <=? N.of_nat (length mem))%N)
  then Ok (take (N.to_nat dst) mem
             ++ take (N.to_nat count) (drop (N.to_nat src) mem)
             ++ drop (N.to_nat (dst + count)) mem)
  else Fault OutOfBounds.

(** [memmove(m.colptr(c) + (pos + 1), m.colptr(c) + pos, sizeof(A) * len)]. *)
Definition shift_column (elt : N) (m : Mat A) (c pos : N) (len : Z)
  : result (Mat A) :=
  col ← unsafe_col m c;
  col' ← memmove col (pos + 1) pos (byte_count elt len / elt);
  Ok (set_col m c col').
End Matrices.

(** ** Tree nodes and their statistic *)

Record NeighborSearchStat `{DoubleOps} : Type := mkStat {
  FirstBound : double;
  SecondBound : double;
  Bound : double;
  LastDistanceNode : option nat;   (* [void*]; [None] is [NULL] *)
  LastDistance : double
}.

Arguments mkStat {_}.
Arguments FirstBound {_}.
Arguments SecondBound {_}.
Arguments Bound {_}.
Arguments LastDistanceNode {_}.
Arguments LastDistance {_}.

(** A node as the rules see it.  Nodes live in an arena and are named by
    their index in it; [bound] is the node's bounding volume. *)
Record TreeNode `{DoubleOps} (bound : Type) : Type := mkNode {
  Parent : option nat;             (* [None] is [NULL] *)
  Points : list N;
  Children : list nat;
  FurthestDescendantDistance : double;
  NodeBound : bound;
  Stat : NeighborSearchStat
}.
Arguments mkNode {_ bound}.
Arguments Parent {_ bound}.
Arguments Points {_ bound}.
Arguments Children {_ bound}.
Arguments FurthestDescendantDistance {_ bound}.
Arguments NodeBound {_ bound}.
Arguments Stat {_ bound}.

(** [tree::TreeTraits<TreeType>]. *)
Class TreeTraits : Type := {
  FirstPointIsCentroid : bool;
  HasSelfChildren : bool
}.

(** [MetricType]. *)
Class MetricType `{DoubleOps} (point : Type) : Type := {
  Evaluate : point → point → double
}.

(** [SortPolicy].  Its source is not among the files; the rules use exactly
    these members. *)
Class SortPolicy `{DoubleOps} (point bound : Type) : Type := {
  SortDistance : list double → double → N;
  IsBetter : double → double → bool;
  BestPointToNodeDistance : point → TreeNode bound → double;
  BestNodeToNodeDistance : TreeNode bound → TreeNode bound → double;
  WorstDistance : double;
  BestDistance : double;
  CombineBest : double → double → double;
  CombineWorst : double → double → double
}.

(** ** The rules object *)

Record NeighborSearchRules `{DoubleOps} (point bound : Type) : Type := mkRules {
  referenceSet : list point;
  querySet : list point;
  sameSet : bool;                  (* [&querySet == &referenceSet] *)
  neighbors : Mat N;
  distances : Mat double;
  lastQueryIndex : N;
  lastReferenceIndex : N;
  lastBaseCase : double;
  nodes : list (TreeNode bound);   (* the arena both trees live in *)
  metricCalls : nat                (* ghost: calls of [metric.Evaluate] so far *)
}.
Arguments mkRules {_ point bound}.
Arguments referenceSet {_ point bound}.
Arguments querySet {_ point bound}.
Arguments sameSet {_ point bound}.
Arguments neighbors {_ point bound}.
Arguments distances {_ point bound}.
Arguments lastQueryIndex {_ point bound}.
Arguments lastReferenceIndex {_ point bound}.
Arguments lastBaseCase {_ point bound}.
Arguments nodes {_ point bound}.
Arguments metricCalls {_ point bound}.

Section Rules.
Context `{DO : DoubleOps} {point bound : Type}.
Context `{M : !MetricType point} `{SP : !SortPolicy point bound}.
Context `{TT : TreeTraits}.

Abbreviation Rules := (NeighborSearchRules point bound).
Abbreviation Node := (TreeNode bound).

(** *** Field updates *)

Definition set_matrices (nb : Mat N) (ds : Mat double) (r : Rules) : Rules :=
  mkRules (referenceSet r) (querySet r) (sameSet r) nb ds
          (lastQueryIndex r) (lastReferenceIndex r) (lastBaseCase r)
          (nodes r) (metricCalls r).

Definition set_memo (q rf : N) (d : double) (r : Rules) : Rules :=
  mkRules (referenceSet r) (querySet r) (sameSet r) (neighbors r)
          (distances r) q rf d (nodes r) (metricCalls r).

Definition set_nodes (ns : list Node) (r : Rules) : Rules :=
  mkRules (referenceSet r) (querySet r) (sameSet r) (neighbors r)
          (distances r) (lastQueryIndex r) (lastReferenceIndex r)
          (lastBaseCase r) ns (metricCalls r).

Definition count_metric_call (r : Rules) : Rules :=
  mkRules (referenceSet r) (querySet r) (sameSet r) (neighbors r)
          (distances r) (lastQueryIndex r) (lastReferenceIndex r)
          (lastBaseCase r) (nodes r) (S (metricCalls r)).

Definition set_stat (s : NeighborSearchStat) (n : Node) : Node :=
  mkNode (Parent n) (Points n) (Children n) (FurthestDescendantDistance n)
         (NodeBound n) s.

Definition set_bounds (b1 b2 b : double) (s : NeighborSearchStat)
  : NeighborSearchStat :=
  mkStat b1 b2 b (LastDistanceNode s) (LastDistance s).

Definition set_last_distance (d : double) (s : NeighborSearchStat)
  : NeighborSearchStat :=
  mkStat (FirstBound s) (SecondBound s) (Bound s) (LastDistanceNode s) d.

Definition set_last_node (n : nat) (s : NeighborSearchStat)
  : NeighborSearchStat :=
  mkStat (FirstBound s) (SecondBound s) (Bound s) (Some n) (LastDistance s).

(** [node.Stat()] written through: the arena entry is replaced. *)
Definition update_stat (id : nat) (f : NeighborSearchStat → NeighborSearchStat)
    (r : Rules) : Rules :=
  set_nodes (alter (λ n, set_stat (f (Stat n)) n) id (nodes r)) r.

(** Following a node handle. *)
Definition node (r : Rules) (id : nat) : result Node :=
  or_fault DanglingNode (nodes r !! id).

(** [n.Point(i)]. *)
Definition Point (n : Node) (i : nat) : result N :=
  or_fault OutOfBounds (Points n !! i).

(** *** The constructor

    [lastBaseCase] has no initialiser; [uninit] is whatever it holds. *)
Definition construct (refs qs : list point) (same : bool)
    (nb : Mat N) (ds : Mat double) (arena : list Node) (uninit : double)
  : Rules :=
  mkRules refs qs same nb ds (N.of_nat (length qs)) (N.of_nat (length refs))
          uninit arena 0.

(** *** InsertNeighbor *)

Definition InsertNeighbor (queryIndex pos neighbor : N) (distance : double)
    (r : Rules) : result Rules :=
  let last_row := size_sub (n_rows (distances r)) 1 in
  '(ds, nb) ←
    (if (pos <? last_row)%N then
       let len := to_int (size_sub last_row pos) in
       ds ← shift_column sizeof_double (distances r) queryIndex pos len;
       nb ← shift_column sizeof_size_t (neighbors r) queryIndex pos len;
       Ok (ds, nb)
     else Ok (distances r, neighbors r));
  ds ← mat_store ds pos queryIndex distance;
  nb ← mat_store nb pos queryIndex neighbor;
  Ok (set_matrices nb ds r).

(** *** BaseCase *)

Definition BaseCase (queryIndex referenceIndex : N) (r : Rules)
  : result (Rules * double) :=
  if sameSet r && (queryIndex =? referenceIndex)%N then Ok (r, d_zero)
  else if ((lastQueryIndex r =? queryIndex)%N
           && (lastReferenceIndex r =? referenceIndex)%N)
  then Ok (r, lastBaseCase r)
  else
    qp ← or_fault OutOfBounds (querySet r !! N.to_nat queryIndex);
    rp ← or_fault OutOfBounds (referenceSet r !! N.to_nat referenceIndex);
    let distance := Evaluate qp rp in
    let r := count_metric_call r in
    queryDist ← unsafe_col (distances r) queryIndex;
    let insertPosition := SortDistance queryDist distance in
    r ← (if negb (insertPosition =? size_max)%N
         then InsertNeighbor queryIndex insertPosition referenceIndex
                             distance r
         else Ok r);
    Ok (set_memo queryIndex referenceIndex distance r, distance).

(** The current k-th candidate distance of a query point:
    [distances(distances.n_rows - 1, p)]. *)
Definition kth_distance (r : Rules) (p : N) : result double :=
  mat_at (distances r) (size_sub (n_rows (distances r)) 1) p.

(** *** Score, point to node

    With [FirstPointIsCentroid] and without [HasSelfChildren] the local
    [baseCase] is read before anything is stored in it; [indeterminate]
    is the value it then holds. *)
Definition Score_point (queryIndex : N) (referenceNode : nat)
    (indeterminate : double) (r : Rules) : result (Rules * double) :=
  rn ← node r referenceNode;
  '(r, distance) ←
    (if FirstPointIsCentroid then
       '(r, baseCase) ←
         (if HasSelfChildren then
            p0 ← Point rn 0;
            '(r, baseCase) ←
              match Parent rn with
              | Some par =>
                  pn ← node r par;
                  pp0 ← Point pn 0;
                  if (p0 =? pp0)%N then Ok (r, LastDistance (Stat pn))
                  else BaseCase queryIndex p0 r
              | None => BaseCase queryIndex p0 r
              end;
            Ok (update_stat referenceNode (set_last_distance baseCase) r,
                baseCase)
          else Ok (r, indeterminate));
       Ok (r, CombineBest baseCase (FurthestDescendantDistance rn))
     else
       queryPoint ← or_fault OutOfBounds (querySet r !! N.to_nat queryIndex);
       Ok (r, BestPointToNodeDistance queryPoint rn));
  bestDistance ← kth_distance r queryIndex;
  Ok (r, if IsBetter distance bestDistance then distance else DBL_MAX).

(** *** Rescore, point to node *)

Definition Rescore_point (queryIndex : N) (referenceNode : nat)
    (oldScore : double) (r : Rules) : result double :=
  if d_eqb oldScore DBL_MAX then Ok oldScore
  else
    bestDistance ← kth_distance r queryIndex;
    Ok (if IsBetter oldScore bestDistance then oldScore else DBL_MAX).

(** *** CalculateBound *)

(** The loop over the points held by the node. *)
Fixpoint point_loop (r : Rules) (pts : list N)
    (bestPointDistance worstPointDistance : double)
  : result (double * double) :=
  match pts with
  | [] => Ok (bestPointDistance, worstPointDistance)
  | p :: pts =>
      distance ← kth_distance r p;
      let bestPointDistance :=
        if IsBetter distance bestPointDistance then distance
        else bestPointDistance in
      let worstPointDistance :=
        if IsBetter worstPointDistance distance then distance
        else worstPointDistance in
      point_loop r pts bestPointDistance worstPointDistance
  end.

(** The loop over the children. *)
Fixpoint child_loop (r : Rules) (queryMaxDescendantDistance : double)
    (cs : list nat) (worstChildBound bestAdjustedChildBound : double)
  : result (double * double) :=
  match cs with
  | [] => Ok (worstChildBound, bestAdjustedChildBound)
  | c :: cs =>
      child ← node r c;
      let firstBound := FirstBound (Stat child) in
      let secondBound := SecondBound (Stat child) in
      let childMaxDescendantDistance := FurthestDescendantDistance child in
      let worstChildBound :=
        if IsBetter worstChildBound firstBound then firstBound
        else worstChildBound in
      let adjustedBound :=
        CombineWorst secondBound
          (d_twice (d_sub queryMaxDescendantDistance
                          childMaxDescendantDistance)) in
      let bestAdjustedChildBound :=
        if IsBetter adjustedBound bestAdjustedChildBound then adjustedBound
        else bestAdjustedChildBound in
      child_loop r queryMaxDescendantDistance cs
                 worstChildBound bestAdjustedChildBound
  end.

(** The three values [CalculateBound] stores, before they are stored. *)
Definition bound_values (queryNode : nat) (r : Rules)
  : result (double * double * double) :=
  qn ← node r queryNode;
  '(bestPointDistance, worstPointDistance) ←
    point_loop r (Points qn) WorstDistance BestDistance;
  let queryMaxDescendantDistance := FurthestDescendantDistance qn in
  '(worstChildBound, bestAdjustedChildBound) ←
    child_loop r queryMaxDescendantDistance (Children qn)
               BestDistance WorstDistance;
  let firstBound :=
    if IsBetter worstPointDistance worstChildBound then worstChildBound
    else worstPointDistance in
  let secondBound :=
    CombineWorst bestPointDistance (d_twice queryMaxDescendantDistance) in
  fourthBound ←
    match Parent qn with
    | Some par => pn ← node r par; Ok (FirstBound (Stat pn))
    | None => Ok WorstDistance
    end;
  fifthBound ←
    match Parent qn with
    | Some par => pn ← node r par; Ok (SecondBound (Stat pn))
    | None => Ok WorstDistance
    end;
  let interA :=
    if IsBetter firstBound fourthBound then firstBound else fourthBound in
  let interB :=
    if IsBetter bestAdjustedChildBound secondBound
    then bestAdjustedChildBound else secondBound in
  let interC :=
    if IsBetter interB fifthBound then interB else fifthBound in
  Ok (interA, interC, if IsBetter interA interC then interA else interC).

Definition CalculateBound (queryNode : nat) (r : Rules)
  : result (Rules * double) :=
  '(interA, interC, b) ← bound_values queryNode r;
  Ok (update_stat queryNode (set_bounds interA interC b) r, b).

(** *** Score, node to node *)

(** The search for an already computed base case (taken only when the tree
    has self-children).  [Some b] stands for [alreadyDone] with
    [baseCase = b]. *)
Definition cached_base_case (qn rn : Node) (qp0 rp0 : N) (r : Rules)
  : result (option double) :=
  let lastRef := LastDistanceNode (Stat qn) in
  let lastQuery := LastDistanceNode (Stat rn) in
  (* Does the query node have the base case cached? *)
  c ← match lastRef with
      | Some lr =>
          ln ← node r lr; lp ← Point ln 0;
          Ok (if (rp0 =? lp)%N then Some (LastDistance (Stat qn)) else None)
      | None => Ok None
      end;
  (* Does the reference node have the base case cached? *)
  c ← match lastQuery with
      | Some lq =>
          ln ← node r lq; lp ← Point ln 0;
          Ok (if (qp0 =? lp)%N then Some (LastDistance (Stat rn)) else c)
      | None => Ok c
      end;
  (* Is the query node a self-child? *)
  c ← match Parent qn with
      | Some par =>
          pn ← node r par; pp0 ← Point pn 0;
          if (pp0 =? qp0)%N then
            lastParentRef ← or_fault NullPointer (LastDistanceNode (Stat pn));
            ln ← node r lastParentRef; lp ← Point ln 0;
            Ok (if (lp =? rp0)%N then Some (LastDistance (Stat pn)) else c)
          else Ok c
      | None => Ok c
      end;
  (* Is the reference node a self-child? *)
  match Parent rn with
  | Some par =>
      pn ← node r par; pp0 ← Point pn 0;
      if (pp0 =? rp0)%N then
        lastParentRef ← or_fault NullPointer (LastDistanceNode (Stat pn));
        ln ← node r lastParentRef; lp ← Point ln 0;
        Ok (if (lp =? qp0)%N then Some (LastDistance (Stat pn)) else c)
      else Ok c
  | None => Ok c
  end.

(** The centroid branch: the base case between the two first points, found
    or computed, and the statistics of both nodes updated. *)
Definition centroid_base_case (queryNode referenceNode : nat) (r : Rules)
  : result (Rules * double) :=
  qn ← node r queryNode;
  rn ← node r referenceNode;
  qp0 ← Point qn 0;
  rp0 ← Point rn 0;
  cached ← (if HasSelfChildren then cached_base_case qn rn qp0 rp0 r
            else Ok None);
  '(r, baseCase) ←
    match cached with
    | None => BaseCase qp0 rp0 r
    | Some baseCase => Ok (set_memo qp0 rp0 baseCase r, baseCase)
    end;
  let r := update_stat queryNode (set_last_node referenceNode) r in
  let r := update_stat queryNode (set_last_distance baseCase) r in
  let r := update_stat referenceNode (set_last_node queryNode) r in
  let r := update_stat referenceNode (set_last_distance baseCase) r in
  Ok (r, baseCase).

Definition Score_nodes (queryNode referenceNode : nat) (r : Rules)
  : result (Rules * double) :=
  qn ← node r queryNode;
  rn ← node r referenceNode;
  '(r, distance) ←
    (if FirstPointIsCentroid then
       '(r, baseCase) ← centroid_base_case queryNode referenceNode r;
       Ok (r, CombineBest baseCase
                (d_add (FurthestDescendantDistance qn)
                       (FurthestDescendantDistance rn)))
     else Ok (r, BestNodeToNodeDistance qn rn));
  '(r, bestDistance) ← CalculateBound queryNode r;
  Ok (r, if IsBetter distance bestDistance then distance else DBL_MAX).

(** *** Rescore, node to node *)

Definition Rescore_nodes (queryNode referenceNode : nat) (oldScore : double)
    (r : Rules) : result (Rules * double) :=
  if d_eqb oldScore DBL_MAX then Ok (r, oldScore)
  else
    '(r, bestDistance) ← CalculateBound queryNode r;
    Ok (r, if IsBetter oldScore bestDistance then oldScore else DBL_MAX).

End Rules.

(** ** Specification vocabulary *)

Section Vocabulary.
Context `{DO : DoubleOps} {point bound : Type}.
Context `{M : !MetricType point} `{SP : !SortPolicy point bound}.
Context `{TT : TreeTraits}.

Abbreviation Rules := (NeighborSearchRules point bound).
Abbreviation Node := (TreeNode bound).

(** *** The policy's ordering

    [IsBetter] may or may not hold on equal values; [better_eq a b] reads
    "a is at least as good as b" and [beats a b] "a is strictly better than
    b" under either convention. *)

Definition better_eq (a b : double) : Prop :=
  IsBetter a b = true ∨ IsBetter b a = false.

Definition beats (a b : double) : Prop :=
  IsBetter a b = true ∧ IsBetter b a = false.

(** The better, and the worse, of two values, as the conditional expressions
    of the source select them. *)
Definition best (a b : double) : double := if IsBetter a b then a else b.
Definition worst (a b : double) : double := if IsBetter a b then b else a.

(** *** Well-formed candidate matrices *)

Definition mat_wf {A} (m : Mat A) : Prop :=
  Forall (λ col, N.of_nat (length col) = n_rows m) (columns m).

(** Both matrices are k by n, with k at least 1 and small enough for the
    [int] that [InsertNeighbor] keeps the shift length in. *)
Record rules_wf (r : Rules) : Prop := mk_rules_wf {
  wf_distances : mat_wf (distances r);
  wf_neighbors : mat_wf (neighbors r);
  wf_rows : n_rows (neighbors r) = n_rows (distances r);
  wf_cols : length (columns (neighbors r)) = length (columns (distances r));
  wf_k_pos : (0 < n_rows (distances r))%N;
  wf_k_int : (n_rows (distances r) ≤ 2 ^ 31)%N
}.

(** The candidate list of a query point: its distance and neighbor columns,
    row by row. *)
Definition candidates (r : Rules) (q : N) : option (list (double * N)) :=
  ds ← columns (distances r) !! N.to_nat q;
  ns ← columns (neighbors r) !! N.to_nat q;
  Some (zip ds ns).

(** A column is sorted when every entry is at least as good as the next. *)
Definition sorted_col (col : list double) : Prop := Sorted better_eq col.

Definition all_sorted (r : Rules) : Prop :=
  Forall sorted_col (columns (distances r)).

(** *** Sequences of base cases *)

(** The self-match that [BaseCase] skips. *)
Definition elided (r : Rules) (q rf : N) : Prop := sameSet r = true ∧ q = rf.

Fixpoint BaseCase_calls (calls : list (N * N)) (r : Rules) : result Rules :=
  match calls with
  | [] => Ok r
  | (q, rf) :: calls => '(r, _) ← BaseCase q rf r; BaseCase_calls calls r
  end.

(** No query point is a candidate of itself. *)
Definition no_self (r : Rules) : Prop :=
  ∀ (i : N) (col : list N),
    columns (neighbors r) !! N.to_nat i = Some col → i ∉ col.

(** *** The bound update, as section 4.4 words it

    [child_cached] is the cached value of a child that quantity (1) takes
    the worst of. *)

Fixpoint traverse {A B} (f : A → result B) (l : list A) : result (list B) :=
  match l with
  | [] => Ok []
  | a :: l => b ← f a; bs ← traverse f l; Ok (b :: bs)
  end.

Definition best_of (ds : list double) : double :=
  foldl (λ acc d, best d acc) WorstDistance ds.

Definition worst_of (ds : list double) : double :=
  foldl worst BestDistance ds.

Definition quantity1 (child_cached : NeighborSearchStat → double)
    (owned : list double) (children : list Node) : double :=
  worst (worst_of owned) (worst_of ((λ c, child_cached (Stat c)) <$> children)).

Definition quantity2 (qn : Node) (owned : list double) : double :=
  CombineWorst (best_of owned) (d_twice (FurthestDescendantDistance qn)).

Definition quantity3 (qn : Node) (children : list Node) : double :=
  best_of ((λ c, CombineWorst (SecondBound (Stat c))
                   (d_twice (d_sub (FurthestDescendantDistance qn)
                                   (FurthestDescendantDistance c))))
             <$> children).

Definition quantity4 (parent : option Node) : double :=
  match parent with Some p => FirstBound (Stat p) | None => WorstDistance end.

Definition quantity5 (parent : option Node) : double :=
  match parent with Some p => SecondBound (Stat p) | None => WorstDistance end.

(** The three values to store: first bound, second bound, bound. *)
Definition combine_bounds (child_cached : NeighborSearchStat → double)
    (qn : Node) (owned : list double) (children : list Node)
    (parent : option Node) : double * double * double :=
  let firstBound' :=
    best (quantity1 child_cached owned children) (quantity4 parent) in
  let intermediate := best (quantity3 qn children) (quantity2 qn owned) in
  let secondBound' := best intermediate (quantity5 parent) in
  (firstBound', secondBound', best firstBound' secondBound').

Definition UpdateBound (child_cached : NeighborSearchStat → double)
    (queryNode : nat) (r : Rules) : result (Rules * double) :=
  qn ← node r queryNode;
  owned ← traverse (kth_distance r) (Points qn);
  children ← traverse (node r) (Children qn);
  parent ← match Parent qn with
           | Some par => pn ← node r par; Ok (Some pn)
           | None => Ok None
           end;
  let '(firstBound', secondBound', bound') :=
    combine_bounds child_cached qn owned children parent in
  Ok (update_stat queryNode (set_bounds firstBound' secondBound' bound') r,
      bound').

(** The node is a self-child: it has a parent with the same first point. *)
Definition self_child (r : Rules) (n : Node) : Prop :=
  ∃ par pn p0, Parent n = Some par ∧ nodes r !! par = Some pn
    ∧ Points n !! 0 = Some p0 ∧ Points pn !! 0 = Some p0.

(** The parent of node [id] has cached no last node although [id] shares
    its first point. *)
Definition parent_cache_empty (r : Rules) (id : nat) : Prop :=
  ∃ n par pn,
    nodes r !! id = Some n ∧ self_child r n
    ∧ Parent n = Some par ∧ nodes r !! par = Some pn
    ∧ LastDistanceNode (Stat pn) = None.

(** [in_subtree r id p]: the point [p] is held by node [id] or by one of
    its descendants. *)
Inductive in_subtree (r : Rules) : nat → N → Prop :=
  | in_subtree_point (id : nat) (n : Node) (p : N) :
      nodes r !! id = Some n → p ∈ Points n → in_subtree r id p
  | in_subtree_child (id : nat) (n : Node) (c : nat) (p : N) :
      nodes r !! id = Some n → c ∈ Children n → in_subtree r c p →
      in_subtree r id p.

(** *** Tightening of the search state *)

(** A node is unchanged but for its statistic, whose bounds are at least as
    tight. *)
Definition node_tightens (n n' : Node) : Prop :=
  Parent n' = Parent n ∧ Points n' = Points n ∧ Children n' = Children n
  ∧ FurthestDescendantDistance n' = FurthestDescendantDistance n
  ∧ better_eq (FirstBound (Stat n')) (FirstBound (Stat n))
  ∧ better_eq (SecondBound (Stat n')) (SecondBound (Stat n))
  ∧ better_eq (Bound (Stat n')) (Bound (Stat n)).

(** [tightens r r']: from [r] to [r'] no k-th candidate distance and no
    cached bound got worse. *)
Definition tightens (r r' : Rules) : Prop :=
  (∀ id n', nodes r' !! id = Some n' →
     ∃ n, nodes r !! id = Some n ∧ node_tightens n n')
  ∧ (∀ p d', kth_distance r' p = Ok d' →
       ∃ d, kth_distance r p = Ok d ∧ better_eq d' d).

(** The three cached bounds of a node. *)
Definition cached_bounds (n : Node) : double * double * double :=
  (FirstBound (Stat n), SecondBound (Stat n), Bound (Stat n)).

Definition bounds_better_eq (v v' : double * double * double) : Prop :=
  better_eq v.1.1 v'.1.1 ∧ better_eq v.1.2 v'.1.2 ∧ better_eq v.2 v'.2.

(** One step of a search, as far as the bounds can tell: either the rules
    recompute the bound of some query node, or something else happens that
    leaves every cached bound alone and lets no k-th distance get worse. *)
Inductive search_step : Rules → Rules → Prop :=
  | step_bound (queryNode : nat) (r r' : Rules) (b : double) :
      CalculateBound queryNode r = Ok (r', b) → search_step r r'
  | step_other (r r' : Rules) :
      tightens r r' →
      (∀ id n', nodes r' !! id = Some n' →
         ∃ n, nodes r !! id = Some n ∧ cached_bounds n' = cached_bounds n) →
      search_step r r'.

Definition search_steps : Rules → Rules → Prop := rtc search_step.

(** At the start of a search every cached bound is the worst distance: the
    statistics are reset before each search. *)
Definition fresh_bounds (r : Rules) : Prop :=
  ∀ id n, nodes r !! id = Some n →
    cached_bounds n = (WorstDistance, WorstDistance, WorstDistance).

(** No cached second bound is worse than the worst distance. *)
Definition seconds_bounded (r : Rules) : Prop :=
  ∀ id n, nodes r !! id = Some n →
    better_eq (SecondBound (Stat n)) WorstDistance.

(** Recomputing the bounds of any node now would not loosen them. *)
Definition bounds_recomputable (r : Rules) : Prop :=
  ∀ id n v, nodes r !! id = Some n → bound_values id r = Ok v →
    bounds_better_eq v (cached_bounds n).

(** *** Calls of the rules *)

(** One call of a member that can change the rules object or the trees
    ([Rescore], point to node, changes nothing). *)
Inductive rules_call : Rules → Rules → Prop :=
  | call_BaseCase (q rf : N) (r r' : Rules) (d : double) :
      BaseCase q rf r = Ok (r', d) → rules_call r r'
  | call_Score_point (q : N) (referenceNode : nat) (indeterminate : double)
      (r r' : Rules) (s : double) :
      Score_point q referenceNode indeterminate r = Ok (r', s) →
      rules_call r r'
  | call_Score_nodes (queryNode referenceNode : nat) (r r' : Rules)
      (s : double) :
      Score_nodes queryNode referenceNode r = Ok (r', s) → rules_call r r'
  | call_Rescore_nodes (queryNode referenceNode : nat) (oldScore : double)
      (r r' : Rules) (s : double) :
      Rescore_nodes queryNode referenceNode oldScore r = Ok (r', s) →
      rules_call r r'
  | call_CalculateBound (queryNode : nat) (r r' : Rules) (b : double) :
      CalculateBound queryNode r = Ok (r', b) → rules_call r r'.

Definition rules_calls : Rules → Rules → Prop := rtc rules_call.

(** Two nodes that differ in their statistic at most. *)
Definition same_shape (n n' : Node) : Prop :=
  Parent n' = Parent n ∧ Points n' = Points n ∧ Children n' = Children n
  ∧ FurthestDescendantDistance n' = FurthestDescendantDistance n
  ∧ NodeBound n' = NodeBound n.

(** A node whose statistic was written, but whose cached last node, once
    there, was not taken away. *)
Definition node_kept (n n' : Node) : Prop :=
  same_shape n n'
  ∧ (is_Some (LastDistanceNode (Stat n)) →
     is_Some (LastDistanceNode (Stat n'))).

(** A write to a statistic that does not null the cached last node. *)
Definition keeps_last_node (f : NeighborSearchStat → NeighborSearchStat)
  : Prop :=
  ∀ s, is_Some (LastDistanceNode s) → is_Some (LastDistanceNode (f s)).

(** From [r] to [r'] only statistics of nodes and the memo were written. *)
Definition stats_only (r r' : Rules) : Prop :=
  referenceSet r' = referenceSet r ∧ querySet r' = querySet r
  ∧ sameSet r' = sameSet r
  ∧ neighbors r' = neighbors r ∧ distances r' = distances r
  ∧ metricCalls r' = metricCalls r
  ∧ Forall2 node_kept (nodes r) (nodes r').

(** From [r] to [r'] at most one base case ran, and besides it only
    statistics of nodes and the memo were written. *)
Definition one_base_case (r r' : Rules) : Prop :=
  ∃ r0, (r0 = r ∨ ∃ q rf d, BaseCase q rf r = Ok (r0, d))
        ∧ stats_only r0 r'.

(** The candidate [e] of the query point [q] is what the metric gives for
    the two points it pairs. *)
Definition genuine (r : Rules) (q : N) (e : double * N) : Prop :=
  ∃ qp rp,
    querySet r !! N.to_nat q = Some qp
    ∧ referenceSet r !! N.to_nat e.2 = Some rp
    ∧ e.1 = Evaluate qp rp.

(** The memo is as the constructor left it, or holds what the metric gives
    for the pair it names. *)
Definition memo_exact (r : Rules) : Prop :=
  (lastQueryIndex r = N.of_nat (length (querySet r))
   ∧ lastReferenceIndex r = N.of_nat (length (referenceSet r)))
  ∨ ∃ qp rp,
      querySet r !! N.to_nat (lastQueryIndex r) = Some qp
      ∧ referenceSet r !! N.to_nat (lastReferenceIndex r) = Some rp
      ∧ lastBaseCase r = Evaluate qp rp.

End Vocabulary.

(** The candidate column after a ranked insertion at [pos]: the entries
    before [pos], the new entry, and the entries from [pos] on but for the
    last one. *)
Definition shifted_insert {A} (pos : nat) (x : A) (col : list A) : list A :=
  take pos col ++ x :: take (length col - 1 - pos) (drop pos col).

(** ** Exact arithmetic

    The doubles that are integers, with [DBL_MAX] at its true value
    (2 - 2^-52) * 2^1023. *)

Definition Z_DBL_MAX : Z := 2 ^ 1024 - 2 ^ 971.

Definition Z_double : DoubleOps :=
  {| double := Z;
     DBL_MAX := Z_DBL_MAX;
     d_zero := 0%Z;
     d_add := Z.add;
     d_sub := Z.sub;
     d_twice := λ x, (2 * x)%Z;
     d_eqb := Z.eqb;
     d_eqb_DBL_MAX := Z.eqb_refl Z_DBL_MAX |}.

(** *** Pruning, with exact distances *)

Section ExactVocabulary.
Context {point bound : Type}.
Context (M : @MetricType Z_double point).
Context (SP : @SortPolicy Z_double point bound).
Context (TT : TreeTraits).

Abbreviation Rules := (@NeighborSearchRules Z_double point bound).

(** The metric, as an integer. *)
Definition dist (x y : point) : Z := @Evaluate Z_double point M x y.

(** The furthest descendant distance of node [id] is a radius around its
    first point, in the point set [set] the tree is built over. *)
Definition radius_bound (set : list point) (r : Rules) (id : nat) : Prop :=
  ∀ n, nodes r !! id = Some n →
    ∃ c0 cp,
      Points n !! 0 = Some c0 ∧ set !! N.to_nat c0 = Some cp
      ∧ ∀ p pp, in_subtree r id p → set !! N.to_nat p = Some pp →
          (dist cp pp ≤ FurthestDescendantDistance n)%Z.

(** Every distance between a query point and a reference point is below
    [DBL_MAX]. *)
Definition finite_distances (r : Rules) : Prop :=
  ∀ q p qp rp,
    querySet r !! q = Some qp → referenceSet r !! p = Some rp →
    (dist qp rp < Z_DBL_MAX)%Z.

(** The memo holds no more than the distance of the pair it names. *)
Definition memo_sound (r : Rules) : Prop :=
  ∀ qp rp,
    querySet r !! N.to_nat (lastQueryIndex r) = Some qp →
    referenceSet r !! N.to_nat (lastReferenceIndex r) = Some rp →
    (lastBaseCase r ≤ dist qp rp)%Z.

(** For a self-child, the last distance cached on the parent is no more
    than the distance from the query point to the shared first point. *)
Definition parent_cache_sound (r : Rules) (q : N) (id : nat) : Prop :=
  ∀ n par pn p0 qp cp,
    nodes r !! id = Some n → Parent n = Some par → nodes r !! par = Some pn →
    Points n !! 0 = Some p0 → Points pn !! 0 = Some p0 →
    querySet r !! N.to_nat q = Some qp →
    referenceSet r !! N.to_nat p0 = Some cp →
    (LastDistance (Stat pn) ≤ dist qp cp)%Z.

(** A base case found cached for two nodes is no more than the distance
    between their first points. *)
Definition node_cache_sound (r : Rules) (queryNode referenceNode : nat)
  : Prop :=
  ∀ qn rn qp0 rp0 qp rp (b : Z),
    nodes r !! queryNode = Some qn → nodes r !! referenceNode = Some rn →
    Points qn !! 0 = Some qp0 → Points rn !! 0 = Some rp0 →
    querySet r !! N.to_nat qp0 = Some qp →
    referenceSet r !! N.to_nat rp0 = Some rp →
    @cached_base_case Z_double point bound qn rn qp0 rp0 r = Ok (Some b) →
    (b ≤ dist qp rp)%Z.

(** The bounding volumes are sound: the policy's point-to-node and
    node-to-node distances are no more than the distance to, or between,
    the points of the subtrees. *)
Definition point_bound_sound (r : Rules) (q : N) (id : nat) : Prop :=
  ∀ n p qp rp,
    nodes r !! id = Some n → in_subtree r id p →
    querySet r !! N.to_nat q = Some qp →
    referenceSet r !! N.to_nat p = Some rp →
    (@BestPointToNodeDistance Z_double point bound SP qp n ≤ dist qp rp)%Z.

Definition node_bound_sound (r : Rules) (queryNode referenceNode : nat)
  : Prop :=
  ∀ qn rn q p qp rp,
    nodes r !! queryNode = Some qn → nodes r !! referenceNode = Some rn →
    in_subtree r queryNode q → in_subtree r referenceNode p →
    querySet r !! N.to_nat q = Some qp →
    referenceSet r !! N.to_nat p = Some rp →
    (@BestNodeToNodeDistance Z_double point bound SP qn rn ≤ dist qp rp)%Z.

(** When the point-to-node score is the prune value, no point of the
    reference subtree beats the query point's k-th candidate distance. *)
Definition point_prune_sound (r : Rules) (q : N) (id : nat) (junk : Z)
  : Prop :=
  ∀ (r' : Rules) p qp rp (w : Z),
    @Score_point Z_double point bound M SP TT q id junk r = Ok (r', Z_DBL_MAX) →
    in_subtree r id p →
    querySet r !! N.to_nat q = Some qp →
    referenceSet r !! N.to_nat p = Some rp →
    kth_distance r' q = Ok w →
    (w ≤ dist qp rp)%Z ∧ ¬ @beats Z_double point bound SP (dist qp rp) w.

(** When the node-to-node score is the prune value, no point of the
    reference subtree beats the k-th candidate distance of any point of
    the query subtree. *)
Definition node_prune_sound (r : Rules) (queryNode referenceNode : nat)
  : Prop :=
  ∀ (r' : Rules) q p qp rp (w : Z),
    @Score_nodes Z_double point bound M SP TT queryNode referenceNode r
    = Ok (r', Z_DBL_MAX) →
    in_subtree r queryNode q → in_subtree r referenceNode p →
    querySet r !! N.to_nat q = Some qp →
    referenceSet r !! N.to_nat p = Some rp →
    kth_distance r' q = Ok w →
    ¬ @beats Z_double point bound SP (dist qp rp) w.

(** When the node-to-node score is the prune value, no pair of a point of
    the query subtree and a point of the reference subtree is at a distance
    that beats the bound [CalculateBound] has just stored on the query
    node. *)
Definition node_prune_sound_for_bound (r : Rules)
    (queryNode referenceNode : nat) : Prop :=
  ∀ (r' : Rules) q p qp rp n',
    @Score_nodes Z_double point bound M SP TT queryNode referenceNode r
    = Ok (r', Z_DBL_MAX) →
    in_subtree r queryNode q → in_subtree r referenceNode p →
    querySet r !! N.to_nat q = Some qp →
    referenceSet r !! N.to_nat p = Some rp →
    nodes r' !! queryNode = Some n' →
    (Bound (Stat n') ≤ dist qp rp)%Z
    ∧ ¬ @beats Z_double point bound SP (dist qp rp) (Bound (Stat n')).

End ExactVocabulary.

(** ** Points on a line

    A small world to run the rules in: points are integers, the metric is
    the absolute difference, a node's bounding volume is an interval. *)

Module Line.

Definition interval : Type := Z * Z.

Definition metric : @MetricType Z_double Z :=
  @Build_MetricType Z_double Z (λ x y : Z, Z.abs (x - y)%Z).

(** The first position whose entry the new distance beats. *)
Fixpoint first_beaten (l : list Z) (d : Z) (i : N) : N :=
  match l with
  | [] => size_max
  | x :: l => if (d <? x)%Z then i else first_beaten l d (i + 1)%N
  end.

Definition min_distance_point (x : Z) (b : interval) : Z :=
  Z.max 0 (Z.max (b.1 - x) (x - b.2))%Z.

Definition min_distance_interval (a b : interval) : Z :=
  Z.max 0 (Z.max (a.1 - b.2) (b.1 - a.2))%Z.

(** Modelled from the spec: the nearest-neighbour sort policy, whose source
    is not among the files.  Better is smaller; the worst distance is
    [DBL_MAX] and the best is 0; a candidate is inserted when it beats the
    current worst entry, at the first position whose entry it beats;
    [CombineBest] takes the radius off a distance and [CombineWorst] adds a
    correction to a bound. *)
Definition NearestNeighborSort : @SortPolicy Z_double Z interval :=
  @Build_SortPolicy Z_double Z interval
    (* SortDistance *)
    (λ (l : list Z) (d : Z),
       match last l with
       | Some w => if (d <? w)%Z then first_beaten l d 0 else size_max
       | None => size_max
       end)
    (* IsBetter *)
    (λ a b : Z, (a <? b)%Z)
    (* BestPointToNodeDistance *)
    (λ (x : Z) (n : @TreeNode Z_double interval),
       min_distance_point x (NodeBound n))
    (* BestNodeToNodeDistance *)
    (λ (a b : @TreeNode Z_double interval),
       min_distance_interval (NodeBound a) (NodeBound b))
    (* WorstDistance, BestDistance *)
    Z_DBL_MAX 0%Z
    (* CombineBest *)
    (λ a b : Z, Z.max (a - b) 0)
    (* CombineWorst *)
    (λ a b : Z, if (a =? Z_DBL_MAX)%Z then Z_DBL_MAX else (a + b)%Z).

(** The three kinds of tree the traits distinguish. *)
Definition cover_tree : TreeTraits :=
  {| FirstPointIsCentroid := true; HasSelfChildren := true |}.
Definition centroid_tree : TreeTraits :=
  {| FirstPointIsCentroid := true; HasSelfChildren := false |}.
Definition binary_tree : TreeTraits :=
  {| FirstPointIsCentroid := false; HasSelfChildren := false |}.

(** Modelled from the spec: the statistic of a node at the start of a
    search, its bounds at the worst distance and nothing cached. *)
Definition fresh_stat : @NeighborSearchStat Z_double :=
  @mkStat Z_double Z_DBL_MAX Z_DBL_MAX Z_DBL_MAX None 0%Z.

Definition leaf (parent : option nat) (pts : list N) (fdd : Z) (b : interval)
  : @TreeNode Z_double interval :=
  @mkNode Z_double interval parent pts [] fdd b fresh_stat.

(** k candidate slots for each of n query points, all at the worst distance
    with an invalid neighbor. *)
Definition empty_matrix {A} (k n : nat) (x : A) : Mat A :=
  mkMat (N.of_nat k) (replicate n (replicate k x)).

Definition start (refs qs : list Z) (same : bool) (k : nat)
    (arena : list (@TreeNode Z_double interval))
  : @NeighborSearchRules Z_double Z interval :=
  @construct Z_double Z interval refs qs same
    (empty_matrix k (length qs) size_max)
    (empty_matrix k (length qs) Z_DBL_MAX) arena 0%Z.

(** *** States to run the rules on *)

Abbreviation rules := (@NeighborSearchRules Z_double Z interval).
Abbreviation tree_node := (@TreeNode Z_double interval).

(** One query point with three free candidate slots. *)
Definition three_slots : rules := start [0; 1; 4]%Z [0]%Z false 3 [].

(** One query point at 0 and a reference leaf that holds the point at 1. *)
Definition single_leaf : rules :=
  start [1]%Z [0]%Z false 1 [leaf None [0%N] 0%Z (1, 1)%Z].

(** A query node (0) over one child (1) that holds the query points 0 and
    1, whose only candidates are at distances 7 and 1. *)
Definition two_level : rules :=
  @mkRules Z_double Z interval [0; 9]%Z [0; 2]%Z false
    (mkMat 1 [[0%N]; [1%N]]) (mkMat 1 [[7%Z]; [1%Z]]) 2 2 0%Z
    [ @mkNode Z_double interval None [] [1] 5%Z (0, 2)%Z fresh_stat;
      leaf (Some 0) [0%N; 1%N] 1%Z (0, 2)%Z ]
    0.

(** A query tree whose root (0) has a self-child (1), and a reference
    node (2), before anything was scored. *)
Definition self_child_start : rules :=
  start [3]%Z [0]%Z false 1
    [ @mkNode Z_double interval None [0%N] [1] 0%Z (0, 0)%Z fresh_stat;
      leaf (Some 0) [0%N] 0%Z (0, 0)%Z;
      leaf None [0%N] 0%Z (3, 3)%Z ].

(** [three_slots] after the base case of query point 0 and reference
    point 1, and after the base cases with the reference points 2, 0, 1. *)
Definition after_first : rules :=
  match @BaseCase Z_double Z interval metric NearestNeighborSort 0 1 three_slots
  with Ok (r, _) => r | Fault _ => three_slots end.

Definition after_three : rules :=
  match @BaseCase_calls Z_double Z interval metric NearestNeighborSort
          [(0, 2); (0, 0); (0, 1)]%N three_slots
  with Ok r => r | Fault _ => three_slots end.

(** [two_level] after the bound of the root was computed, and after the
    bound of its child was computed next. *)
Definition root_bounded : rules :=
  match @CalculateBound Z_double Z interval NearestNeighborSort 0 two_level
  with Ok (r, _) => r | Fault _ => two_level end.

Definition child_bounded : rules :=
  match @CalculateBound Z_double Z interval NearestNeighborSort 1 root_bounded
  with Ok (r, _) => r | Fault _ => root_bounded end.

(** Two points that are the query set and the reference set at once. *)
Definition self_search : rules := start [0; 1]%Z [0; 1]%Z true 1 [].

Definition root_rebounded : rules :=
  match @CalculateBound Z_double Z interval NearestNeighborSort 0 child_bounded
  with Ok (r, _) => r | Fault _ => child_bounded end.

(** Query points 0 and 1 in a node (0) of radius 1 around its first point,
    the second held by its child (1); reference points 0 and 4, the second
    held by the reference node (2).  One candidate slot each. *)
Definition prune_start : rules :=
  start [0; 4]%Z [0; 1]%Z false 1
    [ @mkNode Z_double interval None [0%N] [1] 1%Z (0, 1)%Z fresh_stat;
      leaf (Some 0) [1%N] 0%Z (1, 1)%Z;
      leaf None [1%N] 0%Z (4, 4)%Z ].

(** [prune_start] after the base case of query point 0 and reference
    point 0. *)
Definition prune_state : rules :=
  match @BaseCase Z_double Z interval metric NearestNeighborSort 0 0 prune_start
  with Ok (r, _) => r | Fault _ => prune_start end.

(** [prune_state] after the score of the query node 0 against the
    reference node 2. *)
Definition pruned : rules :=
  match @Score_nodes Z_double Z interval metric NearestNeighborSort cover_tree
          0 2 prune_state
  with Ok (r, _) => r | Fault _ => prune_state end.

(** One query point at 0 with two candidate slots, and a reference leaf
    that holds the point at 1. *)
Definition two_slots_leaf : rules :=
  start [1]%Z [0]%Z false 2 [leaf None [0%N] 0%Z (1, 1)%Z].

(** [prune_start] after the score of the query node 0 against the
    reference node 2. *)
Definition scored_start : rules :=
  match @Score_nodes Z_double Z interval metric NearestNeighborSort cover_tree
          0 2 prune_start
  with Ok (r, _) => r | Fault _ => prune_start end.

(** [self_child_start] after the score of the query root 0 against the
    reference node 2. *)
Definition self_child_scored : rules :=
  match @Score_nodes Z_double Z interval metric NearestNeighborSort cover_tree
          0 2 self_child_start
  with Ok (r, _) => r | Fault _ => self_child_start end.

(** One query point with a list of 2^31 + 1 candidate slots, never built:
    only its size matters. *)
Definition long_list : rules :=
  @mkRules Z_double Z interval [1]%Z [0]%Z false
    (mkMat (2 ^ 31 + 1) [replicate (N.to_nat (2 ^ 31 + 1)) size_max])
    (mkMat (2 ^ 31 + 1) [replicate (N.to_nat (2 ^ 31 + 1)) Z_DBL_MAX])
    1 1 0%Z [] 0.

End Line.

(** * Properties *)

(** ** Machine integers *)

Lemma size_sub_small (a b : N) :
  (b ≤ a)%N → (a < size_modulus)%N → size_sub a b = (a - b)%N.
Proof.
  intros Hba Ha. unfold size_sub.
  rewrite (N.mod_small a), (N.mod_small b) by lia.
  replace (a + size_modulus - b)%N with ((a - b) + 1 * size_modulus)%N by lia.
  rewrite N.Div0.mod_add. apply N.mod_small. lia.
Qed.

Lemma size_modulus_eq : size_modulus = 18446744073709551616%N.
Proof. reflexivity. Qed.

Lemma to_int_small (x : N) : (x < 2 ^ 31)%N → to_int x = Z.of_N x.
Proof.
  intros Hx. unfold to_int.
  assert (Hx' : (Z.of_N x < 2 ^ 31)%Z) by lia.
  rewrite Z.mod_small by lia.
  destruct (Z.ltb_spec (Z.of_N x) (2 ^ 31)); [done | lia].
Qed.

Lemma byte_count_small (len : N) :
  (len < 2 ^ 31)%N → (byte_count 8 (Z.of_N len) / 8 = len)%N.
Proof.
  intros Hlen. unfold byte_count. rewrite size_modulus_eq.
  rewrite Z.mod_small by lia.
  replace (Z.to_N (Z.of_N 8 * Z.of_N len)) with (len * 8)%N by lia.
  apply N.div_mul. lia.
Qed.

(** ** Ranked insertion into one column *)

Section Columns.
Context {A : Type}.
Implicit Types (col : list A) (x : A).

Lemma shifted_insert_length pos x col :
  pos < length col → length (shifted_insert pos x col) = length col.
Proof.
  intros Hpos. unfold shifted_insert.
  rewrite length_app, length_take. simpl.
  rewrite length_take, length_drop. lia.
Qed.

Lemma shifted_insert_before pos x col i :
  i < pos → pos < length col → shifted_insert pos x col !! i = col !! i.
Proof.
  intros Hi Hpos. unfold shifted_insert.
  rewrite lookup_app_l by (rewrite length_take; lia).
  by rewrite lookup_take_lt.
Qed.

Lemma shifted_insert_at pos x col :
  pos < length col → shifted_insert pos x col !! pos = Some x.
Proof.
  intros Hpos. unfold shifted_insert.
  rewrite lookup_app_r by (rewrite length_take; lia).
  rewrite length_take. by replace (pos - pos `min` length col) with 0 by lia.
Qed.

Lemma shifted_insert_after pos x col i :
  pos ≤ i → i + 1 < length col →
  shifted_insert pos x col !! (i + 1) = col !! i.
Proof.
  intros Hi Hlen. unfold shifted_insert.
  rewrite lookup_app_r by (rewrite length_take; lia).
  rewrite length_take.
  replace (i + 1 - pos `min` length col) with (S (i - pos)) by lia.
  simpl. rewrite lookup_take_lt by lia. rewrite lookup_drop. f_equal. lia.
Qed.

(** The shift and the store of [InsertNeighbor], on the storage of one
    column of k entries. *)
Lemma memmove_then_store pos col :
  pos + 1 < length col →
  memmove col (N.of_nat pos + 1) (N.of_nat pos)
          (N.of_nat (length col - 1 - pos))
  = Ok (take (pos + 1) col ++ take (length col - 1 - pos) (drop pos col)).
Proof.
  intros Hpos. unfold memmove.
  destruct (N.leb_spec (N.of_nat pos + N.of_nat (length col - 1 - pos))
              (N.of_nat (length col))); [|lia].
  destruct (N.leb_spec (N.of_nat pos + 1 + N.of_nat (length col - 1 - pos))
              (N.of_nat (length col))); [|lia].
  simpl. f_equal.
  replace (N.to_nat (N.of_nat pos + 1)) with (pos + 1) by lia.
  rewrite !Nat2N.id.
  replace (N.to_nat (N.of_nat pos + 1 + N.of_nat (length col - 1 - pos)))
    with (length col) by lia.
  by rewrite drop_all, app_nil_r.
Qed.

Lemma store_after_shift pos x col :
  pos + 1 < length col →
  <[pos := x]> (take (pos + 1) col ++ take (length col - 1 - pos) (drop pos col))
  = shifted_insert pos x col.
Proof.
  intros Hpos. unfold shifted_insert.
  replace (pos + 1) with (S pos) by lia.
  destruct (lookup_lt_is_Some_2 col pos) as [y Hy]; [lia|].
  rewrite (take_S_r _ _ _ Hy), <- app_assoc.
  rewrite insert_app_r_alt by (rewrite length_take; lia).
  rewrite length_take. by replace (pos - pos `min` length col) with 0 by lia.
Qed.

Lemma store_last_row pos x col :
  pos + 1 = length col → <[pos := x]> col = shifted_insert pos x col.
Proof.
  intros Hpos. unfold shifted_insert.
  replace (length col - 1 - pos) with 0 by lia. rewrite take_0.
  rewrite <- (take_drop pos col) at 1.
  rewrite insert_app_r_alt by (rewrite length_take; lia).
  rewrite length_take. replace (pos - pos `min` length col) with 0 by lia.
  f_equal.
  destruct (drop pos col) as [|y [|z l]] eqn:Hd; simpl.
  - apply (f_equal length) in Hd. rewrite length_drop in Hd. simpl in Hd. lia.
  - done.
  - apply (f_equal length) in Hd. rewrite length_drop in Hd. simpl in Hd. lia.
Qed.

End Columns.

(** ** Matrices *)

Section MatrixFacts.
Context {A : Type}.
Implicit Types (m : Mat A) (col : list A).

Lemma unsafe_col_Ok m c col :
  unsafe_col m c = Ok col ↔ columns m !! N.to_nat c = Some col.
Proof.
  unfold unsafe_col. destruct (columns m !! N.to_nat c); simpl; split;
    intros; simplify_eq; done.
Qed.

Lemma set_col_lookup m c col :
  N.to_nat c < length (columns m) →
  columns (set_col m c col) !! N.to_nat c = Some col.
Proof. intros. simpl. by apply list_lookup_insert_eq. Qed.

Lemma set_col_lookup_ne m c (c' : nat) col :
  N.to_nat c ≠ c' → columns (set_col m c col) !! c' = columns m !! c'.
Proof. intros. simpl. by apply list_lookup_insert_ne. Qed.

Lemma set_col_set_col m c col col' :
  set_col (set_col m c col) c col' = set_col m c col'.
Proof. unfold set_col. simpl. by rewrite list_insert_insert_eq. Qed.

Lemma mat_store_set_col m c col pos v :
  (pos < n_rows m)%N → N.to_nat c < length (columns m) →
  N.to_nat pos < length col →
  mat_store (set_col m c col) pos c v
  = Ok (set_col m c (<[N.to_nat pos := v]> col)).
Proof.
  intros Hrow Hc Hpos. unfold mat_store. simpl.
  destruct (N.ltb_spec pos (n_rows m)); [|lia].
  unfold unsafe_col. rewrite set_col_lookup by done. simpl.
  destruct (N.ltb_spec pos (N.of_nat (length col))); [|lia].
  by rewrite set_col_set_col.
Qed.

Lemma mat_store_col m c col pos v :
  (pos < n_rows m)%N → columns m !! N.to_nat c = Some col →
  N.to_nat pos < length col →
  mat_store m pos c v = Ok (set_col m c (<[N.to_nat pos := v]> col)).
Proof.
  intros Hrow Hc Hpos. unfold mat_store.
  destruct (N.ltb_spec pos (n_rows m)); [|lia].
  unfold unsafe_col. rewrite Hc. simpl.
  by destruct (N.ltb_spec pos (N.of_nat (length col))); [|lia].
Qed.

Lemma shift_column_ok m c pos col :
  columns m !! N.to_nat c = Some col →
  N.of_nat (length col) = n_rows m →
  (n_rows m ≤ 2 ^ 31)%N → (pos + 1 < n_rows m)%N →
  shift_column 8 m c pos (to_int (size_sub (size_sub (n_rows m) 1) pos))
  = Ok (set_col m c (take (N.to_nat pos + 1) col
                       ++ take (length col - 1 - N.to_nat pos)
                               (drop (N.to_nat pos) col))).
Proof.
  intros Hc Hlen Hk Hpos. unfold shift_column.
  apply unsafe_col_Ok in Hc. rewrite Hc. simpl.
  rewrite (size_sub_small (n_rows m) 1) by (rewrite ?size_modulus_eq; lia).
  rewrite size_sub_small by (rewrite ?size_modulus_eq; lia).
  rewrite to_int_small by lia.
  rewrite byte_count_small by lia.
  replace (n_rows m - 1 - pos)%N
    with (N.of_nat (length col - 1 - N.to_nat pos)) by lia.
  rewrite <- (N2Nat.id pos) at 1 2.
  rewrite memmove_then_store by lia. done.
Qed.

End MatrixFacts.

(** ** InsertNeighbor *)

Section InsertNeighborFacts.
Context `{DO : DoubleOps} {point bound : Type}.
Context `{M : !MetricType point} `{SP : !SortPolicy point bound}.
Context `{TT : TreeTraits}.
Implicit Types r : NeighborSearchRules point bound.

Lemma wf_column r (q : N) :
  rules_wf r → (q < n_cols (distances r))%N →
  ∃ dcol ncol,
    columns (distances r) !! N.to_nat q = Some dcol
    ∧ columns (neighbors r) !! N.to_nat q = Some ncol
    ∧ N.of_nat (length dcol) = n_rows (distances r)
    ∧ N.of_nat (length ncol) = n_rows (distances r).
Proof.
  intros [Hd Hn Hrows Hcols _ _] Hq. unfold n_cols in Hq.
  destruct (lookup_lt_is_Some_2 (columns (distances r)) (N.to_nat q))
    as [dcol Hdcol]; [lia|].
  destruct (lookup_lt_is_Some_2 (columns (neighbors r)) (N.to_nat q))
    as [ncol Hncol]; [lia|].
  exists dcol, ncol. split_and!; try done.
  - by apply (Forall_lookup_1 _ _ _ _ Hd) in Hdcol.
  - apply (Forall_lookup_1 _ _ _ _ Hn) in Hncol. by rewrite <- Hrows.
Qed.

(** What [InsertNeighbor] computes on well-formed matrices, in closed form. *)
Lemma InsertNeighbor_closed r (q pos nb : N) (d : double) dcol ncol :
  rules_wf r →
  columns (distances r) !! N.to_nat q = Some dcol →
  columns (neighbors r) !! N.to_nat q = Some ncol →
  (pos < n_rows (distances r))%N →
  InsertNeighbor q pos nb d r
  = Ok (set_matrices
          (set_col (neighbors r) q (shifted_insert (N.to_nat pos) nb ncol))
          (set_col (distances r) q (shifted_insert (N.to_nat pos) d dcol)) r).
Proof.
  intros Hwf Hdcol Hncol Hpos.
  pose proof Hwf as [Hd Hn Hrows Hcols Hk1 Hk2].
  pose proof (Forall_lookup_1 _ _ _ _ Hd Hdcol) as Hdlen. simpl in Hdlen.
  pose proof (Forall_lookup_1 _ _ _ _ Hn Hncol) as Hnlen. simpl in Hnlen.
  pose proof (lookup_lt_Some _ _ _ Hdcol) as Hqd.
  pose proof (lookup_lt_Some _ _ _ Hncol) as Hqn.
  unfold InsertNeighbor.
  rewrite (size_sub_small (n_rows (distances r)) 1)
    by (rewrite ?size_modulus_eq; lia).
  destruct (N.ltb_spec pos (n_rows (distances r) - 1)) as [Hlt|Hge].
  - replace (n_rows (distances r) - 1)%N
      with (size_sub (n_rows (distances r)) 1)
      by (apply size_sub_small; rewrite ?size_modulus_eq; lia).
    rewrite (shift_column_ok _ _ _ dcol) by (done || lia).
    rewrite <- Hrows.
    rewrite (shift_column_ok _ _ _ ncol) by (done || lia).
    simpl.
    rewrite mat_store_set_col
      by (try done; try lia; rewrite length_app, !length_take, length_drop; lia).
    rewrite store_after_shift by lia. simpl.
    rewrite mat_store_set_col
      by (try done; try lia; rewrite length_app, !length_take, length_drop; lia).
    by rewrite store_after_shift by lia.
  - simpl.
    rewrite (mat_store_col _ _ dcol) by (done || lia).
    rewrite store_last_row by lia. simpl.
    rewrite (mat_store_col _ _ ncol) by (done || lia).
    by rewrite store_last_row by lia.
Qed.


End InsertNeighborFacts.

(** ** BaseCase *)

Section BaseCaseFacts.
Context `{DO : DoubleOps} {point bound : Type}.
Context `{M : !MetricType point} `{SP : !SortPolicy point bound}.
Context `{TT : TreeTraits}.
Implicit Types r : NeighborSearchRules point bound.

Lemma InsertNeighbor_inv r (q pos nb : N) (d : double) r' :
  rules_wf r → InsertNeighbor q pos nb d r = Ok r' →
  ∃ dcol ncol,
    columns (distances r) !! N.to_nat q = Some dcol
    ∧ columns (neighbors r) !! N.to_nat q = Some ncol
    ∧ (pos < n_rows (distances r))%N
    ∧ r' = set_matrices
             (set_col (neighbors r) q (shifted_insert (N.to_nat pos) nb ncol))
             (set_col (distances r) q (shifted_insert (N.to_nat pos) d dcol)) r.
Proof.
  intros Hwf Hins.
  assert (Hpos : (pos < n_rows (distances r))%N).
  { destruct (N.ltb_spec pos (n_rows (distances r))) as [|Hge]; [done|].
    exfalso. revert Hins. unfold InsertNeighbor.
    destruct Hwf as [_ _ _ _ Hk1 Hk2].
    rewrite (size_sub_small (n_rows (distances r)) 1)
      by (rewrite ?size_modulus_eq; lia).
    destruct (N.ltb_spec pos (n_rows (distances r) - 1)); [lia|]. simpl.
    unfold mat_store.
    by destruct (N.ltb_spec pos (n_rows (distances r))); [lia|]. }
  assert (Hq : (q < n_cols (distances r))%N).
  { unfold n_cols.
    destruct (decide (N.to_nat q < length (columns (distances r)))); [lia|].
    exfalso. revert Hins. unfold InsertNeighbor.
    assert (Hnone : columns (distances r) !! N.to_nat q = None)
      by (apply lookup_ge_None; lia).
    destruct (_ <? _)%N; simpl.
    - unfold shift_column, unsafe_col. by rewrite Hnone.
    - unfold mat_store, unsafe_col. rewrite Hnone.
      destruct (pos <? n_rows (distances r))%N; simpl; done. }
  destruct (wf_column r q Hwf Hq) as (dcol & ncol & Hdcol & Hncol & _).
  exists dcol, ncol. split_and!; try done.
  rewrite (InsertNeighbor_closed r q pos nb d dcol ncol) in Hins by done.
  by simplify_eq.
Qed.

Lemma rules_wf_InsertNeighbor r (q pos nb : N) (d : double) r' :
  rules_wf r → InsertNeighbor q pos nb d r = Ok r' → rules_wf r'.
Proof.
  intros Hwf Hins.
  destruct (InsertNeighbor_inv _ _ _ _ _ _ Hwf Hins)
    as (dcol & ncol & Hdcol & Hncol & Hpos & ->).
  pose proof Hwf as [Hd Hn Hrows Hcols Hk1 Hk2].
  pose proof (Forall_lookup_1 _ _ _ _ Hd Hdcol) as Hdlen. simpl in Hdlen.
  pose proof (Forall_lookup_1 _ _ _ _ Hn Hncol) as Hnlen. simpl in Hnlen.
  constructor; simpl; try done.
  - apply Forall_insert; [done|]. simpl.
    rewrite shifted_insert_length by lia. done.
  - apply Forall_insert; [done|]. simpl.
    rewrite shifted_insert_length by lia. done.
  - by rewrite !length_insert.
Qed.

(** The three ways through [BaseCase]. *)
Lemma BaseCase_inv r (q rf : N) r' (d : double) :
  BaseCase q rf r = Ok (r', d) →
  (elided r q rf ∧ r' = r ∧ d = d_zero)
  ∨ (¬ elided r q rf ∧ lastQueryIndex r = q ∧ lastReferenceIndex r = rf
     ∧ r' = r ∧ d = lastBaseCase r)
  ∨ (¬ elided r q rf
     ∧ ¬ (lastQueryIndex r = q ∧ lastReferenceIndex r = rf)
     ∧ ∃ qp rp col r1,
         querySet r !! N.to_nat q = Some qp
         ∧ referenceSet r !! N.to_nat rf = Some rp
         ∧ d = Evaluate qp rp
         ∧ columns (distances r) !! N.to_nat q = Some col
         ∧ ((SortDistance col d = size_max ∧ r1 = count_metric_call r)
            ∨ (SortDistance col d ≠ size_max
               ∧ InsertNeighbor q (SortDistance col d) rf d
                                (count_metric_call r) = Ok r1))
         ∧ r' = set_memo q rf d r1).
Proof.
  unfold BaseCase, elided. intros H.
  destruct (sameSet r && (q =? rf)%N) eqn:He.
  { left. apply andb_true_iff in He as [Hs Hqr%N.eqb_eq].
    injection H as <- <-. done. }
  assert (Hne : ¬ (sameSet r = true ∧ q = rf)).
  { intros [Hs ->]. by rewrite Hs, N.eqb_refl in He. }
  destruct ((lastQueryIndex r =? q)%N && (lastReferenceIndex r =? rf)%N)
    eqn:Hm.
  { right; left. apply andb_true_iff in Hm as [Hlq%N.eqb_eq Hlr%N.eqb_eq].
    injection H as <- <-. done. }
  assert (Hnm : ¬ (lastQueryIndex r = q ∧ lastReferenceIndex r = rf)).
  { intros [<- <-]. by rewrite !N.eqb_refl in Hm. }
  right; right. split; [done|]. split; [done|].
  destruct (querySet r !! N.to_nat q) as [qp|] eqn:Hqp; simpl in H; [|done].
  destruct (referenceSet r !! N.to_nat rf) as [rp|] eqn:Hrp;
    simpl in H; [|done].
  unfold unsafe_col in H.
  destruct (columns (distances r) !! N.to_nat q) as [col|] eqn:Hcol;
    simpl in H; [|done].
  exists qp, rp, col.
  destruct (N.eqb_spec (SortDistance col (Evaluate qp rp)) size_max)
    as [Hs|Hs]; simpl in H.
  { injection H as <- <-. eexists; split_and!; try done; by left. }
  destruct (InsertNeighbor _ _ _ _ _) as [r1|] eqn:Hins; simpl in H; [|done].
  injection H as <- <-.
  exists r1; split_and!; try done; by right.
Qed.

Lemma rules_wf_BaseCase r (q rf : N) r' (d : double) :
  rules_wf r → BaseCase q rf r = Ok (r', d) → rules_wf r'.
Proof.
  intros Hwf H.
  destruct (BaseCase_inv _ _ _ _ _ H)
    as [(_ & -> & _)|[(_ & _ & _ & -> & _)|
        (_ & _ & qp & rp & col & r1 & _ & _ & _ & _ & Hr1 & ->)]];
    try done.
  assert (rules_wf r1) as [].
  { destruct Hr1 as [[_ ->]|[_ Hins]].
    - by destruct Hwf.
    - eapply rules_wf_InsertNeighbor; [|done]. by destruct Hwf. }
  done.
Qed.

(** [BaseCase] returns whenever its indices are in range and the policy
    answers with a row of the column or with "do not insert". *)
Lemma BaseCase_returns r (q rf : N) :
  rules_wf r →
  (q < n_cols (distances r))%N →
  N.to_nat q < length (querySet r) →
  N.to_nat rf < length (referenceSet r) →
  (∀ col d, SortDistance col d = size_max
            ∨ (SortDistance col d < N.of_nat (length col))%N) →
  ∃ r' d, BaseCase q rf r = Ok (r', d).
Proof.
  intros Hwf Hq Hqs Hrs Hrange. unfold BaseCase.
  destruct (sameSet r && (q =? rf)%N); [by eauto|].
  destruct (_ && _); [by eauto|].
  destruct (lookup_lt_is_Some_2 _ _ Hqs) as [qp ->].
  destruct (lookup_lt_is_Some_2 _ _ Hrs) as [rp ->]. simpl.
  destruct (wf_column r q Hwf Hq) as (dcol & ncol & Hdcol & Hncol & Hdl & Hnl).
  unfold unsafe_col. simpl. rewrite Hdcol. simpl.
  destruct (N.eqb_spec (SortDistance dcol (Evaluate qp rp)) size_max)
    as [Hs|Hs]; simpl; [by eauto|].
  destruct (Hrange dcol (Evaluate qp rp)) as [|Hlt]; [done|].
  rewrite (InsertNeighbor_closed _ _ _ _ _ dcol ncol);
    [simpl; by eauto|by destruct Hwf|done|done|simpl; lia].
Qed.

End BaseCaseFacts.

Section BaseCaseClaims.
Context `{DO : DoubleOps} {point bound : Type}.
Context `{M : !MetricType point} `{SP : !SortPolicy point bound}.
Context `{TT : TreeTraits}.
Implicit Types r : NeighborSearchRules point bound.

Lemma elem_of_shifted_insert {A} (pos : nat) (x y : A) (col : list A) :
  x ∈ shifted_insert pos y col → x = y ∨ x ∈ col.
Proof.
  unfold shifted_insert. rewrite elem_of_app, elem_of_cons.
  intros [Hx|[->|Hx]]; [right|by left|right].
  - by apply (subseteq_take pos col).
  - apply (subseteq_drop pos col).
    by apply (subseteq_take (length col - 1 - pos) (drop pos col)).
Qed.

(** [InsertNeighbor] writes the two matrices and nothing else. *)
Lemma InsertNeighbor_frame r (q pos nb : N) (d : double) r' :
  InsertNeighbor q pos nb d r = Ok r' →
  ∃ nbm dsm, r' = set_matrices nbm dsm r.
Proof.
  unfold InsertNeighbor. intros H.
  destruct (if (pos <? _)%N then _ else _) as [[ds nbm]|]; simpl in H; [|done].
  destruct (mat_store ds _ _ _) as [ds'|]; simpl in H; [|done].
  destruct (mat_store nbm _ _ _) as [nb'|]; simpl in H; [|done].
  injection H as <-. eauto.
Qed.

(** What a base case that is not a skipped self-match leaves behind. *)
Lemma BaseCase_leaves_memo r (q rf : N) r' (d : double) :
  ¬ elided r q rf → BaseCase q rf r = Ok (r', d) →
  lastQueryIndex r' = q ∧ lastReferenceIndex r' = rf ∧ lastBaseCase r' = d
  ∧ sameSet r' = sameSet r ∧ querySet r' = querySet r
  ∧ referenceSet r' = referenceSet r ∧ nodes r' = nodes r.
Proof.
  intros Hne H.
  destruct (BaseCase_inv _ _ _ _ _ H)
    as [(He & _)|[(_ & Hq & Hrf & -> & ->)|
        (_ & _ & qp & rp & col & r1 & _ & _ & _ & _ & Hr1 & ->)]];
    [done|done|].
  destruct Hr1 as [[_ ->]|[_ Hins]]; [done|].
  by destruct (InsertNeighbor_frame _ _ _ _ _ _ Hins) as (? & ? & ->).
Qed.

Lemma BaseCase_sameSet r (q rf : N) r' (d : double) :
  BaseCase q rf r = Ok (r', d) → sameSet r' = sameSet r.
Proof.
  intros H.
  destruct (BaseCase_inv _ _ _ _ _ H)
    as [(_ & -> & _)|[(_ & _ & _ & -> & _)|
        (_ & _ & qp & rp & col & r1 & _ & _ & _ & _ & Hr1 & ->)]];
    [done|done|].
  destruct Hr1 as [[_ ->]|[_ Hins]]; [done|].
  by destruct (InsertNeighbor_frame _ _ _ _ _ _ Hins) as (? & ? & ->).
Qed.

Lemma no_self_BaseCase r (q rf : N) r' (d : double) :
  sameSet r = true → rules_wf r → no_self r →
  BaseCase q rf r = Ok (r', d) → no_self r'.
Proof.
  intros Hsame Hwf Hno H.
  destruct (BaseCase_inv _ _ _ _ _ H)
    as [(_ & -> & _)|[(_ & _ & _ & -> & _)|
        (Hne & _ & qp & rp & col & r1 & _ & _ & _ & _ & Hr1 & ->)]];
    [done|done|].
  destruct Hr1 as [[_ ->]|[_ Hins]]; [done|].
  apply InsertNeighbor_inv in Hins as (dcol & ncol & Hdcol & Hncol & _ & ->);
    [|by destruct Hwf].
  intros i c. simpl.
  destruct (decide (N.to_nat q = N.to_nat i)) as [Heq|Hneq].
  - assert (i = q) as -> by lia.
    rewrite list_lookup_insert_eq by (by eapply lookup_lt_Some).
    intros [= <-] [->|Hin]%elem_of_shifted_insert.
    + apply Hne. by split.
    + by apply (Hno q ncol).
  - rewrite list_lookup_insert_ne by done. apply Hno.
Qed.

(** C4.  When the query set and the reference set are the same matrix,
    [BaseCase(i, i)] returns 0 and leaves the rules object as it was: the
    metric is not called, the candidate matrices and the memo are untouched.
    Hence no sequence of base cases makes a point a candidate of itself. *)
Theorem BaseCase_self_match r (i : N) :
  sameSet r = true →
  BaseCase i i r = Ok (r, d_zero)
  ∧ ∀ calls r', rules_wf r → no_self r →
      BaseCase_calls calls r = Ok r' → no_self r'.
Proof.
  intros Hsame. split.
  { unfold BaseCase. by rewrite Hsame, N.eqb_refl. }
  intros calls. revert r Hsame.
  induction calls as [|[q rf] calls IH]; intros r Hsame r' Hwf Hno Hrun.
  { simpl in Hrun. by injection Hrun as <-. }
  simpl in Hrun.
  destruct (BaseCase q rf r) as [[r1 d]|] eqn:Hbc; simpl in Hrun; [|done].
  apply (IH r1); try done.
  - by rewrite (BaseCase_sameSet _ _ _ _ _ Hbc).
  - by eapply rules_wf_BaseCase.
  - by eapply no_self_BaseCase.
Qed.

(** C5.  After a base case on a pair that is not a skipped self-match, the
    same pair again returns the same distance and changes nothing at all;
    any other such pair calls the metric once on its two points, returns
    that distance and leaves it with the pair in the memo, whether or not
    the distance was inserted; and that call does return when its indices
    are in range. *)
Theorem BaseCase_memo r0 (q0 rf0 : N) r1 (d1 : double) :
  ¬ elided r0 q0 rf0 → BaseCase q0 rf0 r0 = Ok (r1, d1) →
  BaseCase q0 rf0 r1 = Ok (r1, d1)
  ∧ ∀ q rf, (q, rf) ≠ (q0, rf0) → ¬ elided r1 q rf →
      (∀ r2 d2, BaseCase q rf r1 = Ok (r2, d2) →
         ∃ qp rp,
           querySet r1 !! N.to_nat q = Some qp
           ∧ referenceSet r1 !! N.to_nat rf = Some rp
           ∧ d2 = Evaluate qp rp
           ∧ metricCalls r2 = S (metricCalls r1)
           ∧ lastQueryIndex r2 = q ∧ lastReferenceIndex r2 = rf
           ∧ lastBaseCase r2 = d2)
      ∧ (rules_wf r1 → (q < n_cols (distances r1))%N →
         N.to_nat q < length (querySet r1) →
         N.to_nat rf < length (referenceSet r1) →
         (∀ col d, SortDistance col d = size_max
                   ∨ (SortDistance col d < N.of_nat (length col))%N) →
         ∃ r2 d2, BaseCase q rf r1 = Ok (r2, d2)).
Proof.
  intros Hne H.
  destruct (BaseCase_leaves_memo _ _ _ _ _ Hne H)
    as (Hlq & Hlr & Hlb & Hsame & _).
  split.
  { unfold BaseCase. unfold elided in Hne.
    destruct (sameSet r1 && (q0 =? rf0)%N) eqn:He.
    { apply andb_true_iff in He as [Hs Hqr%N.eqb_eq].
      exfalso. apply Hne. by rewrite <- Hsame. }
    by rewrite Hlq, Hlr, !N.eqb_refl, Hlb. }
  intros q rf Hpair Hne1. split; [|by apply BaseCase_returns].
  intros r2 d2 H2.
  destruct (BaseCase_inv _ _ _ _ _ H2)
    as [(He & _)|[(_ & Hq & Hrf & _)|
        (_ & _ & qp & rp & col & r1' & Hqp & Hrp & Hd & _ & Hr1 & ->)]].
  - done.
  - exfalso. apply Hpair. congruence.
  - exists qp, rp. split_and!; try done.
    destruct Hr1 as [[_ ->]|[_ Hins]]; [done|].
    by destruct (InsertNeighbor_frame _ _ _ _ _ _ Hins) as (? & ? & ->).
Qed.

End BaseCaseClaims.

(** ** Rescore *)

Section RescoreFacts.
Context `{DO : DoubleOps} {point bound : Type}.
Context `{M : !MetricType point} `{SP : !SortPolicy point bound}.
Context `{TT : TreeTraits}.
Implicit Types r : NeighborSearchRules point bound.


End RescoreFacts.

(** ** CalculateBound *)

Section CalculateBoundFacts.
Context `{DO : DoubleOps} {point bound : Type}.
Context `{M : !MetricType point} `{SP : !SortPolicy point bound}.
Context `{TT : TreeTraits}.
Implicit Types r : NeighborSearchRules point bound.

Lemma node_Ok r (id : nat) (n : TreeNode bound) :
  node r id = Ok n ↔ nodes r !! id = Some n.
Proof.
  unfold node. destruct (nodes r !! id); simpl; split; intros; by simplify_eq.
Qed.

Lemma point_loop_folds r (pts : list N) (b w : double) :
  point_loop r pts b w
  = ks ← traverse (kth_distance r) pts;
    Ok (foldl (λ acc d, best d acc) b ks, foldl worst w ks).
Proof.
  revert b w. induction pts as [|p pts IH]; intros b w; simpl; [done|].
  destruct (kth_distance r p) as [d|]; simpl; [|done].
  rewrite IH. by destruct (traverse _ pts).
Qed.

Lemma child_loop_folds r (qfdd : double) (cs : list nat) (w b : double) :
  child_loop r qfdd cs w b
  = children ← traverse (node r) cs;
    Ok (foldl worst w ((λ c, FirstBound (Stat c)) <$> children),
        foldl (λ acc d, best d acc) b
          ((λ c, CombineWorst (SecondBound (Stat c))
                   (d_twice (d_sub qfdd (FurthestDescendantDistance c))))
             <$> children)).
Proof.
  revert w b. induction cs as [|c cs IH]; intros w b; simpl; [done|].
  destruct (node r c) as [child|]; simpl; [|done].
  rewrite IH. by destruct (traverse _ cs).
Qed.

Lemma bound_values_combine (queryNode : nat) r :
  bound_values queryNode r
  = qn ← node r queryNode;
    owned ← traverse (kth_distance r) (Points qn);
    children ← traverse (node r) (Children qn);
    parent ← match Parent qn with
             | Some par => pn ← node r par; Ok (Some pn)
             | None => Ok None
             end;
    Ok (combine_bounds FirstBound qn owned children parent).
Proof.
  unfold bound_values.
  destruct (node r queryNode) as [qn|]; simpl; [|done].
  rewrite point_loop_folds.
  destruct (traverse (kth_distance r) (Points qn)) as [ks|]; simpl; [|done].
  rewrite child_loop_folds.
  destruct (traverse (node r) (Children qn)) as [cs|]; simpl; [|done].
  destruct (Parent qn) as [par|]; simpl; [|done].
  by destruct (node r par) as [pn|].
Qed.

(** The amended C3.  [CalculateBound] computes the five quantities of
    section 4.4 with, in quantity (1), the worst of the children's cached
    [firstBound] (not their cached [bound]); it combines them as
    firstBound' = best((1), (4)), intermediate = best((3), (2)),
    secondBound' = best(intermediate, (5)), bound = best(firstBound',
    secondBound'), stores the three on the node and returns the last. *)
Theorem CalculateBound_five_bounds (queryNode : nat) r :
  CalculateBound queryNode r = UpdateBound FirstBound queryNode r.
Proof.
  unfold CalculateBound, UpdateBound. rewrite bound_values_combine.
  destruct (node r queryNode) as [qn|]; simpl; [|done].
  destruct (traverse (kth_distance r) (Points qn)) as [ks|]; simpl; [|done].
  destruct (traverse (node r) (Children qn)) as [cs|]; simpl; [|done].
  destruct (Parent qn) as [par|]; simpl; [|done].
  by destruct (node r par) as [pn|].
Qed.

End CalculateBoundFacts.

(** C3 as stated fails: with the children's cached [bound] in quantity (1)
    the update of section 4.4 stores and returns other values than
    [CalculateBound].  The child's bounds are first computed by
    [CalculateBound] itself (7, 3 and 3); for the parent the source then
    returns 7, the worded update 3. *)
Lemma CalculateBound_not_cached_bound :
  ∃ r1 b,
    @CalculateBound Z_double Z Line.interval Line.NearestNeighborSort
      1 Line.two_level = Ok (r1, b)
    ∧ (@CalculateBound Z_double Z Line.interval Line.NearestNeighborSort 0 r1
       ≠ @UpdateBound Z_double Z Line.interval Line.NearestNeighborSort
           (@Bound Z_double) 0 r1).
Proof.
  eexists _, _. split; [vm_compute; reflexivity|].
  vm_compute. discriminate.
Qed.

(** ** Score, point to node *)

Section ScorePointFacts.
Context `{DO : DoubleOps} {point bound : Type}.
Context `{M : !MetricType point} `{SP : !SortPolicy point bound}.
Context `{TT : TreeTraits}.
Implicit Types r : NeighborSearchRules point bound.

(** On a tree with self-children whose first point is the centroid, the
    score is [CombineBest] of a base case and the node's furthest
    descendant distance, compared with the k-th candidate distance; the
    base case is the parent's cached last distance for a self-child and
    the result of [BaseCase] on the node's first point otherwise, and it
    is cached on the node. *)
Lemma Score_point_self_children (q : N) (n : nat) (junk : double) r r' v :
  FirstPointIsCentroid = true → HasSelfChildren = true →
  Score_point q n junk r = Ok (r', v) →
  ∃ rn p0 r1 base threshold,
    nodes r !! n = Some rn ∧ Points rn !! 0 = Some p0
    ∧ ((self_child r rn ∧ r1 = r
        ∧ ∃ par pn, Parent rn = Some par ∧ nodes r !! par = Some pn
                    ∧ base = LastDistance (Stat pn))
       ∨ (¬ self_child r rn ∧ BaseCase q p0 r = Ok (r1, base)))
    ∧ r' = update_stat n (set_last_distance base) r1
    ∧ kth_distance r' q = Ok threshold
    ∧ v = if IsBetter (CombineBest base (FurthestDescendantDistance rn))
                      threshold
          then CombineBest base (FurthestDescendantDistance rn)
          else DBL_MAX.
Proof.
  intros Hc Hs. unfold Score_point. rewrite Hc, Hs. unfold node, Point.
  destruct (nodes r !! n) as [rn|] eqn:Hrn; simpl; [|done].
  destruct (Points rn !! 0) as [p0|] eqn:Hp0; simpl; [|done].
  intros H.
  assert (∃ r1 base,
    ((self_child r rn ∧ r1 = r
        ∧ ∃ par pn, Parent rn = Some par ∧ nodes r !! par = Some pn
                    ∧ base = LastDistance (Stat pn))
       ∨ (¬ self_child r rn ∧ BaseCase q p0 r = Ok (r1, base)))
    ∧ (kth_distance (update_stat n (set_last_distance base) r1) q
       ≫= λ bestDistance,
            Ok (update_stat n (set_last_distance base) r1,
                if IsBetter (CombineBest base (FurthestDescendantDistance rn))
                            bestDistance
                then CombineBest base (FurthestDescendantDistance rn)
                else DBL_MAX)) = Ok (r', v)) as (r1 & base & Hbase & H').
  { destruct (Parent rn) as [par|] eqn:Hpar.
    - destruct (nodes r !! par) as [pn|] eqn:Hpn; simpl in H; [|done].
      destruct (Points pn !! 0) as [pp0|] eqn:Hpp0; simpl in H; [|done].
      destruct (N.eqb_spec p0 pp0) as [<-|Hneq]; simpl in H.
      + exists r, (LastDistance (Stat pn)). split; [|done].
        left. split_and!; [|done|by eauto].
        by exists par, pn, p0.
      + destruct (BaseCase q p0 r) as [[r1 base]|] eqn:Hbc; simpl in H; [|done].
        exists r1, base. split; [|done]. right. split; [|done].
        intros (par' & pn' & p0' & ? & ? & ? & ?). congruence.
    - destruct (BaseCase q p0 r) as [[r1 base]|] eqn:Hbc; simpl in H; [|done].
      exists r1, base. split; [|done]. right. split; [|done].
      intros (par' & pn' & p0' & ? & ? & ? & ?). congruence. }
  destruct (kth_distance _ q) as [t|] eqn:Ht; simpl in H'; [|done].
  injection H' as <- <-.
  exists rn, p0, r1, base, t. done.
Qed.

(** On a tree whose first point is the centroid and that has no
    self-children, no base case is computed: the score is built from the
    value the uninitialised local happens to hold. *)
Lemma Score_point_no_self_children (q : N) (n : nat) (junk : double) r :
  FirstPointIsCentroid = true → HasSelfChildren = false →
  Score_point q n junk r
  = rn ← node r n;
    threshold ← kth_distance r q;
    Ok (r, if IsBetter (CombineBest junk (FurthestDescendantDistance rn))
                       threshold
           then CombineBest junk (FurthestDescendantDistance rn)
           else DBL_MAX).
Proof.
  intros Hc Hs. unfold Score_point. rewrite Hc, Hs.
  by destruct (node r n).
Qed.

End ScorePointFacts.

(** C2 at a centroid tree without self-children: the query point 0 is at
    distance 1 of the leaf's first point and the leaf has radius 0, so the
    bound of the claim is [CombineBest 1 0 = 1]; the source returns
    whatever the uninitialised [baseCase] yields (here 100 and 5), does not
    call the metric and caches nothing. *)
Theorem Score_point_uninitialised_base_case :
  @Score_point Z_double Z Line.interval Line.metric Line.NearestNeighborSort
    Line.centroid_tree 0 0 100%Z Line.single_leaf
  = Ok (Line.single_leaf, 100%Z)
  ∧ @Score_point Z_double Z Line.interval Line.metric Line.NearestNeighborSort
      Line.centroid_tree 0 0 5%Z Line.single_leaf
    = Ok (Line.single_leaf, 5%Z)
  ∧ @CombineBest Z_double Z Line.interval Line.NearestNeighborSort
      (@Evaluate Z_double Z Line.metric 0%Z 1%Z) 0%Z = 1%Z.
Proof. by vm_compute. Qed.

(** ** Score, node to node *)

Section ScoreNodesFacts.
Context `{DO : DoubleOps} {point bound : Type}.
Context `{M : !MetricType point} `{SP : !SortPolicy point bound}.
Context `{TT : TreeTraits}.
Implicit Types r : NeighborSearchRules point bound.

(** When the query node is a self-child of a parent that has no last
    compared node yet, and neither node has one, the score dereferences a
    null pointer. *)
Lemma Score_nodes_null_parent_cache (queryNode referenceNode par : nat)
    (qn rn pn : TreeNode bound) (p0 rp0 : N) r :
  FirstPointIsCentroid = true → HasSelfChildren = true →
  nodes r !! queryNode = Some qn → nodes r !! referenceNode = Some rn →
  Points qn !! 0 = Some p0 → Points rn !! 0 = Some rp0 →
  LastDistanceNode (Stat qn) = None → LastDistanceNode (Stat rn) = None →
  Parent qn = Some par → nodes r !! par = Some pn →
  Points pn !! 0 = Some p0 → LastDistanceNode (Stat pn) = None →
  Score_nodes queryNode referenceNode r = Fault NullPointer.
Proof.
  intros Hc Hs Hqn Hrn Hp0 Hrp0 Hlq Hlr Hpar Hpn Hpp0 Hlp.
  unfold Score_nodes, centroid_base_case, cached_base_case, node, Point.
  rewrite Hc, Hs, Hqn, Hrn. simpl. rewrite Hp0, Hrp0. simpl.
  rewrite Hlq, Hlr, Hpar. simpl. rewrite Hpn. simpl. rewrite Hpp0. simpl.
  by rewrite N.eqb_refl, Hlp.
Qed.

(** *** Where a null pointer can be dereferenced *)

Lemma or_fault_not_null {A} (e : fault) (o : option A) :
  e ≠ NullPointer → or_fault e o ≠ Fault NullPointer.
Proof. intros He. destruct o; simpl; congruence. Qed.

Lemma bind_not_null {A B} (m : result A) (f : A → result B) :
  m ≠ Fault NullPointer → (∀ a, m = Ok a → f a ≠ Fault NullPointer) →
  m ≫= f ≠ Fault NullPointer.
Proof.
  destruct m as [a|e]; simpl; intros Hm Hf; [by apply Hf|].
  intros [= ->]. by apply Hm.
Qed.

Lemma unsafe_col_not_null {A} (m : Mat A) (c : N) :
  unsafe_col m c ≠ Fault NullPointer.
Proof. by apply or_fault_not_null. Qed.

Lemma mat_at_not_null {A} (m : Mat A) (row c : N) :
  mat_at m row c ≠ Fault NullPointer.
Proof.
  unfold mat_at. case_match; [|done].
  apply bind_not_null; [apply unsafe_col_not_null|].
  intros col _. by apply or_fault_not_null.
Qed.

Lemma mat_store_not_null {A} (m : Mat A) (row c : N) (v : A) :
  mat_store m row c v ≠ Fault NullPointer.
Proof.
  unfold mat_store. case_match; [|done].
  apply bind_not_null; [apply unsafe_col_not_null|].
  intros col _. by case_match.
Qed.

Lemma shift_column_not_null {A} (elt : N) (m : Mat A) (c pos : N) (len : Z) :
  shift_column elt m c pos len ≠ Fault NullPointer.
Proof.
  unfold shift_column.
  apply bind_not_null; [apply unsafe_col_not_null|]. intros col _.
  apply bind_not_null; [unfold memmove; by case_match|done].
Qed.

Lemma InsertNeighbor_not_null r (q pos nb : N) (d : double) :
  InsertNeighbor q pos nb d r ≠ Fault NullPointer.
Proof.
  unfold InsertNeighbor.
  apply bind_not_null.
  - case_match; [|done].
    apply bind_not_null; [apply shift_column_not_null|]. intros ds _.
    apply bind_not_null; [apply shift_column_not_null|done].
  - intros [ds nbm] _.
    apply bind_not_null; [apply mat_store_not_null|]. intros ds' _.
    apply bind_not_null; [apply mat_store_not_null|done].
Qed.

Lemma BaseCase_not_null r (q rf : N) : BaseCase q rf r ≠ Fault NullPointer.
Proof.
  unfold BaseCase. case_match; [done|]. case_match; [done|].
  apply bind_not_null; [by apply or_fault_not_null|]. intros qp _.
  apply bind_not_null; [by apply or_fault_not_null|]. intros rp _.
  apply bind_not_null; [apply unsafe_col_not_null|]. intros col _.
  apply bind_not_null; [|done].
  case_match; [apply InsertNeighbor_not_null|done].
Qed.

Lemma node_not_null r (id : nat) : node r id ≠ Fault NullPointer.
Proof. by apply or_fault_not_null. Qed.

Lemma Point_not_null (n : TreeNode bound) (i : nat) :
  Point n i ≠ Fault NullPointer.
Proof. by apply or_fault_not_null. Qed.

Lemma point_loop_not_null r (pts : list N) (b w : double) :
  point_loop r pts b w ≠ Fault NullPointer.
Proof.
  revert b w. induction pts as [|p pts IH]; intros b w; simpl; [done|].
  apply bind_not_null; [apply mat_at_not_null|]. intros d _. apply IH.
Qed.

Lemma child_loop_not_null r (qfdd : double) (cs : list nat) (w b : double) :
  child_loop r qfdd cs w b ≠ Fault NullPointer.
Proof.
  revert w b. induction cs as [|c cs IH]; intros w b; simpl; [done|].
  apply bind_not_null; [apply node_not_null|]. intros n _. apply IH.
Qed.

Lemma CalculateBound_not_null (queryNode : nat) r :
  CalculateBound queryNode r ≠ Fault NullPointer.
Proof.
  unfold CalculateBound, bound_values.
  apply bind_not_null; [|by intros [[? ?] ?] _].
  apply bind_not_null; [apply node_not_null|]. intros qn _.
  apply bind_not_null; [apply point_loop_not_null|]. intros [? ?] _.
  apply bind_not_null; [apply child_loop_not_null|]. intros [? ?] _.
  apply bind_not_null.
  { case_match; [|done]. apply bind_not_null; [apply node_not_null|done]. }
  intros ? _. apply bind_not_null; [|done].
  case_match; [|done]. apply bind_not_null; [apply node_not_null|done].
Qed.

(** X17.  The one way for the node-to-node score to dereference a null
    pointer: on a tree with self-children whose first point is the
    centroid, the query node or the reference node is a self-child of a
    parent that has no last compared node. *)
Theorem Score_nodes_null_pointer (queryNode referenceNode : nat) r :
  Score_nodes queryNode referenceNode r = Fault NullPointer →
  FirstPointIsCentroid = true ∧ HasSelfChildren = true
  ∧ (parent_cache_empty r queryNode ∨ parent_cache_empty r referenceNode).
Proof.
  unfold Score_nodes. intros H.
  destruct (node r queryNode) as [qn|e] eqn:Hqn; simpl in H;
    [|injection H as ->; by destruct (node_not_null r queryNode)].
  destruct (node r referenceNode) as [rn|e] eqn:Hrn; simpl in H;
    [|injection H as ->; by destruct (node_not_null r referenceNode)].
  destruct FirstPointIsCentroid; simpl in H.
  2:{ destruct (CalculateBound queryNode r) as [[??]|e] eqn:Hc; simpl in H;
        [done|]. injection H as ->.
      by destruct (CalculateBound_not_null queryNode r). }
  destruct (centroid_base_case queryNode referenceNode r)
    as [[r1 base]|e] eqn:Hbase; simpl in H.
  { destruct (CalculateBound queryNode r1) as [[??]|e] eqn:Hc; simpl in H;
      [done|]. injection H as ->.
    by destruct (CalculateBound_not_null queryNode r1). }
  injection H as ->. split; [done|]. revert Hbase. unfold centroid_base_case.
  rewrite Hqn, Hrn. simpl.
  destruct (Point qn 0) as [qp0|e] eqn:Hqp0; simpl;
    [|intros [= ->]; by destruct (Point_not_null qn 0)].
  destruct (Point rn 0) as [rp0|e] eqn:Hrp0; simpl;
    [|intros [= ->]; by destruct (Point_not_null rn 0)].
  apply node_Ok in Hqn, Hrn. unfold Point in Hqp0, Hrp0.
  destruct (Points qn !! 0) as [qp0'|] eqn:Hq0; simpl in Hqp0; [|done].
  destruct (Points rn !! 0) as [rp0'|] eqn:Hr0; simpl in Hrp0; [|done].
  injection Hqp0 as ->. injection Hrp0 as ->.
  assert (Hbc : ∀ r', (BaseCase qp0 rp0 r' ≫= λ '(r2, baseCase),
      Ok (update_stat referenceNode (set_last_distance baseCase)
           (update_stat referenceNode (set_last_node queryNode)
             (update_stat queryNode (set_last_distance baseCase)
               (update_stat queryNode (set_last_node referenceNode) r2))),
          baseCase)) ≠ Fault NullPointer).
  { intros r'. apply bind_not_null; [apply BaseCase_not_null|].
    by intros [??] _. }
  destruct HasSelfChildren; simpl; [|intros Hf; by destruct (Hbc r)].
  destruct (cached_base_case qn rn qp0 rp0 r) as [cached|e] eqn:Hcache;
    simpl.
  { destruct cached; simpl; [done|]. intros Hf. by destruct (Hbc r). }
  intros [= ->]. split; [done|]. revert Hcache. unfold cached_base_case.
  destruct (match LastDistanceNode (Stat qn) with Some _ => _ | None => _ end)
    as [c1|e] eqn:H1; simpl.
  2:{ intros [= ->]. exfalso. destruct (LastDistanceNode (Stat qn)); [|done].
      revert H1. apply bind_not_null; [apply node_not_null|]. intros ? _.
      apply bind_not_null; [apply Point_not_null|done]. }
  destruct (match LastDistanceNode (Stat rn) with Some _ => _ | None => _ end)
    as [c2|e] eqn:H2; simpl.
  2:{ intros [= ->]. exfalso. destruct (LastDistanceNode (Stat rn)); [|done].
      revert H2. apply bind_not_null; [apply node_not_null|]. intros ? _.
      apply bind_not_null; [apply Point_not_null|done]. }
  assert (Hside : ∀ (id : nat) (n : TreeNode bound) (p0 other : N)
                    (c : option double),
            nodes r !! id = Some n → Points n !! 0 = Some p0 →
            match Parent n with
            | Some par =>
                pn ← node r par; pp0 ← Point pn 0;
                if (pp0 =? p0)%N then
                  lastParentRef ← or_fault NullPointer
                                     (LastDistanceNode (Stat pn));
                  ln ← node r lastParentRef; lp ← Point ln 0;
                  Ok (if (lp =? other)%N then Some (LastDistance (Stat pn))
                      else c)
                else Ok c
            | None => Ok c
            end = Fault NullPointer →
            parent_cache_empty r id).
  { intros id n p0 other c Hn Hp0 Hf.
    destruct (Parent n) as [par|] eqn:Hpar; [|done].
    destruct (node r par) as [pn|e] eqn:Hpn; simpl in Hf;
      [|injection Hf as ->; by destruct (node_not_null r par)].
    apply node_Ok in Hpn.
    destruct (Point pn 0) as [pp0|e] eqn:Hpp0; simpl in Hf;
      [|injection Hf as ->; by destruct (Point_not_null pn 0)].
    unfold Point in Hpp0.
    destruct (Points pn !! 0) as [pp0'|] eqn:Hpp; simpl in Hpp0; [|done].
    injection Hpp0 as ->.
    destruct (N.eqb_spec pp0 p0) as [->|Hne]; [|done].
    destruct (LastDistanceNode (Stat pn)) as [lp|] eqn:Hl; simpl in Hf.
    - exfalso. revert Hf.
      apply bind_not_null; [apply node_not_null|]. intros ? _.
      apply bind_not_null; [apply Point_not_null|done].
    - exists n, par, pn. split_and!; try done. by exists par, pn, p0. }
  destruct (match Parent qn with Some _ => _ | None => _ end)
    as [c3|e] eqn:H3; simpl.
  2:{ intros [= ->]. left. by eapply (Hside queryNode qn qp0 rp0 c2). }
  intros H4. right. by eapply (Hside referenceNode rn rp0 qp0 c3).
Qed.

End ScoreNodesFacts.

(** C10 at the start of a search: the first score of a self-child query node
    finds its parent's last compared node null and dereferences it. *)
Theorem Score_nodes_null_dereference :
  @Score_nodes Z_double Z Line.interval Line.metric Line.NearestNeighborSort
    Line.cover_tree 1 2 Line.self_child_start
  = Fault NullPointer.
Proof. by vm_compute. Qed.

(** ** The policy's ordering *)

Section Ordering.
Context `{DO : DoubleOps} {point bound : Type}.
Context `{SP : !SortPolicy point bound}.

Lemma better_eq_refl (a : double) : better_eq a a.
Proof. unfold better_eq. destruct (IsBetter a a); by eauto. Qed.

Lemma better_eq_total (a b : double) : better_eq a b ∨ better_eq b a.
Proof. unfold better_eq. destruct (IsBetter a b); by eauto. Qed.

Lemma beats_not_better_eq (a b : double) : beats a b → ¬ better_eq b a.
Proof. unfold beats, better_eq. intros [H1 H2] [H|H]; congruence. Qed.

Lemma best_cases (a b : double) : best a b = a ∨ best a b = b.
Proof. unfold best. destruct (IsBetter a b); by eauto. Qed.

Lemma worst_cases (a b : double) : worst a b = a ∨ worst a b = b.
Proof. unfold worst. destruct (IsBetter a b); by eauto. Qed.

Lemma best_l (a b : double) : better_eq (best a b) a.
Proof.
  unfold best. destruct (IsBetter a b) eqn:H; [apply better_eq_refl|].
  by right.
Qed.

Lemma best_r (a b : double) : better_eq (best a b) b.
Proof.
  unfold best. destruct (IsBetter a b) eqn:H; [by left|apply better_eq_refl].
Qed.

Lemma worst_l (a b : double) : better_eq a (worst a b).
Proof.
  unfold worst. destruct (IsBetter a b) eqn:H; [by left|apply better_eq_refl].
Qed.

Lemma worst_r (a b : double) : better_eq b (worst a b).
Proof.
  unfold worst. destruct (IsBetter a b) eqn:H; [apply better_eq_refl|].
  by right.
Qed.

Hypothesis better_eq_trans :
  ∀ a b c : double, better_eq a b → better_eq b c → better_eq a c.

Lemma best_mono (a a' b b' : double) :
  better_eq a' a → better_eq b' b → better_eq (best a' b') (best a b).
Proof.
  intros Ha Hb. destruct (best_cases a b) as [->| ->].
  - eapply better_eq_trans; [apply best_l|done].
  - eapply better_eq_trans; [apply best_r|done].
Qed.

Lemma worst_mono (a a' b b' : double) :
  better_eq a' a → better_eq b' b → better_eq (worst a' b') (worst a b).
Proof.
  intros Ha Hb. destruct (worst_cases a' b') as [->| ->].
  - eapply better_eq_trans; [done|apply worst_l].
  - eapply better_eq_trans; [done|apply worst_r].
Qed.

Lemma foldl_best_mono (ks ks' : list double) (b b' : double) :
  better_eq b' b → Forall2 better_eq ks' ks →
  better_eq (foldl (λ acc d, best d acc) b' ks')
            (foldl (λ acc d, best d acc) b ks).
Proof.
  intros Hb Hks. revert b b' Hb.
  induction Hks as [|k' k ks' ks Hk _ IH]; intros b b' Hb; simpl; [done|].
  apply IH. by apply best_mono.
Qed.

Lemma foldl_worst_mono (ks ks' : list double) (w w' : double) :
  better_eq w' w → Forall2 better_eq ks' ks →
  better_eq (foldl worst w' ks') (foldl worst w ks).
Proof.
  intros Hw Hks. revert w w' Hw.
  induction Hks as [|k' k ks' ks Hk _ IH]; intros w w' Hw; simpl; [done|].
  apply IH. by apply worst_mono.
Qed.

Lemma bounds_better_eq_refl (v : double * double * double) :
  bounds_better_eq v v.
Proof. repeat split; apply better_eq_refl. Qed.

Lemma bounds_better_eq_trans (u v w : double * double * double) :
  bounds_better_eq u v → bounds_better_eq v w → bounds_better_eq u w.
Proof.
  intros (? & ? & ?) (? & ? & ?).
  repeat split; by eapply better_eq_trans.
Qed.

End Ordering.

(** ** Bounds only tighten *)

Section BoundMonotonicity.
Context `{DO : DoubleOps} {point bound : Type}.
Context `{M : !MetricType point} `{SP : !SortPolicy point bound}.
Context `{TT : TreeTraits}.
Implicit Types r : NeighborSearchRules point bound.
Implicit Types n : TreeNode bound.

(** What is asked of the policy: its ordering is transitive, and
    [CombineWorst] preserves it in the bound it corrects, as far as bounds
    no worse than the worst distance can tell (a sum may overflow past
    [DBL_MAX], which no stored bound ever does). *)
Hypothesis better_eq_trans :
  ∀ a b c : double, better_eq a b → better_eq b c → better_eq a c.
Hypothesis CombineWorst_mono :
  ∀ a b c : double,
    better_eq a b → better_eq b WorstDistance →
    better_eq (best (CombineWorst a c) WorstDistance)
              (best (CombineWorst b c) WorstDistance).

Lemma foldl_best_init (xs : list double) (b : double) :
  better_eq (foldl (λ acc d, best d acc) b xs) b.
Proof.
  revert b. induction xs as [|x xs IH]; intros b; simpl;
    [apply better_eq_refl|].
  eapply better_eq_trans; [apply IH|apply best_r].
Qed.

Lemma foldl_best_elem (xs : list double) (b x : double) :
  x ∈ xs → better_eq (foldl (λ acc d, best d acc) b xs) x.
Proof.
  revert b. induction xs as [|y xs IH]; intros b Hx; simpl;
    [by apply elem_of_nil in Hx|].
  apply elem_of_cons in Hx as [->|Hx]; [|by apply IH].
  eapply better_eq_trans; [apply foldl_best_init|apply best_l].
Qed.

Lemma foldl_best_cases (xs : list double) (b : double) :
  foldl (λ acc d, best d acc) b xs = b
  ∨ foldl (λ acc d, best d acc) b xs ∈ xs.
Proof.
  revert b. induction xs as [|y xs IH]; intros b; simpl; [by left|].
  destruct (IH (best y b)) as [->|Hin].
  - destruct (best_cases y b) as [->| ->]; [right; by left|by left].
  - right. by right.
Qed.

(** The best of a list does not get worse when each entry, cut off at the
    worst distance, does not. *)
Lemma best_of_clamped_mono (xs xs' : list double) :
  Forall2 (λ x' x, better_eq (best x' WorstDistance) (best x WorstDistance))
          xs' xs →
  better_eq (best_of xs') (best_of xs).
Proof.
  intros Hxs. unfold best_of.
  destruct (foldl_best_cases xs WorstDistance) as [->|Hin];
    [apply foldl_best_init|].
  apply list_elem_of_lookup in Hin as [i Hi].
  destruct (Forall2_lookup_r _ _ _ _ _ Hxs Hi) as (x' & Hx' & Hb).
  eapply better_eq_trans; [|apply best_l].
  eapply better_eq_trans; [|exact Hb].
  destruct (best_cases x' WorstDistance) as [->| ->].
  - apply foldl_best_elem. by eapply list_elem_of_lookup_2.
  - apply foldl_best_init.
Qed.

Lemma node_tightens_refl n : node_tightens n n.
Proof. repeat split; apply better_eq_refl. Qed.

Lemma node_tightens_trans n1 n2 n3 :
  node_tightens n1 n2 → node_tightens n2 n3 → node_tightens n1 n3.
Proof.
  intros (? & ? & ? & ? & ? & ? & ?) (? & ? & ? & ? & ? & ? & ?).
  repeat split; try congruence; by eapply better_eq_trans.
Qed.

Lemma tightens_refl r : tightens r r.
Proof.
  split.
  - intros id n' Hn. exists n'. split; [done|apply node_tightens_refl].
  - intros p d' Hd. exists d'. split; [done|apply better_eq_refl].
Qed.

Lemma tightens_trans r1 r2 r3 :
  tightens r1 r2 → tightens r2 r3 → tightens r1 r3.
Proof.
  intros [Hn12 Hk12] [Hn23 Hk23]. split.
  - intros id n3 H3. destruct (Hn23 _ _ H3) as (n2 & H2 & Ht23).
    destruct (Hn12 _ _ H2) as (n1 & H1 & Ht12).
    exists n1. split; [done|by eapply node_tightens_trans].
  - intros p d3 H3. destruct (Hk23 _ _ H3) as (d2 & H2 & Hb23).
    destruct (Hk12 _ _ H2) as (d1 & H1 & Hb12).
    exists d1. split; [done|by eapply better_eq_trans].
Qed.

Lemma traverse_kth_tightens r r' (pts : list N) (ks' : list double) :
  tightens r r' → traverse (kth_distance r') pts = Ok ks' →
  ∃ ks, traverse (kth_distance r) pts = Ok ks ∧ Forall2 better_eq ks' ks.
Proof.
  intros [_ Hk]. revert ks'.
  induction pts as [|p pts IH]; intros ks' H; simpl in *.
  { injection H as <-. by exists []. }
  destruct (kth_distance r' p) as [d'|] eqn:Hd'; simpl in H; [|done].
  destruct (traverse _ pts) as [ks0|] eqn:Hks0; simpl in H; [|done].
  injection H as <-.
  destruct (Hk _ _ Hd') as (d & -> & Hb).
  destruct (IH _ eq_refl) as (ks & -> & Hks). simpl.
  exists (d :: ks). split; [done|by constructor].
Qed.

Lemma node_tightens_lookup r r' (id : nat) n' :
  tightens r r' → node r' id = Ok n' →
  ∃ n, node r id = Ok n ∧ node_tightens n n'.
Proof.
  intros [Hn _]. unfold node.
  destruct (nodes r' !! id) as [n0|] eqn:H0; simpl; [|done].
  intros [= ->]. destruct (Hn _ _ H0) as (n & -> & Ht). by exists n.
Qed.

Lemma traverse_node_tightens r r' (cs : list nat) (ns' : list (TreeNode bound)) :
  tightens r r' → traverse (node r') cs = Ok ns' →
  ∃ ns, traverse (node r) cs = Ok ns ∧ Forall2 node_tightens ns ns'.
Proof.
  intros Ht. revert ns'.
  induction cs as [|c cs IH]; intros ns' H; simpl in *.
  { injection H as <-. by exists []. }
  destruct (node r' c) as [n'|] eqn:Hn'; simpl in H; [|done].
  destruct (traverse _ cs) as [ns0|] eqn:Hns0; simpl in H; [|done].
  injection H as <-.
  destruct (node_tightens_lookup _ _ _ _ Ht Hn') as (n & -> & Hnt).
  destruct (IH _ eq_refl) as (ns & -> & Hns). simpl.
  exists (n :: ns). split; [done|by constructor].
Qed.

(** The three bounds are monotone in everything they are computed from. *)
Lemma combine_bounds_mono (qn qn' : TreeNode bound) (ks ks' : list double)
    (cs cs' : list (TreeNode bound)) (parent parent' : option (TreeNode bound)) :
  FurthestDescendantDistance qn' = FurthestDescendantDistance qn →
  Forall2 better_eq ks' ks →
  Forall2 node_tightens cs cs' →
  Forall (λ c, better_eq (SecondBound (Stat c)) WorstDistance) cs →
  option_Forall2 node_tightens parent parent' →
  better_eq (quantity5 parent) WorstDistance →
  bounds_better_eq (combine_bounds FirstBound qn' ks' cs' parent')
                   (combine_bounds FirstBound qn ks cs parent).
Proof.
  intros Hfdd Hks Hcs Hcsb Hpar Hq5.
  assert (H1 : better_eq (quantity1 FirstBound ks' cs')
                         (quantity1 FirstBound ks cs)).
  { unfold quantity1. apply worst_mono; [done|..].
    - apply foldl_worst_mono; [done|apply better_eq_refl|done].
    - apply foldl_worst_mono; [done|apply better_eq_refl|].
      apply Forall2_fmap. eapply Forall2_flip, Forall2_impl; [done|].
      by intros n n' (_ & _ & _ & _ & ? & _). }
  assert (H2 : better_eq (best (quantity2 qn' ks') WorstDistance)
                         (best (quantity2 qn ks) WorstDistance)).
  { unfold quantity2. rewrite Hfdd. apply CombineWorst_mono.
    - apply foldl_best_mono; [done|apply better_eq_refl|done].
    - apply foldl_best_init. }
  assert (H3 : better_eq (quantity3 qn' cs') (quantity3 qn cs)).
  { unfold quantity3. rewrite Hfdd. apply best_of_clamped_mono.
    apply Forall2_fmap. clear -Hcs Hcsb CombineWorst_mono.
    induction Hcs as [|n n' cs cs' (_ & _ & _ & Hf & _ & Hsec & _) _ IH];
      [done|].
    apply Forall_cons in Hcsb as [Hb Hcsb]. constructor; [|by apply IH].
    simpl. rewrite Hf. by apply CombineWorst_mono. }
  assert (H4 : better_eq (quantity4 parent') (quantity4 parent)).
  { destruct Hpar as [p p' (_ & _ & _ & _ & ? & _)|]; simpl;
      [done|apply better_eq_refl]. }
  assert (H5 : better_eq (quantity5 parent') (quantity5 parent)).
  { destruct Hpar as [p p' (_ & _ & _ & _ & _ & ? & _)|]; simpl;
      [done|apply better_eq_refl]. }
  unfold combine_bounds, bounds_better_eq. simpl.
  assert (Hf : better_eq (best (quantity1 FirstBound ks' cs') (quantity4 parent'))
                         (best (quantity1 FirstBound ks cs) (quantity4 parent)))
    by by apply best_mono.
  set (s' := best (best (quantity3 qn' cs') (quantity2 qn' ks'))
                  (quantity5 parent')) in *.
  set (s := best (best (quantity3 qn cs) (quantity2 qn ks))
                 (quantity5 parent)) in *.
  assert (Hs : better_eq s' s).
  { assert (Hs5 : better_eq s' (quantity5 parent)).
    { eapply better_eq_trans; [apply best_r|done]. }
    assert (Hs3 : better_eq s' (quantity3 qn cs)).
    { eapply better_eq_trans; [apply best_l|].
      eapply better_eq_trans; [apply best_l|done]. }
    assert (Hs2 : better_eq s' (quantity2 qn ks)).
    { eapply better_eq_trans; [|apply best_l].
      eapply better_eq_trans; [|exact H2].
      destruct (best_cases (quantity2 qn' ks') WorstDistance) as [->| ->].
      - eapply better_eq_trans; [apply best_l|apply best_r].
      - eapply better_eq_trans; [exact Hs5|exact Hq5]. }
    subst s.
    destruct (best_cases (best (quantity3 qn cs) (quantity2 qn ks))
                (quantity5 parent)) as [->| ->]; [|done].
    by destruct (best_cases (quantity3 qn cs) (quantity2 qn ks)) as [->| ->]. }
  split_and!; [done|done|by apply best_mono].
Qed.

Lemma traverse_node_bounded r (cs : list nat) (ns : list (TreeNode bound)) :
  seconds_bounded r → traverse (node r) cs = Ok ns →
  Forall (λ c, better_eq (SecondBound (Stat c)) WorstDistance) ns.
Proof.
  intros Hb. revert ns. induction cs as [|c cs IH]; intros ns H; simpl in H.
  { by injection H as <-. }
  destruct (node r c) as [n|] eqn:Hn; simpl in H; [|done].
  destruct (traverse (node r) cs) as [ns0|] eqn:Hns0; simpl in H; [|done].
  injection H as <-. constructor; [|by apply IH].
  unfold node in Hn. destruct (nodes r !! c) as [n0|] eqn:Hn0; [|done].
  injection Hn as ->. by eapply Hb.
Qed.

Lemma bound_values_mono r r' (id : nat) (v' : double * double * double) :
  seconds_bounded r →
  tightens r r' → bound_values id r' = Ok v' →
  ∃ v, bound_values id r = Ok v ∧ bounds_better_eq v' v.
Proof.
  intros Hsb Ht. rewrite !bound_values_combine.
  destruct (node r' id) as [qn'|] eqn:Hqn'; simpl; [|done].
  destruct (node_tightens_lookup _ _ _ _ Ht Hqn')
    as (qn & -> & HP & Hpts & Hcs & Hfdd & _). simpl.
  rewrite HP, Hpts, Hcs.
  destruct (traverse (kth_distance r') _) as [ks'|] eqn:Hks'; simpl; [|done].
  destruct (traverse_kth_tightens _ _ _ _ Ht Hks') as (ks & -> & Hks). simpl.
  destruct (traverse (node r') _) as [cs'|] eqn:Hcs'; simpl; [|done].
  destruct (traverse_node_tightens _ _ _ _ Ht Hcs') as (cs & Hcs0 & Hcst).
  rewrite Hcs0. simpl.
  pose proof (traverse_node_bounded _ _ _ Hsb Hcs0) as Hcsb.
  destruct (Parent qn) as [par|]; simpl.
  - destruct (node r' par) as [pn'|] eqn:Hpn'; simpl; [|done].
    destruct (node_tightens_lookup _ _ _ _ Ht Hpn') as (pn & Hpn & Hpt).
    rewrite Hpn. simpl.
    intros [= <-]. eexists. split; [done|].
    apply combine_bounds_mono; try done; [by constructor|].
    simpl. unfold node in Hpn.
    destruct (nodes r !! par) as [pn0|] eqn:Hpn0; simpl in Hpn; [|done].
    injection Hpn as ->. by eapply Hsb.
  - intros [= <-]. eexists. split; [done|].
    apply combine_bounds_mono; try done; [by constructor|].
    apply better_eq_refl.
Qed.

(** The second bound [CalculateBound] computes is no worse than the worst
    distance when the parent's is. *)
Lemma bound_values_second_bounded r (id : nat) (b1 b2 b : double) :
  seconds_bounded r → bound_values id r = Ok (b1, b2, b) →
  better_eq b2 WorstDistance.
Proof.
  intros Hsb. rewrite bound_values_combine.
  destruct (node r id) as [qn|] eqn:Hqn; simpl; [|done].
  destruct (traverse (kth_distance r) _) as [ks|]; simpl; [|done].
  destruct (traverse (node r) _) as [cs|]; simpl; [|done].
  destruct (Parent qn) as [par|]; simpl.
  - destruct (node r par) as [pn|] eqn:Hpn; simpl; [|done].
    apply node_Ok in Hpn.
    intros [= <- <- <-].
    eapply better_eq_trans; [apply best_r|]. simpl. by eapply Hsb.
  - intros [= <- <- <-]. apply best_r.
Qed.

(** What [CalculateBound] changes. *)
Lemma CalculateBound_inv (queryNode : nat) r r' (b : double) :
  CalculateBound queryNode r = Ok (r', b) →
  ∃ qn b1 b2,
    nodes r !! queryNode = Some qn
    ∧ bound_values queryNode r = Ok (b1, b2, b)
    ∧ r' = update_stat queryNode (set_bounds b1 b2 b) r
    ∧ nodes r' !! queryNode = Some (set_stat (set_bounds b1 b2 b (Stat qn)) qn).
Proof.
  unfold CalculateBound. intros H.
  destruct (bound_values queryNode r) as [[[b1 b2] b0]|] eqn:Hv;
    simpl in H; [|done].
  injection H as <- <-.
  assert (∃ qn, nodes r !! queryNode = Some qn) as [qn Hqn].
  { unfold bound_values, node in Hv.
    destruct (nodes r !! queryNode) as [qn|]; [by eauto|done]. }
  exists qn, b1, b2. split_and!; try done.
  simpl. by rewrite list_lookup_alter_eq, Hqn.
Qed.

Lemma CalculateBound_tightens (queryNode : nat) r r' (b : double) :
  bounds_recomputable r → CalculateBound queryNode r = Ok (r', b) →
  tightens r r'.
Proof.
  intros Hinv H.
  destruct (CalculateBound_inv _ _ _ _ H) as (qn & b1 & b2 & Hqn & Hv & -> & _).
  split; [|intros p d' Hd; exists d'; split; [done|apply better_eq_refl]].
  intros id n'. simpl.
  destruct (decide (id = queryNode)) as [->|Hne].
  - rewrite list_lookup_alter_eq, Hqn. simpl. intros [= <-].
    exists qn. split; [done|].
    destruct (Hinv _ _ _ Hqn Hv) as (? & ? & ?). by repeat split.
  - rewrite list_lookup_alter_ne by done. intros Hn'.
    exists n'. split; [done|apply node_tightens_refl].
Qed.

Lemma search_step_tightens r r' :
  bounds_recomputable r → search_step r r' → tightens r r'.
Proof.
  intros Hinv Hstep. revert Hinv.
  destruct Hstep as [q r1 r2 b H|r1 r2 Ht _]; intros Hinv; [|done].
  by eapply CalculateBound_tightens.
Qed.

Lemma search_step_bounded r r' :
  seconds_bounded r → search_step r r' → seconds_bounded r'.
Proof.
  intros Hsb Hstep. revert Hsb.
  destruct Hstep as [q r1 r2 b H|r1 r2 _ Hsame]; intros Hsb.
  - destruct (CalculateBound_inv _ _ _ _ H)
      as (qn & b1 & b2 & Hqn & Hv & -> & _).
    intros id n'. simpl. destruct (decide (id = q)) as [->|Hne].
    + rewrite list_lookup_alter_eq, Hqn. simpl. intros [= <-]. simpl.
      by eapply bound_values_second_bounded.
    + rewrite list_lookup_alter_ne by done. apply Hsb.
  - intros id n' Hn'. destruct (Hsame _ _ Hn') as (n & Hn & Hc).
    unfold cached_bounds in Hc. injection Hc as _ -> _. by eapply Hsb.
Qed.

Lemma search_step_recomputable r r' :
  seconds_bounded r → bounds_recomputable r → search_step r r' →
  bounds_recomputable r'.
Proof.
  intros Hsb Hinv Hstep.
  pose proof (search_step_tightens _ _ Hinv Hstep) as Ht.
  revert Hsb Hinv Ht.
  destruct Hstep as [q r1 r2 b H|r1 r2 _ Hsame]; intros Hsb Hinv Ht.
  - destruct (CalculateBound_inv _ _ _ _ H)
      as (qn & b1 & b2 & Hqn & Hv & -> & _).
    intros id n' v' Hn' Hv'.
    destruct (bound_values_mono _ _ _ _ Hsb Ht Hv') as (v & Hv0 & Hvv).
    simpl in Hn'. destruct (decide (id = q)) as [->|Hne].
    + rewrite list_lookup_alter_eq, Hqn in Hn'. simpl in Hn'.
      injection Hn' as <-. rewrite Hv in Hv0. by injection Hv0 as <-.
    + rewrite list_lookup_alter_ne in Hn' by done.
      eapply bounds_better_eq_trans; [done|done|]. by eapply Hinv.
  - intros id n' v' Hn' Hv'.
    destruct (bound_values_mono _ _ _ _ Hsb Ht Hv') as (v & Hv0 & Hvv).
    destruct (Hsame _ _ Hn') as (n & Hn & ->).
    eapply bounds_better_eq_trans; [done|done|]. by eapply Hinv.
Qed.

Lemma search_steps_tightens r r' :
  seconds_bounded r → bounds_recomputable r → search_steps r r' →
  tightens r r' ∧ seconds_bounded r' ∧ bounds_recomputable r'.
Proof.
  intros Hsb Hinv Hsteps. induction Hsteps as [r|r1 r2 r3 Hstep _ IH].
  - split; [apply tightens_refl|done].
  - destruct IH as (Ht & Hsb3 & Hinv3);
      [by eapply search_step_bounded|by eapply search_step_recomputable|].
    split; [|done].
    eapply tightens_trans; [|done]. by apply search_step_tightens.
Qed.

Lemma fresh_bounds_bounded r : fresh_bounds r → seconds_bounded r.
Proof.
  intros Hfresh id n Hn. pose proof (Hfresh _ _ Hn) as Hc.
  unfold cached_bounds in Hc. injection Hc as _ -> _. apply better_eq_refl.
Qed.

(** At the start of a search a recomputation cannot loosen anything: the
    parent terms (4) and (5) are the worst distance already. *)
Lemma fresh_bounds_recomputable r : fresh_bounds r → bounds_recomputable r.
Proof.
  intros Hfresh id n v Hn. rewrite bound_values_combine. unfold node.
  rewrite Hn. simpl.
  destruct (traverse (kth_distance r) _) as [ks|]; simpl; [|done].
  destruct (traverse _ (Children n)) as [cs|]; simpl; [|done].
  rewrite (Hfresh _ _ Hn).
  assert (∀ parent : option (TreeNode bound),
            (∀ p, parent = Some p → ∃ id', nodes r !! id' = Some p) →
            bounds_better_eq (combine_bounds FirstBound n ks cs parent)
              (WorstDistance, WorstDistance, WorstDistance)) as Hgoal.
  { intros parent Hp.
    assert (quantity4 parent = WorstDistance ∧ quantity5 parent = WorstDistance)
      as [H4 H5].
    { destruct parent as [p|]; [|done]. simpl.
      destruct (Hp _ eq_refl) as [id' Hid'].
      pose proof (Hfresh _ _ Hid') as Hc.
      unfold cached_bounds in Hc. by simplify_eq. }
    unfold combine_bounds, bounds_better_eq. simpl. rewrite H4, H5.
    split_and!; [apply best_r|apply best_r|].
    eapply better_eq_trans; [apply best_l|apply best_r]. }
  destruct (Parent n) as [par|]; simpl.
  - destruct (nodes r !! par) as [pn|] eqn:Hpn; simpl; [|done].
    intros [= <-]. apply Hgoal. intros p [= <-]. by exists par.
  - intros [= <-]. by apply Hgoal.
Qed.

(** C9.  In a search that starts with every cached bound at the worst
    distance and in which, between the calls of [CalculateBound], k-th
    candidate distances only tighten, the first bound, second bound and
    bound a later call of [CalculateBound] writes on a query node (and the
    bound it returns) are at least as tight as those any earlier call on
    that node wrote. *)
Theorem CalculateBound_never_loosens (queryNode : nat)
    r0 r1 r1' r2 r2' (b1 b2 : double) :
  fresh_bounds r0 →
  search_steps r0 r1 → CalculateBound queryNode r1 = Ok (r1', b1) →
  search_steps r1' r2 → CalculateBound queryNode r2 = Ok (r2', b2) →
  ∃ n1 n2,
    nodes r1' !! queryNode = Some n1 ∧ Bound (Stat n1) = b1
    ∧ nodes r2' !! queryNode = Some n2 ∧ Bound (Stat n2) = b2
    ∧ better_eq (FirstBound (Stat n2)) (FirstBound (Stat n1))
    ∧ better_eq (SecondBound (Stat n2)) (SecondBound (Stat n1))
    ∧ better_eq (Bound (Stat n2)) (Bound (Stat n1)).
Proof.
  intros Hfresh Hs01 Hc1 Hs12 Hc2.
  pose proof (fresh_bounds_bounded _ Hfresh) as Hsb0.
  apply fresh_bounds_recomputable in Hfresh.
  destruct (search_steps_tightens _ _ Hsb0 Hfresh Hs01) as (_ & Hsb1 & Hinv1).
  assert (Hstep1 : search_step r1 r1') by by econstructor.
  pose proof (search_step_bounded _ _ Hsb1 Hstep1) as Hsb1'.
  pose proof (search_step_recomputable _ _ Hsb1 Hinv1 Hstep1) as Hinv1'.
  destruct (search_steps_tightens _ _ Hsb1' Hinv1' Hs12) as (Ht12 & _ & Hinv2).
  pose proof (CalculateBound_tightens _ _ _ _ Hinv2 Hc2) as Ht2.
  destruct (CalculateBound_inv _ _ _ _ Hc1) as (q1 & ? & ? & _ & _ & _ & Hn1).
  destruct (CalculateBound_inv _ _ _ _ Hc2) as (q2 & ? & ? & _ & _ & _ & Hn2).
  eexists _, _. split; [done|]. split; [done|].
  split; [done|]. split; [done|].
  destruct Ht2 as [Ht2 _]. destruct (Ht2 _ _ Hn2) as (m2 & Hm2 & Hnt2).
  destruct Ht12 as [Ht12 _]. destruct (Ht12 _ _ Hm2) as (m1 & Hm1 & Hnt1).
  rewrite Hn1 in Hm1. injection Hm1 as <-.
  destruct (node_tightens_trans _ _ _ Hnt1 Hnt2) as (_ & _ & _ & _ & ? & ? & ?).
  done.
Qed.

End BoundMonotonicity.

(** ** Candidate lists *)

Section SortedColumns.
Context `{DO : DoubleOps} {point bound : Type}.
Context `{SP : !SortPolicy point bound}.

Hypothesis better_eq_trans :
  ∀ a b c : double, better_eq a b → better_eq b c → better_eq a c.

#[local] Instance better_eq_transitive : Transitive better_eq.
Proof. exact better_eq_trans. Qed.

Lemma shifted_insert_lookup_cases {A} (pos : nat) (x y : A) (col : list A)
    (i : nat) :
  pos < length col → shifted_insert pos x col !! i = Some y →
  (i < pos ∧ col !! i = Some y) ∨ (i = pos ∧ y = x)
  ∨ (pos < i ∧ col !! (i - 1) = Some y).
Proof.
  intros Hpos Hy.
  pose proof (lookup_lt_Some _ _ _ Hy) as Hi.
  rewrite shifted_insert_length in Hi by done.
  destruct (decide (i < pos)) as [Hlt|Hge].
  { left. by rewrite shifted_insert_before in Hy. }
  destruct (decide (i = pos)) as [->|Hne].
  { right; left. rewrite shifted_insert_at in Hy by done. by simplify_eq. }
  right; right. split; [lia|].
  replace i with (i - 1 + 1) in Hy by lia.
  by rewrite shifted_insert_after in Hy by lia.
Qed.

Lemma StronglySorted_lookup (col : list double) (i j : nat) (a b : double) :
  StronglySorted better_eq col → i < j →
  col !! i = Some a → col !! j = Some b → better_eq a b.
Proof.
  intros Hs Hij Ha Hb.
  rewrite <- (take_drop j col) in Hs.
  apply StronglySorted_app in Hs as (Hcross & _ & _).
  apply Hcross.
  - apply elem_of_take. by exists i.
  - apply list_elem_of_lookup. exists 0. rewrite lookup_drop.
    by replace (j + 0) with j by lia.
Qed.

(** A ranked insertion at a row that respects the order keeps the column
    sorted. *)
Lemma sorted_shifted_insert (col : list double) (pos : nat) (d : double) :
  sorted_col col → pos < length col →
  (∀ i a, i < pos → col !! i = Some a → better_eq a d) →
  (∀ b, col !! pos = Some b → better_eq d b) →
  sorted_col (shifted_insert pos d col).
Proof.
  intros Hs Hpos Hbefore Hafter.
  apply Sorted_StronglySorted in Hs; [|apply _].
  apply StronglySorted_Sorted. unfold shifted_insert.
  pose proof Hs as Hs0.
  rewrite <- (take_drop pos col) in Hs.
  apply StronglySorted_app in Hs as (Hcross & Hs1 & Hs2).
  assert (Htail : ∀ x, x ∈ take (length col - 1 - pos) (drop pos col) →
                       better_eq d x).
  { intros x [i [Hx Hi]]%elem_of_take. rewrite lookup_drop in Hx.
    destruct (lookup_lt_is_Some_2 col pos Hpos) as [b Hb].
    destruct (decide (i = 0)) as [->|Hi0].
    - replace (pos + 0) with pos in Hx by lia.
      rewrite Hb in Hx. injection Hx as <-. by apply Hafter.
    - eapply better_eq_trans; [by apply Hafter|].
      eapply (StronglySorted_lookup col pos (pos + i)); try done. lia. }
  apply StronglySorted_app. split_and!.
  - intros x1 x2 [i [Hx1 Hi]]%elem_of_take [->|Hx2]%elem_of_cons.
    + by eapply Hbefore.
    + apply Hcross; [apply elem_of_take; by exists i|].
      by apply (subseteq_take (length col - 1 - pos) (drop pos col)).
  - done.
  - apply StronglySorted_cons. split; [by apply Forall_forall|].
    rewrite <- (take_drop (length col - 1 - pos) (drop pos col)) in Hs2.
    by apply StronglySorted_app in Hs2 as (_ & ? & _).
Qed.

(** The last entry after a ranked insertion is at least as good as the
    last entry before. *)
Lemma last_shifted_insert (col : list double) (pos : nat) (d w w' : double) :
  sorted_col col → pos < length col →
  (∀ b, col !! pos = Some b → better_eq d b) →
  last col = Some w → last (shifted_insert pos d col) = Some w' →
  better_eq w' w.
Proof.
  intros Hs Hpos Hafter Hw Hw'.
  apply Sorted_StronglySorted in Hs; [|apply _].
  rewrite last_lookup in Hw, Hw'.
  rewrite shifted_insert_length in Hw' by done.
  destruct (shifted_insert_lookup_cases _ _ _ _ _ Hpos Hw')
    as [[Hlt _]|[[Heq ->]|[Hlt Hw'']]]; [lia| |].
  - apply Hafter. by rewrite <- Heq.
  - eapply (StronglySorted_lookup col (pred (length col) - 1)
              (pred (length col))); try done. lia.
Qed.

End SortedColumns.

Section CandidateLists.
Context `{DO : DoubleOps} {point bound : Type}.
Context `{M : !MetricType point} `{SP : !SortPolicy point bound}.
Context `{TT : TreeTraits}.
Implicit Types r : NeighborSearchRules point bound.

(** What is asked of the policy: its ordering is transitive; the row
    [SortDistance] answers with keeps a sorted column sorted (the entries
    above it are at least as good as the new distance, which is at least as
    good as the entry it displaces); and it answers with a row only for a
    distance that beats the current worst entry. *)
Hypothesis better_eq_trans :
  ∀ a b c : double, better_eq a b → better_eq b c → better_eq a c.
Hypothesis SortDistance_sorted :
  ∀ (col : list double) (d : double),
    sorted_col col → SortDistance col d ≠ size_max →
    (∀ i a, i < N.to_nat (SortDistance col d) → col !! i = Some a →
            better_eq a d)
    ∧ (∀ b, col !! N.to_nat (SortDistance col d) = Some b → better_eq d b).
Hypothesis SortDistance_beats :
  ∀ (col : list double) (d w : double),
    SortDistance col d ≠ size_max → last col = Some w → beats d w.

Lemma kth_distance_last r (p : N) (col : list double) :
  rules_wf r → columns (distances r) !! N.to_nat p = Some col →
  kth_distance r p = or_fault OutOfBounds (last col).
Proof.
  intros Hwf Hcol. pose proof Hwf as [Hd _ _ _ Hk1 Hk2].
  pose proof (Forall_lookup_1 _ _ _ _ Hd Hcol) as Hlen. simpl in Hlen.
  unfold kth_distance, mat_at, unsafe_col.
  rewrite size_sub_small by (rewrite ?size_modulus_eq; lia).
  destruct (N.ltb_spec (n_rows (distances r) - 1) (n_rows (distances r)));
    [|lia].
  rewrite Hcol. simpl. rewrite last_lookup. do 2 f_equal. lia.
Qed.

Lemma kth_distance_inv r (p : N) (w : double) :
  rules_wf r → kth_distance r p = Ok w →
  ∃ col, columns (distances r) !! N.to_nat p = Some col ∧ last col = Some w.
Proof.
  intros Hwf Hw.
  destruct (columns (distances r) !! N.to_nat p) as [col|] eqn:Hcol.
  - rewrite (kth_distance_last _ _ _ Hwf Hcol) in Hw.
    exists col. split; [done|].
    destruct (last col); simpl in Hw; by simplify_eq.
  - unfold kth_distance, mat_at, unsafe_col in Hw. rewrite Hcol in Hw.
    destruct (_ <? _)%N; simpl in Hw; done.
Qed.

(** What a base case does to the candidate matrices: nothing, or one
    ranked insertion into the column of its query point, at the row
    [SortDistance] answered with. *)
Lemma BaseCase_matrices r (q rf : N) r' (d : double) :
  rules_wf r → BaseCase q rf r = Ok (r', d) →
  (distances r' = distances r ∧ neighbors r' = neighbors r)
  ∨ ∃ dcol ncol,
      columns (distances r) !! N.to_nat q = Some dcol
      ∧ columns (neighbors r) !! N.to_nat q = Some ncol
      ∧ SortDistance dcol d ≠ size_max
      ∧ N.to_nat (SortDistance dcol d) < length dcol
      ∧ length ncol = length dcol
      ∧ distances r'
        = set_col (distances r) q
            (shifted_insert (N.to_nat (SortDistance dcol d)) d dcol)
      ∧ neighbors r'
        = set_col (neighbors r) q
            (shifted_insert (N.to_nat (SortDistance dcol d)) rf ncol).
Proof.
  intros Hwf H.
  destruct (BaseCase_inv _ _ _ _ _ H)
    as [(_ & -> & _)|[(_ & _ & _ & -> & _)|
        (_ & _ & qp & rp & col & r1 & _ & _ & Hd & Hcol & Hr1 & ->)]];
    [by left|by left|].
  destruct Hr1 as [[_ ->]|[Hs Hins]]; [by left|]. right.
  apply InsertNeighbor_inv in Hins as (dcol & ncol & Hdcol & Hncol & Hpos & ->);
    [|by destruct Hwf].
  simpl in *. rewrite Hcol in Hdcol. injection Hdcol as <-.
  pose proof Hwf as [Hdw Hnw Hrows _ _ _].
  pose proof (Forall_lookup_1 _ _ _ _ Hdw Hcol) as Hdl. simpl in Hdl.
  pose proof (Forall_lookup_1 _ _ _ _ Hnw Hncol) as Hnl. simpl in Hnl.
  exists col, ncol. subst d. split_and!; try done; lia.
Qed.

Lemma BaseCase_keeps_sorted r (q rf : N) r' (d : double) :
  rules_wf r → all_sorted r → BaseCase q rf r = Ok (r', d) → all_sorted r'.
Proof.
  intros Hwf Hs H. unfold all_sorted.
  destruct (BaseCase_matrices _ _ _ _ _ Hwf H)
    as [[-> _]|(dcol & ncol & Hdcol & _ & Hsd & Hpos & _ & -> & _)]; [done|].
  simpl. apply Forall_insert; [done|].
  pose proof (Forall_lookup_1 _ _ _ _ Hs Hdcol) as Hsorted.
  destruct (SortDistance_sorted dcol d Hsorted Hsd) as [Hbefore Hafter].
  by apply sorted_shifted_insert.
Qed.

(** After a base case every k-th candidate distance is at least as good as
    before. *)
Lemma BaseCase_kth_tightens r (q rf : N) r' (d : double) (p : N) (w' : double) :
  rules_wf r → all_sorted r → BaseCase q rf r = Ok (r', d) →
  kth_distance r' p = Ok w' →
  ∃ w, kth_distance r p = Ok w ∧ better_eq w' w.
Proof.
  intros Hwf Hs H Hw'.
  pose proof (rules_wf_BaseCase _ _ _ _ _ Hwf H) as Hwf'.
  destruct (kth_distance_inv _ _ _ Hwf' Hw') as (col' & Hcol' & Hlast').
  destruct (BaseCase_matrices _ _ _ _ _ Hwf H)
    as [[Heq _]|(dcol & ncol & Hdcol & _ & Hsd & Hpos & _ & Heq & _)].
  { rewrite Heq in Hcol'. exists w'. split; [|apply better_eq_refl].
    by rewrite (kth_distance_last _ _ _ Hwf Hcol'), Hlast'. }
  rewrite Heq in Hcol'. simpl in Hcol'.
  destruct (decide (N.to_nat q = N.to_nat p)) as [Hqp|Hqp].
  - rewrite Hqp, list_lookup_insert_eq in Hcol'
      by (rewrite <- Hqp; by eapply lookup_lt_Some).
    injection Hcol' as <-.
    pose proof (Forall_lookup_1 _ _ _ _ Hs Hdcol) as Hsorted.
    destruct (SortDistance_sorted dcol d Hsorted Hsd) as [_ Hafter].
    destruct (last dcol) as [w|] eqn:Hw.
    + exists w. rewrite Hqp in Hdcol.
      rewrite (kth_distance_last _ _ _ Hwf Hdcol), Hw. split; [done|].
      by eapply last_shifted_insert.
    + apply last_None in Hw. subst dcol. simpl in Hpos. lia.
  - rewrite list_lookup_insert_ne in Hcol' by done.
    exists w'. split; [|apply better_eq_refl].
    by rewrite (kth_distance_last _ _ _ Hwf Hcol'), Hlast'.
Qed.

Lemma elem_of_zip_shifted_insert {A B} (pos : nat) (a x : A) (b y : B)
    (l : list A) (k : list B) :
  pos < length l → length k = length l →
  (a, b) ∈ zip (shifted_insert pos x l) (shifted_insert pos y k) →
  (a, b) = (x, y) ∨ (a, b) ∈ zip l k.
Proof.
  intros Hpos Hlen [i [Ha Hb]%lookup_zip_Some]%list_elem_of_lookup.
  destruct (shifted_insert_lookup_cases _ _ _ _ _ Hpos Ha)
    as [[Hlt Ha']|[[-> ->]|[Hlt Ha']]].
  - right. apply list_elem_of_lookup. exists i. apply lookup_zip_Some.
    split; [done|]. by rewrite shifted_insert_before in Hb by lia.
  - left. rewrite shifted_insert_at in Hb by lia. by simplify_eq.
  - right. apply list_elem_of_lookup. exists (i - 1). apply lookup_zip_Some.
    split; [done|].
    pose proof (lookup_lt_Some _ _ _ Hb) as Hi.
    rewrite shifted_insert_length in Hi by lia.
    replace i with (i - 1 + 1) in Hb by lia.
    by rewrite shifted_insert_after in Hb by lia.
Qed.

(** An entry that is not in the list of [q] and whose distance is no better
    than the current worst entry of [q] stays out, whatever base cases
    follow. *)
Lemma discarded_stays_out r (q : N) (e : double * N) calls r2 :
  rules_wf r → all_sorted r →
  (∀ l, candidates r q = Some l → e ∉ l) →
  (∀ w, kth_distance r q = Ok w → better_eq w e.1) →
  BaseCase_calls calls r = Ok r2 →
  ∀ l2, candidates r2 q = Some l2 → e ∉ l2.
Proof.
  revert r. induction calls as [|[q' rf'] calls IH];
    intros r Hwf Hs Hout Hworst Hrun; simpl in Hrun.
  { by injection Hrun as <-. }
  destruct (BaseCase q' rf' r) as [[r1 d]|] eqn:Hbc; simpl in Hrun; [|done].
  apply (IH r1); try done.
  - by eapply rules_wf_BaseCase.
  - by eapply BaseCase_keeps_sorted.
  - intros l1 Hl1.
    destruct (BaseCase_matrices _ _ _ _ _ Hwf Hbc)
      as [[Hd Hn]|(dcol & ncol & Hdcol & Hncol & Hsd & Hpos & Hlen & Hd & Hn)].
    { apply Hout. unfold candidates in *. by rewrite <- Hd, <- Hn. }
    unfold candidates in Hl1. rewrite Hd, Hn in Hl1. simpl in Hl1.
    destruct (decide (N.to_nat q' = N.to_nat q)) as [Hqq|Hqq].
    + rewrite Hqq, !list_lookup_insert_eq in Hl1
        by (rewrite <- Hqq; by eapply lookup_lt_Some).
      simpl in Hl1. injection Hl1 as <-. destruct e as [de ne].
      intros [He|He]%elem_of_zip_shifted_insert; [| |done|done].
      * injection He as -> ->.
        destruct (last dcol) as [w|] eqn:Hw;
          [|apply last_None in Hw; subst dcol; simpl in Hpos; lia].
        eapply beats_not_better_eq; [by eapply SortDistance_beats|].
        apply Hworst. rewrite Hqq in Hdcol.
        by rewrite (kth_distance_last _ _ _ Hwf Hdcol), Hw.
      * eapply Hout; [|done]. unfold candidates.
        rewrite Hqq in Hdcol, Hncol. by rewrite Hdcol, Hncol.
    + rewrite !list_lookup_insert_ne in Hl1 by done. by apply Hout.
  - intros w1 Hw1.
    destruct (BaseCase_kth_tightens _ _ _ _ _ _ _ Hwf Hs Hbc Hw1)
      as (w & Hw & Hb).
    eapply better_eq_trans; [done|by apply Hworst].
Qed.

(** C8.  From well-formed k-row candidate matrices with sorted columns,
    after any sequence of base cases every candidate list still has k
    entries and is still sorted by the policy's ordering; and once a base
    case has changed the list of a query point, shifting its last entry
    out, that entry (if no copy of it stayed in the list) is in the list
    after no further sequence of base cases. *)
Theorem candidate_lists_invariant r calls r' :
  rules_wf r → all_sorted r → BaseCase_calls calls r = Ok r' →
  (∀ q l, candidates r' q = Some l →
     N.of_nat (length l) = n_rows (distances r) ∧ sorted_col l.*1)
  ∧ (∀ q rf r1 d l l1 e calls' r2 l2,
       candidates r' q = Some l → last l = Some e →
       BaseCase q rf r' = Ok (r1, d) → candidates r1 q = Some l1 →
       l1 ≠ l → e ∉ l1 →
       BaseCase_calls calls' r1 = Ok r2 → candidates r2 q = Some l2 →
       e ∉ l2).
Proof.
  intros Hwf Hs Hrun.
  assert (rules_wf r' ∧ all_sorted r'
          ∧ n_rows (distances r') = n_rows (distances r))
    as (Hwf' & Hs' & Hrows).
  { clear -Hwf Hs Hrun better_eq_trans SortDistance_sorted.
    revert r Hwf Hs Hrun.
    induction calls as [|[q rf] calls IH]; intros r Hwf Hs Hrun;
      simpl in Hrun.
    { by injection Hrun as <-. }
    destruct (BaseCase q rf r) as [[r1 d]|] eqn:Hbc; simpl in Hrun; [|done].
    destruct (IH r1) as (? & ? & ->); try done.
    - by eapply rules_wf_BaseCase.
    - by eapply BaseCase_keeps_sorted.
    - split_and!; try done.
      destruct (BaseCase_matrices _ _ _ _ _ Hwf Hbc)
        as [[-> _]|(? & ? & _ & _ & _ & _ & _ & -> & _)]; done. }
  split.
  - intros q l Hl. unfold candidates in Hl.
    destruct (columns (distances r') !! N.to_nat q) as [ds|] eqn:Hds;
      simpl in Hl; [|done].
    destruct (columns (neighbors r') !! N.to_nat q) as [ns|] eqn:Hns;
      simpl in Hl; [|done].
    injection Hl as <-.
    pose proof Hwf' as [Hdw Hnw Hr _ _ _].
    pose proof (Forall_lookup_1 _ _ _ _ Hdw Hds) as Hdl. simpl in Hdl.
    pose proof (Forall_lookup_1 _ _ _ _ Hnw Hns) as Hnl. simpl in Hnl.
    rewrite length_zip, fst_zip by lia. split; [lia|].
    by apply (Forall_lookup_1 _ _ _ _ Hs' Hds).
  - intros q rf r1 d l l1 e calls' r2 l2 Hl He Hbc Hl1 Hne Hout Hrun2.
    eapply (discarded_stays_out r1 q e calls' r2); try done.
    + by eapply rules_wf_BaseCase.
    + by eapply BaseCase_keeps_sorted.
    + intros l1' Hl1'. rewrite Hl1 in Hl1'. by injection Hl1' as <-.
    + intros w1 Hw1.
      destruct (BaseCase_kth_tightens _ _ _ _ _ _ _ Hwf' Hs' Hbc Hw1)
        as (w & Hw & Hb).
      destruct (kth_distance_inv _ _ _ Hwf' Hw) as (dcol & Hdcol & Hlast).
      unfold candidates in Hl. rewrite Hdcol in Hl. simpl in Hl.
      destruct (columns (neighbors r') !! N.to_nat q) as [ncol|] eqn:Hncol;
        simpl in Hl; [|done].
      injection Hl as <-.
      rewrite last_lookup in He. rewrite last_lookup in Hlast.
      destruct e as [de ne]. apply lookup_zip_Some in He as [Hde _].
      pose proof Hwf' as [Hdw Hnw Hr _ _ _].
      pose proof (Forall_lookup_1 _ _ _ _ Hdw Hdcol) as Hdl. simpl in Hdl.
      pose proof (Forall_lookup_1 _ _ _ _ Hnw Hncol) as Hnl. simpl in Hnl.
      rewrite length_zip in Hde.
      replace (length dcol `min` length ncol) with (length dcol) in Hde by lia.
      rewrite Hlast in Hde. by injection Hde as <-.
Qed.

(** *** The calls of the rules are search steps *)

Lemma BaseCase_nodes r (q rf : N) r' (d : double) :
  BaseCase q rf r = Ok (r', d) → nodes r' = nodes r.
Proof.
  intros H.
  destruct (BaseCase_inv _ _ _ _ _ H)
    as [(_ & -> & _)|[(_ & _ & _ & -> & _)|
        (_ & _ & qp & rp & col & r1 & _ & _ & _ & _ & Hr1 & ->)]];
    [done|done|].
  destruct Hr1 as [[_ ->]|[_ Hins]]; [done|].
  by destruct (InsertNeighbor_frame _ _ _ _ _ _ Hins) as (? & ? & ->).
Qed.

Lemma BaseCase_search_step r (q rf : N) r' (d : double) :
  rules_wf r → all_sorted r → BaseCase q rf r = Ok (r', d) →
  search_step r r'.
Proof.
  intros Hwf Hs H. pose proof (BaseCase_nodes _ _ _ _ _ H) as Hn.
  apply step_other.
  - split.
    + intros id n' Hn'. rewrite Hn in Hn'. exists n'. split; [done|].
      repeat split; apply better_eq_refl.
    + intros p w' Hw'. by eapply BaseCase_kth_tightens.
  - intros id n' Hn'. rewrite Hn in Hn'. by exists n'.
Qed.

(** Writing the last distance or the last node of a statistic, or the
    memo, is a step that leaves bounds and candidates alone. *)
Lemma update_stat_search_step r (id : nat)
    (f : NeighborSearchStat → NeighborSearchStat) :
  (∀ s, FirstBound (f s) = FirstBound s ∧ SecondBound (f s) = SecondBound s
        ∧ Bound (f s) = Bound s) →
  search_step r (update_stat id f r).
Proof.
  intros Hf.
  assert (∀ id' n', nodes (update_stat id f r) !! id' = Some n' →
            ∃ n, nodes r !! id' = Some n ∧ Parent n' = Parent n
                 ∧ Points n' = Points n ∧ Children n' = Children n
                 ∧ FurthestDescendantDistance n'
                   = FurthestDescendantDistance n
                 ∧ cached_bounds n' = cached_bounds n) as Hnodes.
  { intros id' n'. simpl. destruct (decide (id' = id)) as [->|Hne].
    - rewrite list_lookup_alter_eq.
      destruct (nodes r !! id) as [n|]; simpl; [|done].
      intros [= <-]. exists n. split_and!; try done.
      unfold cached_bounds. simpl. by destruct (Hf (Stat n)) as (-> & -> & ->).
    - rewrite list_lookup_alter_ne by done. intros Hn'. by exists n'. }
  apply step_other.
  - split.
    + intros id' n' Hn'.
      destruct (Hnodes _ _ Hn') as (n & Hn & ? & ? & ? & ? & Hc).
      exists n. split; [done|]. unfold cached_bounds in Hc.
      injection Hc as Hc1 Hc2 Hc3. unfold node_tightens.
      rewrite Hc1, Hc2, Hc3. repeat split; try done; apply better_eq_refl.
    + intros p w' Hw'. exists w'. split; [done|apply better_eq_refl].
  - intros id' n' Hn'.
    destruct (Hnodes _ _ Hn') as (n & Hn & _ & _ & _ & _ & Hc). by exists n.
Qed.

Lemma set_last_node_search_step r (id n : nat) :
  search_step r (update_stat id (set_last_node n) r).
Proof. by apply update_stat_search_step. Qed.

Lemma set_last_distance_search_step r (id : nat) (d : double) :
  search_step r (update_stat id (set_last_distance d) r).
Proof. by apply update_stat_search_step. Qed.

Lemma set_memo_search_step r (q rf : N) (d : double) :
  search_step r (set_memo q rf d r).
Proof.
  apply step_other.
  - split.
    + intros id n' Hn'. exists n'. split; [done|].
      repeat split; apply better_eq_refl.
    + intros p w' Hw'. exists w'. split; [done|apply better_eq_refl].
  - intros id n' Hn'. by exists n'.
Qed.

(** A node-to-node score, and a node-to-node rescore, is a sequence of
    search steps. *)
Lemma Score_nodes_search_steps (queryNode referenceNode : nat) r r'
    (v : double) :
  rules_wf r → all_sorted r →
  Score_nodes queryNode referenceNode r = Ok (r', v) → search_steps r r'.
Proof.
  intros Hwf Hs. unfold Score_nodes.
  destruct (node r queryNode) as [qn|]; simpl; [|done].
  destruct (node r referenceNode) as [rn|]; simpl; [|done].
  intros H.
  assert (∃ r1 b, search_steps r r1 ∧ CalculateBound queryNode r1 = Ok (r', b))
    as (r1 & b & Hsteps & Hcalc).
  { destruct FirstPointIsCentroid.
    - destruct (centroid_base_case queryNode referenceNode r)
        as [[r1 base]|] eqn:Hbase; simpl in H; [|done].
      destruct (CalculateBound queryNode r1) as [[r2 b]|] eqn:Hcalc;
        simpl in H; [|done].
      injection H as <- _. exists r1, b. split; [|done].
      unfold centroid_base_case in Hbase.
      destruct (node r queryNode) as [qn'|]; simpl in Hbase; [|done].
      destruct (node r referenceNode) as [rn'|]; simpl in Hbase; [|done].
      destruct (Point qn' 0) as [qp0|]; simpl in Hbase; [|done].
      destruct (Point rn' 0) as [rp0|]; simpl in Hbase; [|done].
      destruct (if HasSelfChildren then _ else _) as [cached|];
        simpl in Hbase; [|done].
      assert (∃ r0, search_step r r0
                ∧ r1 = update_stat referenceNode (set_last_distance base)
                         (update_stat referenceNode (set_last_node queryNode)
                            (update_stat queryNode (set_last_distance base)
                               (update_stat queryNode
                                  (set_last_node referenceNode) r0))))
        as (r0 & Hstep0 & ->).
      { destruct cached as [b0|].
        - injection Hbase as <- <-. eexists. split; [|done].
          apply set_memo_search_step.
        - destruct (BaseCase qp0 rp0 r) as [[r0 b0]|] eqn:Hbc;
            simpl in Hbase; [|done].
          injection Hbase as <- <-. exists r0. split; [|done].
          by eapply BaseCase_search_step. }
      eapply rtc_l; [exact Hstep0|].
      eapply rtc_l; [apply set_last_node_search_step|].
      eapply rtc_l; [apply set_last_distance_search_step|].
      eapply rtc_l; [apply set_last_node_search_step|].
      apply rtc_once. apply set_last_distance_search_step.
    - simpl in H.
      destruct (CalculateBound queryNode r) as [[r2 b]|] eqn:Hcalc;
        simpl in H; [|done].
      injection H as <- _. exists r, b. split; [apply rtc_refl|done]. }
  eapply rtc_r; [exact Hsteps|]. by eapply step_bound.
Qed.

Lemma Rescore_nodes_search_steps (queryNode referenceNode : nat)
    (oldScore : double) r r' (v : double) :
  Rescore_nodes queryNode referenceNode oldScore r = Ok (r', v) →
  search_steps r r'.
Proof.
  unfold Rescore_nodes. destruct (d_eqb oldScore DBL_MAX).
  { intros [= <- _]. apply rtc_refl. }
  destruct (CalculateBound queryNode r) as [[r2 b]|] eqn:Hcalc; simpl; [|done].
  intros [= <- _]. apply rtc_once. by eapply step_bound.
Qed.

End CandidateLists.

(** ** The nearest-neighbour policy meets what was asked of the policy *)

Section NearestNeighborFacts.
#[local] Existing Instance Z_double.
#[local] Existing Instance Line.metric.
#[local] Existing Instance Line.NearestNeighborSort.

Lemma nn_better_eq (a b : Z) : better_eq a b ↔ (a ≤ b)%Z.
Proof.
  unfold better_eq. simpl.
  destruct (Z.ltb_spec a b), (Z.ltb_spec b a); split; intros; try lia;
    naive_solver.
Qed.

Lemma nn_beats (a b : Z) : beats a b ↔ (a < b)%Z.
Proof.
  unfold beats. simpl.
  destruct (Z.ltb_spec a b), (Z.ltb_spec b a); split; intros; try lia;
    naive_solver.
Qed.

Lemma nn_best (a b : Z) : best a b = Z.min a b.
Proof. unfold best. simpl. destruct (Z.ltb_spec a b); lia. Qed.

Lemma nn_better_eq_trans (a b c : Z) :
  better_eq a b → better_eq b c → better_eq a c.
Proof. rewrite !nn_better_eq. lia. Qed.

Lemma nn_CombineWorst_mono (a b c : Z) :
  better_eq a b → better_eq b WorstDistance →
  better_eq (best (CombineWorst a c) WorstDistance)
            (best (CombineWorst b c) WorstDistance).
Proof.
  rewrite !nn_better_eq, !nn_best. simpl.
  destruct (Z.eqb_spec a Z_DBL_MAX), (Z.eqb_spec b Z_DBL_MAX); lia.
Qed.

Lemma first_beaten_found (l : list Z) (d : Z) (i : N) :
  Line.first_beaten l d i ≠ size_max →
  ∃ j b, Line.first_beaten l d i = (i + N.of_nat j)%N
         ∧ l !! j = Some b ∧ (d < b)%Z
         ∧ ∀ j' a, j' < j → l !! j' = Some a → (a ≤ d)%Z.
Proof.
  revert i. induction l as [|x l IH]; intros i H; simpl in *; [done|].
  destruct (Z.ltb_spec d x) as [Hlt|Hge].
  - exists 0, x. split_and!; [lia|done|done|lia].
  - destruct (IH _ H) as (j & b & Hj & Hb & Hd & Hbefore).
    exists (S j), b. split_and!; [lia|done|done|].
    intros [|j'] a Hj' Ha; simpl in Ha; [by simplify_eq|].
    apply (Hbefore j'); [lia|done].
Qed.

Abbreviation nn_SortDistance :=
  (@SortDistance Z_double Z Line.interval Line.NearestNeighborSort).

Lemma nn_SortDistance_eq (col : list Z) (d : Z) :
  nn_SortDistance col d
  = match last col with
    | Some w => if (d <? w)%Z then Line.first_beaten col d 0 else size_max
    | None => size_max
    end.
Proof. reflexivity. Qed.

Lemma nn_SortDistance_sorted (col : list Z) (d : Z) :
  sorted_col col → nn_SortDistance col d ≠ size_max →
  (∀ i a, i < N.to_nat (nn_SortDistance col d) → col !! i = Some a →
          better_eq a d)
  ∧ (∀ b, col !! N.to_nat (nn_SortDistance col d) = Some b → better_eq d b).
Proof.
  intros _. rewrite nn_SortDistance_eq.
  destruct (last col) as [w|]; [|done].
  destruct (d <? w)%Z; [|done]. intros H.
  destruct (first_beaten_found _ _ _ H) as (j & b & -> & Hb & Hd & Hbefore).
  replace (N.to_nat (0 + N.of_nat j)) with j by lia.
  split.
  - intros i a Hi Ha. apply nn_better_eq. by eapply Hbefore.
  - intros b' Hb'. rewrite Hb in Hb'. injection Hb' as <-.
    apply nn_better_eq. lia.
Qed.

Lemma nn_SortDistance_beats (col : list Z) (d w : Z) :
  nn_SortDistance col d ≠ size_max → last col = Some w → beats d w.
Proof.
  rewrite nn_SortDistance_eq. intros H Hw. rewrite Hw in H.
  apply nn_beats. by destruct (Z.ltb_spec d w).
Qed.

Lemma nn_SortDistance_row (col : list Z) (d : Z) :
  nn_SortDistance col d = size_max
  ∨ (nn_SortDistance col d < N.of_nat (length col))%N.
Proof.
  destruct (decide (nn_SortDistance col d = size_max)) as [|H]; [by left|].
  right. rewrite nn_SortDistance_eq in *.
  destruct (last col) as [w|]; [|done].
  destruct (d <? w)%Z; [|done].
  destruct (first_beaten_found _ _ _ H) as (j & b & -> & Hb & _).
  apply lookup_lt_Some in Hb. lia.
Qed.

End NearestNeighborFacts.

(** ** The claims at concrete inputs *)

Section Witnesses.
#[local] Existing Instance Z_double.
#[local] Existing Instance Line.metric.
#[local] Existing Instance Line.NearestNeighborSort.
#[local] Existing Instance Line.cover_tree.

Abbreviation dbl := (@double Z_double).

Lemma three_slots_wf : rules_wf Line.three_slots.
Proof. split; [repeat constructor..|reflexivity|by vm_compute]. Qed.

Lemma three_slots_sorted : all_sorted Line.three_slots.
Proof.
  repeat first [apply (better_eq_refl (DO := Z_double)) | constructor].
Qed.


(** The self-match in a search of a set against itself. *)
Lemma BaseCase_self_match_witness :
  sameSet Line.self_search = true
  ∧ BaseCase 1 1 Line.self_search = Ok (Line.self_search, 0%Z : dbl).
Proof.
  split; [reflexivity|].
  exact (proj1 (BaseCase_self_match Line.self_search 1 eq_refl)).
Defined.

(** The same pair twice. *)
Lemma BaseCase_memo_witness :
  BaseCase 0 1 Line.after_first = Ok (Line.after_first, 1%Z : dbl).
Proof.
  refine (proj1 (BaseCase_memo Line.three_slots 0 1 Line.after_first
                               (1%Z : dbl) _ _)).
  - intros [H _]. discriminate H.
  - vm_compute. reflexivity.
Defined.


(** Three base cases into three free slots. *)
Lemma candidate_lists_invariant_witness :
  ∃ l : list (dbl * N),
    candidates Line.after_three 0 = Some l
    ∧ l = [(0%Z, 0%N); (1%Z, 1%N); (4%Z, 2%N)]
    ∧ N.of_nat (length l) = 3%N ∧ sorted_col l.*1.
Proof.
  eexists. split; [vm_compute; reflexivity|]. split; [reflexivity|].
  refine (proj1 (candidate_lists_invariant
                   nn_better_eq_trans nn_SortDistance_sorted
                   nn_SortDistance_beats Line.three_slots
                   [(0, 2); (0, 0); (0, 1)]%N Line.after_three _ _ _)
                0%N _ _).
  - exact three_slots_wf.
  - exact three_slots_sorted.
  - vm_compute. reflexivity.
  - vm_compute. reflexivity.
Defined.

Lemma two_level_fresh : fresh_bounds Line.two_level.
Proof.
  intros [|[|id]] n H; simpl in H; [| |done]; by injection H as <-.
Qed.

(** The bound of a root, before and after the bound of its child. *)
Lemma CalculateBound_never_loosens_witness :
  ∃ n1 n2 : TreeNode Line.interval,
    nodes Line.root_bounded !! 0 = Some n1
    ∧ Bound (Stat n1) = Z_DBL_MAX
    ∧ nodes Line.root_rebounded !! 0 = Some n2
    ∧ Bound (Stat n2) = 7%Z
    ∧ better_eq (FirstBound (Stat n2)) (FirstBound (Stat n1))
    ∧ better_eq (SecondBound (Stat n2)) (SecondBound (Stat n1))
    ∧ better_eq (Bound (Stat n2)) (Bound (Stat n1)).
Proof.
  refine (CalculateBound_never_loosens
            nn_better_eq_trans nn_CombineWorst_mono 0
            Line.two_level Line.two_level Line.root_bounded
            Line.child_bounded Line.root_rebounded Z_DBL_MAX 7%Z _ _ _ _ _).
  - exact two_level_fresh.
  - apply rtc_refl.
  - vm_compute. reflexivity.
  - apply rtc_once. apply (step_bound 1 _ _ (3%Z : dbl)).
    vm_compute. reflexivity.
  - vm_compute. reflexivity.
Defined.

End Witnesses.

(** ** Pruning *)

Section CentroidBaseCase.
Context `{DO : DoubleOps} {point bound : Type}.
Context `{M : !MetricType point} `{SP : !SortPolicy point bound}.
Context `{TT : TreeTraits}.
Implicit Types r : NeighborSearchRules point bound.

(** The base case of the centroid branch is one the four look-ups found
    cached or one [BaseCase] returned. *)
Lemma centroid_base_case_inv (queryNode referenceNode : nat) r r1
    (base : double) :
  centroid_base_case queryNode referenceNode r = Ok (r1, base) →
  ∃ qn rn qp0 rp0,
    nodes r !! queryNode = Some qn ∧ nodes r !! referenceNode = Some rn
    ∧ Points qn !! 0 = Some qp0 ∧ Points rn !! 0 = Some rp0
    ∧ (cached_base_case qn rn qp0 rp0 r = Ok (Some base)
       ∨ ∃ r0, BaseCase qp0 rp0 r = Ok (r0, base)).
Proof.
  unfold centroid_base_case. intros H.
  destruct (node r queryNode) as [qn|] eqn:Hqn; simpl in H; [|done].
  destruct (node r referenceNode) as [rn|] eqn:Hrn; simpl in H; [|done].
  apply node_Ok in Hqn, Hrn. unfold Point in H.
  destruct (Points qn !! 0) as [qp0|] eqn:Hqp0; simpl in H; [|done].
  destruct (Points rn !! 0) as [rp0|] eqn:Hrp0; simpl in H; [|done].
  exists qn, rn, qp0, rp0. split_and!; try done.
  destruct (if HasSelfChildren then cached_base_case qn rn qp0 rp0 r
            else Ok None) as [[b|]|] eqn:Hc; simpl in H; [| |done].
  - injection H as _ <-. left.
    destruct HasSelfChildren; [done|by simplify_eq].
  - destruct (BaseCase qp0 rp0 r) as [[r0 b]|] eqn:Hbc; simpl in H; [|done].
    injection H as _ <-. right. by exists r0.
Qed.

End CentroidBaseCase.

Section PruningSoundness.
Context {point bound : Type}.
Context (M : @MetricType Z_double point).
Context (SP : @SortPolicy Z_double point bound).
Context (TT : TreeTraits).
Implicit Types r : @NeighborSearchRules Z_double point bound.

(** The metric is symmetric, not negative and obeys the triangle
    inequality. *)
Hypothesis metric_nonneg : ∀ x y, (0 ≤ dist M x y)%Z.
Hypothesis metric_sym : ∀ x y, dist M x y = dist M y x.
Hypothesis metric_triangle :
  ∀ x y z, (dist M x z ≤ dist M x y + dist M y z)%Z.

(** The policy looks for small distances: a smaller value is better, and
    [CombineBest a r] is no more than any distance that is at least
    [a - r]. *)
Hypothesis IsBetter_lt :
  ∀ a b : Z, (a < b)%Z → @IsBetter Z_double point bound SP a b = true.
Hypothesis CombineBest_lower :
  ∀ a r x : Z, (0 ≤ x)%Z → (a - r ≤ x)%Z →
    (@CombineBest Z_double point bound SP a r ≤ x)%Z.

Lemma not_beats_of_le (w d : Z) :
  (w ≤ d)%Z → ¬ @beats Z_double point bound SP d w.
Proof.
  intros Hle [H1 H2].
  destruct (decide (w = d)) as [->|Hne]; [congruence|].
  rewrite IsBetter_lt in H2 by lia. done.
Qed.

Lemma pruned_threshold (distance threshold d : Z) :
  (distance ≤ d)%Z → (d < Z_DBL_MAX)%Z →
  (if @IsBetter Z_double point bound SP distance threshold
   then distance else Z_DBL_MAX) = Z_DBL_MAX →
  (threshold ≤ d)%Z.
Proof.
  intros Hd Hfin H.
  destruct (IsBetter _ _) eqn:Hb; [lia|].
  destruct (decide (distance < threshold)%Z) as [Hlt|]; [|lia].
  rewrite IsBetter_lt in Hb by done. done.
Qed.

Lemma BaseCase_lower r (q rf : N) r' (d : Z) (qp rp : point) :
  memo_sound M r →
  @BaseCase Z_double point bound M SP q rf r = Ok (r', d) →
  querySet r !! N.to_nat q = Some qp →
  referenceSet r !! N.to_nat rf = Some rp →
  (d ≤ dist M qp rp)%Z.
Proof.
  intros Hmemo H Hqp Hrp.
  destruct (BaseCase_inv _ _ _ _ _ H)
    as [(_ & _ & ->)|[(_ & Hq & Hrf & _ & ->)|
        (_ & _ & qp' & rp' & _ & _ & Hqp' & Hrp' & -> & _)]].
  - apply metric_nonneg.
  - apply Hmemo; by rewrite ?Hq, ?Hrf.
  - rewrite Hqp in Hqp'. rewrite Hrp in Hrp'. simplify_eq. unfold dist. lia.
Qed.


End PruningSoundness.

(** ** Pruning at a concrete tree *)

Section PruningExample.
#[local] Existing Instance Z_double.
#[local] Existing Instance Line.metric.
#[local] Existing Instance Line.NearestNeighborSort.
#[local] Existing Instance Line.cover_tree.

Lemma prune_state_nodes : nodes Line.prune_state = nodes Line.prune_start.
Proof. by vm_compute. Qed.

Lemma prune_state_sets :
  querySet Line.prune_state = [0; 1]%Z
  ∧ referenceSet Line.prune_state = [0; 4]%Z.
Proof. by vm_compute. Qed.

Lemma prune_state_query_subtree (p : N) :
  in_subtree Line.prune_state 0 p → p = 0%N ∨ p = 1%N.
Proof.
  intros H. inversion H as [id n p' Hn Hp|id n c p' Hn Hc Hsub]; subst;
    rewrite prune_state_nodes in Hn; simpl in Hn; injection Hn as <-;
    simpl in *.
  - apply list_elem_of_singleton in Hp. by left.
  - apply list_elem_of_singleton in Hc. subst c.
    inversion Hsub as [id n p' Hn Hp|id n c p' Hn Hc _]; subst;
      rewrite prune_state_nodes in Hn; simpl in Hn; injection Hn as <-;
      simpl in *.
    + apply list_elem_of_singleton in Hp. by right.
    + by apply elem_of_nil in Hc.
Qed.

Lemma prune_state_reference_subtree (p : N) :
  in_subtree Line.prune_state 2 p → p = 1%N.
Proof.
  intros H. inversion H as [id n p' Hn Hp|id n c p' Hn Hc _]; subst;
    rewrite prune_state_nodes in Hn; simpl in Hn; injection Hn as <-;
    simpl in *.
  - by apply list_elem_of_singleton in Hp.
  - by apply elem_of_nil in Hc.
Qed.

Lemma prune_state_query_radius :
  radius_bound Line.metric (querySet Line.prune_state) Line.prune_state 0.
Proof.
  intros n Hn. rewrite prune_state_nodes in Hn. simpl in Hn.
  injection Hn as <-. exists 0%N, 0%Z.
  destruct prune_state_sets as [-> _]. split_and!; [done|done|].
  intros p pp [->| ->]%prune_state_query_subtree [= <-]; by vm_compute.
Qed.

Lemma prune_state_reference_radius :
  radius_bound Line.metric (referenceSet Line.prune_state) Line.prune_state 2.
Proof.
  intros n Hn. rewrite prune_state_nodes in Hn. simpl in Hn.
  injection Hn as <-. exists 1%N, 4%Z.
  destruct prune_state_sets as [_ ->]. split_and!; [done|done|].
  intros p pp ->%prune_state_reference_subtree [= <-]. by vm_compute.
Qed.

Lemma prune_state_query_point : in_subtree Line.prune_state 0 1.
Proof.
  eapply (in_subtree_child _ 0 _ 1);
    [by rewrite prune_state_nodes|by apply list_elem_of_singleton|].
  eapply in_subtree_point;
    [by rewrite prune_state_nodes|by apply list_elem_of_singleton].
Qed.

Lemma prune_state_reference_point : in_subtree Line.prune_state 2 1.
Proof.
  eapply in_subtree_point;
    [by rewrite prune_state_nodes|by apply list_elem_of_singleton].
Qed.


Lemma line_metric_nonneg (x y : Z) : (0 ≤ dist Line.metric x y)%Z.
Proof. unfold dist. simpl. lia. Qed.

Lemma line_metric_sym (x y : Z) : dist Line.metric x y = dist Line.metric y x.
Proof. unfold dist. simpl. lia. Qed.

Lemma line_metric_triangle (x y z : Z) :
  (dist Line.metric x z ≤ dist Line.metric x y + dist Line.metric y z)%Z.
Proof. unfold dist. simpl. lia. Qed.

Lemma nn_IsBetter_lt (a b : Z) :
  (a < b)%Z
  → @IsBetter Z_double Z Line.interval Line.NearestNeighborSort a b = true.
Proof. intros H. simpl. by apply Z.ltb_lt. Qed.

Lemma nn_CombineBest_lower (a r x : Z) :
  (0 ≤ x)%Z → (a - r ≤ x)%Z →
  (@CombineBest Z_double Z Line.interval Line.NearestNeighborSort a r ≤ x)%Z.
Proof. simpl. lia. Qed.

Lemma prune_state_finite : finite_distances Line.metric Line.prune_state.
Proof.
  intros q p qp rp Hq Hp. destruct prune_state_sets as [Hqs Hrs].
  rewrite Hqs in Hq. rewrite Hrs in Hp.
  destruct q as [|[|q]], p as [|[|p]]; simpl in Hq, Hp; simplify_eq;
    by vm_compute.
Qed.

Lemma prune_state_memo : memo_sound Line.metric Line.prune_state.
Proof.
  intros qp rp Hq Hr. vm_compute in Hq, Hr. simplify_eq. by vm_compute.
Qed.

Lemma prune_state_cache : node_cache_sound Line.metric Line.prune_state 0 2.
Proof.
  intros qn rn qp0 rp0 qp rp b Hqn Hrn Hqp0 Hrp0 _ _ Hc.
  rewrite prune_state_nodes in Hqn, Hrn. simpl in Hqn, Hrn.
  injection Hqn as <-. injection Hrn as <-.
  simpl in Hqp0, Hrp0. injection Hqp0 as <-. injection Hrp0 as <-.
  vm_compute in Hc. discriminate Hc.
Qed.


End PruningExample.

(** * Further properties of the rules *)

(** ** What a call leaves alone *)

Section Frames.
Context `{DO : DoubleOps} {point bound : Type}.
Context `{M : !MetricType point} `{SP : !SortPolicy point bound}.
Context `{TT : TreeTraits}.
Implicit Types r : NeighborSearchRules point bound.
Implicit Types n : TreeNode bound.

Lemma same_shape_refl n : same_shape n n.
Proof. by unfold same_shape. Qed.

Lemma same_shape_trans n1 n2 n3 :
  same_shape n1 n2 → same_shape n2 n3 → same_shape n1 n3.
Proof.
  unfold same_shape. intros (?&?&?&?&?) (?&?&?&?&?).
  split_and!; congruence.
Qed.

Lemma node_kept_refl n : node_kept n n.
Proof. split; [apply same_shape_refl|done]. Qed.

Lemma node_kept_trans n1 n2 n3 :
  node_kept n1 n2 → node_kept n2 n3 → node_kept n1 n3.
Proof.
  intros [H12 K12] [H23 K23]. split; [by eapply same_shape_trans|auto].
Qed.

Lemma Forall2_node_kept_refl (ns : list (TreeNode bound)) :
  Forall2 node_kept ns ns.
Proof. induction ns; constructor; [apply node_kept_refl|done]. Qed.

Lemma Forall2_node_kept_trans (l1 l2 l3 : list (TreeNode bound)) :
  Forall2 node_kept l1 l2 → Forall2 node_kept l2 l3 →
  Forall2 node_kept l1 l3.
Proof.
  intros H12. revert l3. induction H12 as [|a b l1 l2 Hab _ IH];
    intros l3 H23; inversion H23; subst; constructor.
  - by eapply node_kept_trans.
  - by apply IH.
Qed.

Lemma keeps_last_node_set_bounds (b1 b2 b : double) :
  keeps_last_node (set_bounds b1 b2 b).
Proof. by intros s. Qed.

Lemma keeps_last_node_set_last_distance (d : double) :
  keeps_last_node (set_last_distance d).
Proof. by intros s. Qed.

Lemma keeps_last_node_set_last_node (id : nat) :
  keeps_last_node (set_last_node id).
Proof. intros s _. by eexists. Qed.

Lemma Forall2_node_kept_alter (f : NeighborSearchStat → NeighborSearchStat)
    (id : nat) (ns : list (TreeNode bound)) :
  keeps_last_node f →
  Forall2 node_kept ns (alter (λ n, set_stat (f (Stat n)) n) id ns).
Proof.
  intros Hf. revert id. induction ns as [|a ns IH]; intros [|id]; simpl;
    constructor; try apply Forall2_node_kept_refl; try apply IH;
    try apply node_kept_refl.
  split; [by unfold same_shape|apply Hf].
Qed.

Lemma stats_only_refl r : stats_only r r.
Proof.
  unfold stats_only. split_and!; try done. apply Forall2_node_kept_refl.
Qed.

Lemma stats_only_trans r1 r2 r3 :
  stats_only r1 r2 → stats_only r2 r3 → stats_only r1 r3.
Proof.
  unfold stats_only. intros (?&?&?&?&?&?&H12) (?&?&?&?&?&?&H23).
  split_and!; try congruence. by eapply Forall2_node_kept_trans.
Qed.

Lemma stats_only_update_stat r (id : nat)
    (f : NeighborSearchStat → NeighborSearchStat) :
  keeps_last_node f → stats_only r (update_stat id f r).
Proof.
  intros Hf. unfold stats_only, update_stat. simpl. split_and!; try done.
  by apply Forall2_node_kept_alter.
Qed.

Lemma stats_only_set_memo r (q rf : N) (d : double) :
  stats_only r (set_memo q rf d r).
Proof.
  unfold stats_only. simpl. split_and!; try done.
  apply Forall2_node_kept_refl.
Qed.

(** What [update_stat] leaves of the arena. *)
Lemma update_stat_lookup r (id : nat)
    (f : NeighborSearchStat → NeighborSearchStat) n :
  nodes r !! id = Some n →
  nodes (update_stat id f r) !! id = Some (set_stat (f (Stat n)) n).
Proof.
  intros Hn. unfold update_stat. simpl.
  by rewrite list_lookup_alter_eq, Hn.
Qed.

Lemma update_stat_lookup_ne r (id id' : nat)
    (f : NeighborSearchStat → NeighborSearchStat) :
  id ≠ id' → nodes (update_stat id f r) !! id' = nodes r !! id'.
Proof.
  intros Hne. unfold update_stat. simpl. by rewrite list_lookup_alter_ne.
Qed.

Lemma CalculateBound_stats_only (queryNode : nat) r r' (b : double) :
  CalculateBound queryNode r = Ok (r', b) →
  stats_only r r'
  ∧ (lastQueryIndex r', lastReferenceIndex r', lastBaseCase r')
    = (lastQueryIndex r, lastReferenceIndex r, lastBaseCase r).
Proof.
  unfold CalculateBound. intros H.
  destruct (bound_values queryNode r) as [[[b1 b2] b']|e]; simpl in H;
    [|done].
  injection H as <- <-.
  split; [|done].
  apply stats_only_update_stat, keeps_last_node_set_bounds.
Qed.

End Frames.

Section CallFrames.
Context `{DO : DoubleOps} {point bound : Type}.
Context `{M : !MetricType point} `{SP : !SortPolicy point bound}.
Context `{TT : TreeTraits}.
Implicit Types r : NeighborSearchRules point bound.
Implicit Types n : TreeNode bound.

Lemma mat_store_shape {A} (m m' : Mat A) (row c : N) (v : A) :
  mat_store m row c v = Ok m' →
  n_rows m' = n_rows m ∧ length (columns m') = length (columns m).
Proof.
  unfold mat_store. destruct (row <? n_rows m)%N; [|done].
  destruct (unsafe_col m c) as [col|]; simpl; [|done].
  destruct (row <? N.of_nat (length col))%N; [|done].
  intros [= <-]. simpl. by rewrite length_insert.
Qed.

Lemma shift_column_shape {A} (elt : N) (m m' : Mat A) (c pos : N) (len : Z) :
  shift_column elt m c pos len = Ok m' →
  n_rows m' = n_rows m ∧ length (columns m') = length (columns m).
Proof.
  unfold shift_column. destruct (unsafe_col m c) as [col|]; simpl; [|done].
  destruct (memmove col _ _ _) as [col'|]; simpl; [|done].
  intros [= <-]. simpl. by rewrite length_insert.
Qed.

(** The dimensions of a matrix. *)
Lemma InsertNeighbor_shape r (q pos nb : N) (d : double) r' :
  InsertNeighbor q pos nb d r = Ok r' →
  n_rows (distances r') = n_rows (distances r)
  ∧ n_cols (distances r') = n_cols (distances r)
  ∧ n_rows (neighbors r') = n_rows (neighbors r)
  ∧ n_cols (neighbors r') = n_cols (neighbors r).
Proof.
  unfold InsertNeighbor, n_cols. intros H.
  destruct (if (pos <? _)%N then _ else _) as [[ds nbm]|] eqn:Hshift;
    simpl in H; [|done].
  destruct (mat_store ds pos q d) as [ds'|] eqn:Hds; simpl in H; [|done].
  destruct (mat_store nbm pos q nb) as [nb'|] eqn:Hnb; simpl in H; [|done].
  injection H as <-. simpl.
  apply mat_store_shape in Hds as [-> ->], Hnb as [-> ->].
  destruct (pos <? _)%N.
  - destruct (shift_column sizeof_double _ _ _ _) as [ds0|] eqn:H1;
      simpl in Hshift; [|done].
    destruct (shift_column sizeof_size_t _ _ _ _) as [nb0|] eqn:H2;
      simpl in Hshift; [|done].
    injection Hshift as <- <-.
    apply shift_column_shape in H1 as [-> ->], H2 as [-> ->]. done.
  - by injection Hshift as <- <-.
Qed.

(** What a base case leaves alone, and how often it calls the metric. *)
Lemma BaseCase_frame r (q rf : N) r' (d : double) :
  BaseCase q rf r = Ok (r', d) →
  referenceSet r' = referenceSet r ∧ querySet r' = querySet r
  ∧ sameSet r' = sameSet r ∧ nodes r' = nodes r
  ∧ n_rows (distances r') = n_rows (distances r)
  ∧ n_cols (distances r') = n_cols (distances r)
  ∧ n_rows (neighbors r') = n_rows (neighbors r)
  ∧ n_cols (neighbors r') = n_cols (neighbors r)
  ∧ (r' = r ∨ metricCalls r' = S (metricCalls r)).
Proof.
  intros H. apply BaseCase_inv in H
    as [(_ & -> & _)|[(_ & _ & _ & -> & _)|(_ & _ & H)]];
    [split_and!; auto..|].
  destruct H as (qp & rp & col & r1 & _ & _ & _ & _ & Hins & ->).
  destruct Hins as [[_ ->]|[_ Hins]]; simpl; [split_and!; auto|].
  destruct (InsertNeighbor_frame _ _ _ _ _ _ Hins) as (nbm & dsm & Hr1).
  apply InsertNeighbor_shape in Hins as (H1 & H2 & H3 & H4).
  simpl in *. rewrite H1, H2, H3, H4. subst r1. simpl. split_and!; auto.
Qed.

Lemma one_base_case_refl r : one_base_case r r.
Proof. exists r. split; [by left|apply stats_only_refl]. Qed.

Lemma one_base_case_stats r r' : stats_only r r' → one_base_case r r'.
Proof. intros H. exists r. split; [by left|done]. Qed.

Lemma one_base_case_BaseCase r (q rf : N) r0 (d : double) r' :
  BaseCase q rf r = Ok (r0, d) → stats_only r0 r' → one_base_case r r'.
Proof. intros H Hs. exists r0. split; [right; by exists q, rf, d|done]. Qed.

Lemma Score_point_one_base_case (q : N) (id : nat) (junk : double) r r'
    (s : double) :
  Score_point q id junk r = Ok (r', s) → one_base_case r r'.
Proof.
  unfold Score_point. intros H.
  destruct (node r id) as [rn|] eqn:Hrn; simpl in H; [|done].
  destruct FirstPointIsCentroid.
  2:{ destruct (or_fault OutOfBounds (querySet r !! N.to_nat q));
        simpl in H; [|done].
      destruct (kth_distance r q); simpl in H; [|done].
      injection H as <- _. apply one_base_case_refl. }
  destruct HasSelfChildren.
  2:{ simpl in H. destruct (kth_distance r q); simpl in H; [|done].
      injection H as <- _. apply one_base_case_refl. }
  destruct (Point rn 0) as [p0|]; simpl in H; [|done].
  assert (Hfin : ∀ r1 (base : double),
    (kth_distance (update_stat id (set_last_distance base) r1) q ≫=
       λ bestDistance,
         Ok (update_stat id (set_last_distance base) r1,
             if IsBetter (CombineBest base (FurthestDescendantDistance rn))
                         bestDistance
             then CombineBest base (FurthestDescendantDistance rn)
             else DBL_MAX)) = Ok (r', s) →
    r' = update_stat id (set_last_distance base) r1).
  { intros r1 base Hk. destruct (kth_distance _ q); simpl in Hk; [|done].
    by injection Hk as <- _. }
  destruct (Parent rn) as [par|].
  - destruct (node r par) as [pn|]; simpl in H; [|done].
    destruct (Point pn 0) as [pp0|]; simpl in H; [|done].
    destruct (p0 =? pp0)%N; simpl in H.
    + apply Hfin in H as ->. apply one_base_case_stats.
      apply stats_only_update_stat, keeps_last_node_set_last_distance.
    + destruct (BaseCase q p0 r) as [[r1 base]|] eqn:Hb; simpl in H;
        [|done].
      apply Hfin in H as ->. eapply one_base_case_BaseCase; [done|].
      apply stats_only_update_stat, keeps_last_node_set_last_distance.
  - destruct (BaseCase q p0 r) as [[r1 base]|] eqn:Hb; simpl in H; [|done].
    apply Hfin in H as ->. eapply one_base_case_BaseCase; [done|].
    apply stats_only_update_stat, keeps_last_node_set_last_distance.
Qed.

Lemma centroid_base_case_one_base_case (queryNode referenceNode : nat) r r1
    (base : double) :
  centroid_base_case queryNode referenceNode r = Ok (r1, base) →
  one_base_case r r1.
Proof.
  unfold centroid_base_case. intros H.
  destruct (node r queryNode) as [qn|]; simpl in H; [|done].
  destruct (node r referenceNode) as [rn|]; simpl in H; [|done].
  destruct (Point qn 0) as [qp0|]; simpl in H; [|done].
  destruct (Point rn 0) as [rp0|]; simpl in H; [|done].
  destruct (if HasSelfChildren then _ else _) as [cached|]; simpl in H;
    [|done].
  assert (Hupd : ∀ r0 (b : double),
    stats_only r0
      (update_stat referenceNode (set_last_distance b)
         (update_stat referenceNode (set_last_node queryNode)
            (update_stat queryNode (set_last_distance b)
               (update_stat queryNode (set_last_node referenceNode) r0))))).
  { intros r0 b. repeat (eapply stats_only_trans;
      [|apply stats_only_update_stat;
        first [apply keeps_last_node_set_last_distance
              |apply keeps_last_node_set_last_node]]).
    apply stats_only_refl. }
  destruct cached as [b|]; simpl in H.
  - injection H as <- <-. apply one_base_case_stats.
    eapply stats_only_trans; [apply stats_only_set_memo|apply Hupd].
  - destruct (BaseCase qp0 rp0 r) as [[r0 b]|] eqn:Hb; simpl in H; [|done].
    injection H as <- <-. eapply one_base_case_BaseCase; [done|apply Hupd].
Qed.

Lemma one_base_case_then_stats r r1 r2 :
  one_base_case r r1 → stats_only r1 r2 → one_base_case r r2.
Proof.
  intros (r0 & H0 & Hs) H12. exists r0. split; [done|].
  by eapply stats_only_trans.
Qed.

Lemma Score_nodes_one_base_case (queryNode referenceNode : nat) r r'
    (s : double) :
  Score_nodes queryNode referenceNode r = Ok (r', s) → one_base_case r r'.
Proof.
  unfold Score_nodes. intros H.
  destruct (node r queryNode) as [qn|]; simpl in H; [|done].
  destruct (node r referenceNode) as [rn|]; simpl in H; [|done].
  destruct FirstPointIsCentroid; simpl in H.
  - destruct (centroid_base_case queryNode referenceNode r)
      as [[r1 base]|] eqn:Hc; simpl in H; [|done].
    destruct (CalculateBound queryNode r1) as [[r2 b]|] eqn:Hb; simpl in H;
      [|done].
    injection H as <- _.
    apply centroid_base_case_one_base_case in Hc.
    apply CalculateBound_stats_only in Hb as [Hb _].
    by eapply one_base_case_then_stats.
  - destruct (CalculateBound queryNode r) as [[r2 b]|] eqn:Hb; simpl in H;
      [|done].
    injection H as <- _. apply one_base_case_stats.
    by apply CalculateBound_stats_only in Hb as [Hb _].
Qed.

Lemma Rescore_nodes_stats_only (queryNode referenceNode : nat)
    (oldScore : double) r r' (s : double) :
  Rescore_nodes queryNode referenceNode oldScore r = Ok (r', s) →
  stats_only r r'.
Proof.
  unfold Rescore_nodes. destruct (d_eqb oldScore DBL_MAX).
  - intros [= <- _]. apply stats_only_refl.
  - intros H.
    destruct (CalculateBound queryNode r) as [[r2 b]|] eqn:Hb; simpl in H;
      [|done].
    injection H as <- _. by apply CalculateBound_stats_only in Hb as [Hb _].
Qed.

(** A call of the rules runs at most one base case; all it writes besides
    are statistics of nodes and the memo. *)
Lemma rules_call_one_base_case r r' : rules_call r r' → one_base_case r r'.
Proof.
  destruct 1 as [q rf r r' d H|q id junk r r' s H|qn rn r r' s H
                 |qn rn old r r' s H|qn r r' b H].
  - eapply one_base_case_BaseCase; [done|apply stats_only_refl].
  - by eapply Score_point_one_base_case.
  - by eapply Score_nodes_one_base_case.
  - apply one_base_case_stats. by eapply Rescore_nodes_stats_only.
  - apply one_base_case_stats.
    by apply CalculateBound_stats_only in H as [H _].
Qed.

End CallFrames.

(** ** What no sequence of calls changes *)

Section CallInvariants.
Context `{DO : DoubleOps} {point bound : Type}.
Context `{M : !MetricType point} `{SP : !SortPolicy point bound}.
Context `{TT : TreeTraits}.
Implicit Types r : NeighborSearchRules point bound.
Implicit Types n : TreeNode bound.

Lemma rules_call_structure r r' :
  rules_call r r' →
  referenceSet r' = referenceSet r ∧ querySet r' = querySet r
  ∧ sameSet r' = sameSet r
  ∧ n_rows (distances r') = n_rows (distances r)
  ∧ n_cols (distances r') = n_cols (distances r)
  ∧ n_rows (neighbors r') = n_rows (neighbors r)
  ∧ n_cols (neighbors r') = n_cols (neighbors r)
  ∧ Forall2 node_kept (nodes r) (nodes r').
Proof.
  intros H. apply rules_call_one_base_case in H
    as (r0 & [->|(q & rf & d & Hb)] & (H1 & H2 & H3 & H4 & H5 & _ & H6)).
  - rewrite H1, H2, H3, H4, H5. by split_and!.
  - apply BaseCase_frame in Hb
      as (B1 & B2 & B3 & B4 & B5 & B6 & B7 & B8 & _).
    rewrite H1, H2, H3, H4, H5, <- B4. by split_and!.
Qed.

Lemma rules_calls_structure r r' :
  rules_calls r r' →
  referenceSet r' = referenceSet r ∧ querySet r' = querySet r
  ∧ sameSet r' = sameSet r
  ∧ n_rows (distances r') = n_rows (distances r)
  ∧ n_cols (distances r') = n_cols (distances r)
  ∧ n_rows (neighbors r') = n_rows (neighbors r)
  ∧ n_cols (neighbors r') = n_cols (neighbors r)
  ∧ Forall2 node_kept (nodes r) (nodes r').
Proof.
  induction 1 as [r|r r1 r2 Hstep _ IH].
  - split_and!; try done. apply Forall2_node_kept_refl.
  - apply rules_call_structure in Hstep
      as (S1 & S2 & S3 & S4 & S5 & S6 & S7 & S8).
    destruct IH as (I1 & I2 & I3 & I4 & I5 & I6 & I7 & I8).
    split_and!; try congruence. by eapply Forall2_node_kept_trans.
Qed.

(** X1.  No sequence of calls of the rules changes the two data sets, the
    answer to "are they the same matrix", the dimensions of the two
    candidate matrices, or the trees: every node keeps its parent, its
    points, its children, its furthest descendant distance and its bounding
    volume, and the arena keeps its size.  Of a tree only statistics are
    written. *)
Theorem rules_calls_keep_structure r r' :
  rules_calls r r' →
  referenceSet r' = referenceSet r ∧ querySet r' = querySet r
  ∧ sameSet r' = sameSet r
  ∧ n_rows (distances r') = n_rows (distances r)
  ∧ n_cols (distances r') = n_cols (distances r)
  ∧ n_rows (neighbors r') = n_rows (neighbors r)
  ∧ n_cols (neighbors r') = n_cols (neighbors r)
  ∧ length (nodes r') = length (nodes r)
  ∧ ∀ id n, nodes r !! id = Some n →
      ∃ n', nodes r' !! id = Some n' ∧ same_shape n n'.
Proof.
  intros H. apply rules_calls_structure in H
    as (H1 & H2 & H3 & H4 & H5 & H6 & H7 & H8).
  split_and!; try done.
  - symmetry. by eapply Forall2_length.
  - intros id n Hn.
    destruct (Forall2_lookup_l _ _ _ _ _ H8 Hn) as (n' & Hn' & [Hs _]).
    by exists n'.
Qed.

Lemma stats_only_wf r r' : stats_only r r' → rules_wf r → rules_wf r'.
Proof.
  intros (_ & _ & _ & Hn & Hd & _) [w1 w2 w3 w4 w5 w6].
  split; rewrite ?Hn, ?Hd; done.
Qed.

Lemma stats_only_no_self r r' : stats_only r r' → no_self r → no_self r'.
Proof. intros (_ & _ & _ & Hn & _) H. unfold no_self. by rewrite Hn. Qed.

Lemma rules_call_wf r r' : rules_call r r' → rules_wf r → rules_wf r'.
Proof.
  intros H Hwf. apply rules_call_one_base_case in H
    as (r0 & [->|(q & rf & d & Hb)] & Hs).
  - by eapply stats_only_wf.
  - eapply stats_only_wf; [done|]. by eapply rules_wf_BaseCase.
Qed.

Lemma rules_call_no_self r r' :
  rules_call r r' → sameSet r = true → rules_wf r → no_self r →
  no_self r'.
Proof.
  intros H Hsame Hwf Hno. apply rules_call_one_base_case in H
    as (r0 & [->|(q & rf & d & Hb)] & Hs).
  - by eapply stats_only_no_self.
  - eapply stats_only_no_self; [done|]. by eapply no_self_BaseCase.
Qed.

(** X2.  Whatever the traversal calls, in whatever order: well-formed
    candidate matrices stay well-formed (k rows in both and as many columns
    in the one as in the other, every column k long), and when the two sets
    are the same matrix no query point ever becomes a candidate of
    itself. *)
Theorem rules_calls_keep_wf r r' :
  rules_wf r → rules_calls r r' →
  rules_wf r' ∧ (sameSet r = true → no_self r → no_self r').
Proof.
  intros Hwf H. induction H as [r|r r1 r2 Hstep _ IH]; [done|].
  pose proof (rules_call_wf _ _ Hstep Hwf) as Hwf1.
  destruct (IH Hwf1) as [Hwf2 Hno]. split; [done|].
  intros Hsame Hself. apply Hno.
  - apply rules_call_structure in Hstep as (_ & _ & -> & _). done.
  - by eapply rules_call_no_self.
Qed.

(** X3.  A call of the rules evaluates the metric at most once, and a call
    that does not evaluate it leaves both candidate matrices as they
    were. *)
Theorem rules_call_metric_calls r r' :
  rules_call r r' →
  (metricCalls r' = metricCalls r
   ∧ distances r' = distances r ∧ neighbors r' = neighbors r)
  ∨ metricCalls r' = S (metricCalls r).
Proof.
  intros H. apply rules_call_one_base_case in H
    as (r0 & [->|(q & rf & d & Hb)] & (_ & _ & _ & H4 & H5 & H6 & _)).
  - by left.
  - apply BaseCase_frame in Hb as (_ & _ & _ & _ & _ & _ & _ & _ & [->|Hc]).
    + by left.
    + right. congruence.
Qed.

End CallInvariants.

Section CallsAndCandidates.
Context `{DO : DoubleOps} {point bound : Type}.
Context `{M : !MetricType point} `{SP : !SortPolicy point bound}.
Context `{TT : TreeTraits}.
Implicit Types r : NeighborSearchRules point bound.
Implicit Types n : TreeNode bound.

Lemma stats_only_candidates r r' (q : N) :
  stats_only r r' → candidates r' q = candidates r q.
Proof.
  intros (_ & _ & _ & Hn & Hd & _). unfold candidates. by rewrite Hn, Hd.
Qed.

Lemma stats_only_kth r r' (p : N) :
  stats_only r r' → kth_distance r' p = kth_distance r p.
Proof. intros (_ & _ & _ & _ & Hd & _). unfold kth_distance. by rewrite Hd. Qed.

Lemma genuine_sets r r' (q : N) (e : double * N) :
  querySet r' = querySet r → referenceSet r' = referenceSet r →
  genuine r q e → genuine r' q e.
Proof. intros Hq Hr. unfold genuine. by rewrite Hq, Hr. Qed.

(** A base case adds a genuine candidate, or none. *)
Lemma BaseCase_genuine r (q rf : N) r' (d : double) (p : N)
    (l' : list (double * N)) (e : double * N) :
  rules_wf r → BaseCase q rf r = Ok (r', d) →
  candidates r' p = Some l' → e ∈ l' →
  genuine r p e ∨ ∃ l, candidates r p = Some l ∧ e ∈ l.
Proof.
  intros Hwf Hb Hl' He.
  destruct (BaseCase_matrices _ _ _ _ _ Hwf Hb)
    as [[Hd Hn]|(dcol & ncol & Hdc & Hnc & Hpos & Hlt & Hlen & Hd & Hn)].
  { right. exists l'. split; [|done]. revert Hl'. unfold candidates.
    by rewrite Hd, Hn. }
  apply BaseCase_inv in Hb
    as [(_ & -> & _)|[(_ & _ & _ & -> & _)|(_ & _ & Hb)]];
    [right; by exists l'..|].
  destruct Hb as (qp & rp & col & r1 & Hqp & Hrp & -> & Hcol & _ & _).
  revert Hl'. unfold candidates. rewrite Hd, Hn.
  assert (Hq : N.to_nat q < length (columns (distances r)))
    by (by eapply lookup_lt_Some).
  assert (Hq' : N.to_nat q < length (columns (neighbors r)))
    by (by eapply lookup_lt_Some).
  destruct (decide (N.to_nat p = N.to_nat q)) as [Hpq|Hpq].
  - rewrite Hpq, !set_col_lookup by done. simpl. intros [= <-].
    destruct e as [a b].
    apply elem_of_zip_shifted_insert in He as [[= -> ->]|He];
      [|right|done..].
    + left. exists qp, rp. apply N2Nat.inj in Hpq as ->. by split_and!.
    + exists (zip dcol ncol). split; [|done].
      by rewrite Hdc, Hnc.
  - rewrite !set_col_lookup_ne by done. intros Hl. right. by exists l'.
Qed.

Lemma rules_call_genuine r r' (p : N) (l' : list (double * N))
    (e : double * N) :
  rules_wf r → rules_call r r' →
  candidates r' p = Some l' → e ∈ l' →
  genuine r p e ∨ ∃ l, candidates r p = Some l ∧ e ∈ l.
Proof.
  intros Hwf H Hl' He. apply rules_call_one_base_case in H
    as (r0 & [->|(q & rf & d & Hb)] & Hs);
    rewrite (stats_only_candidates _ _ _ Hs) in Hl'.
  - right. by exists l'.
  - by eapply BaseCase_genuine.
Qed.

(** X4.  On well-formed matrices, whatever the traversal calls, every
    candidate in a list was in that list at the start or is genuine: its
    distance is what the metric gives for the query point of the list and
    the reference point it names. *)
Theorem rules_calls_genuine r r' (p : N) (l' : list (double * N))
    (e : double * N) :
  rules_wf r → rules_calls r r' →
  candidates r' p = Some l' → e ∈ l' →
  genuine r p e ∨ ∃ l, candidates r p = Some l ∧ e ∈ l.
Proof.
  intros Hwf H. revert l' e.
  induction H as [r|r r1 r2 Hstep Hrest IH]; intros l' e Hl' He.
  - right. by exists l'.
  - pose proof (rules_call_wf _ _ Hstep Hwf) as Hwf1.
    destruct (IH Hwf1 _ _ Hl' He) as [Hg|(l1 & Hl1 & He1)].
    + left. apply rules_call_structure in Hstep as (Hr & Hq & _).
      by eapply genuine_sets.
    + by eapply rules_call_genuine.
Qed.

Hypothesis better_eq_trans :
  ∀ a b c : double, better_eq a b → better_eq b c → better_eq a c.
Hypothesis SortDistance_sorted :
  ∀ (col : list double) (d : double),
    sorted_col col → SortDistance col d ≠ size_max →
    (∀ i a, i < N.to_nat (SortDistance col d) → col !! i = Some a →
            better_eq a d)
    ∧ (∀ b, col !! N.to_nat (SortDistance col d) = Some b →
            better_eq d b).

Lemma stats_only_sorted r r' :
  stats_only r r' → all_sorted r → all_sorted r'.
Proof. intros (_ & _ & _ & _ & Hd & _). unfold all_sorted. by rewrite Hd. Qed.

Lemma rules_call_sorted r r' :
  rules_wf r → all_sorted r → rules_call r r' → all_sorted r'.
Proof.
  intros Hwf Hs H. apply rules_call_one_base_case in H
    as (r0 & [->|(q & rf & d & Hb)] & Hst).
  - by eapply stats_only_sorted.
  - eapply stats_only_sorted; [done|].
    by eapply (BaseCase_keeps_sorted better_eq_trans SortDistance_sorted).
Qed.

Lemma rules_call_kth r r' (p : N) (w' : double) :
  rules_wf r → all_sorted r → rules_call r r' →
  kth_distance r' p = Ok w' →
  ∃ w, kth_distance r p = Ok w ∧ better_eq w' w.
Proof.
  intros Hwf Hs H Hk. apply rules_call_one_base_case in H
    as (r0 & [->|(q & rf & d & Hb)] & Hst);
    rewrite (stats_only_kth _ _ _ Hst) in Hk.
  - exists w'. split; [done|]. apply better_eq_refl.
  - by eapply (BaseCase_kth_tightens better_eq_trans SortDistance_sorted).
Qed.

(** X5.  With a policy whose ordering is transitive and whose
    [SortDistance] answers with a row that respects the order of the
    column: whatever the traversal calls, sorted candidate lists stay
    sorted, and the k-th candidate distance of a query point (the pruning
    threshold of the point-to-node score) never gets worse. *)
Theorem rules_calls_keep_sorted r r' :
  rules_wf r → all_sorted r → rules_calls r r' →
  all_sorted r'
  ∧ ∀ p w', kth_distance r' p = Ok w' →
      ∃ w, kth_distance r p = Ok w ∧ better_eq w' w.
Proof.
  intros Hwf Hs H. induction H as [r|r r1 r2 Hstep _ IH].
  - split; [done|]. intros p w' Hk. exists w'. split; [done|].
    apply better_eq_refl.
  - pose proof (rules_call_wf _ _ Hstep Hwf) as Hwf1.
    pose proof (rules_call_sorted _ _ Hwf Hs Hstep) as Hs1.
    destruct (IH Hwf1 Hs1) as [Hs2 Hk2]. split; [done|].
    intros p w2 Hk. destruct (Hk2 _ _ Hk) as (w1 & Hk1 & Hb1).
    destruct (rules_call_kth _ _ _ _ Hwf Hs Hstep Hk1) as (w & Hk0 & Hb0).
    exists w. split; [done|]. by eapply better_eq_trans.
Qed.

End CallsAndCandidates.

(** ** The memo never hands out a wrong distance *)

Section MemoExact.
Context `{DO : DoubleOps} {point bound : Type}.
Context `{M : !MetricType point} `{SP : !SortPolicy point bound}.
Context `{TT : TreeTraits}.
Implicit Types r : NeighborSearchRules point bound.

Lemma construct_memo_exact (refs qs : list point) (same : bool)
    (nb : Mat N) (ds : Mat double) (arena : list (TreeNode bound))
    (uninit : double) :
  memo_exact (construct refs qs same nb ds arena uninit).
Proof. by left. Qed.

Lemma BaseCase_memo_exact r (q rf : N) r' (d : double) :
  memo_exact r → BaseCase q rf r = Ok (r', d) → memo_exact r'.
Proof.
  intros Hm Hb. pose proof (BaseCase_frame _ _ _ _ _ Hb) as (Hr & Hq & _).
  apply BaseCase_inv in Hb
    as [(_ & -> & _)|[(_ & _ & _ & -> & _)|(_ & _ & Hb)]]; [done..|].
  destruct Hb as (qp & rp & col & r1 & Hqp & Hrp & -> & _ & _ & ->).
  right. exists qp, rp. rewrite Hq, Hr. simpl. by split_and!.
Qed.

Lemma BaseCase_calls_memo_exact (calls : list (N * N)) r r' :
  memo_exact r → BaseCase_calls calls r = Ok r' →
  memo_exact r' ∧ querySet r' = querySet r
  ∧ referenceSet r' = referenceSet r ∧ sameSet r' = sameSet r.
Proof.
  revert r. induction calls as [|[q rf] calls IH]; intros r Hm; simpl.
  - by intros [= <-].
  - destruct (BaseCase q rf r) as [[r1 d]|] eqn:Hb; simpl; [|done].
    intros H. pose proof (BaseCase_frame _ _ _ _ _ Hb) as (Hr & Hq & Hs & _).
    destruct (IH r1) as (? & ? & ? & ?); [by eapply BaseCase_memo_exact|done|].
    split_and!; congruence.
Qed.

(** X6.  The constructor leaves [lastBaseCase] uninitialised and points the
    memo at the pair (number of query points, number of reference points).
    In any state reached from there by base cases, a base case on a pair of
    which one index at least is in range returns 0 for the self-match it
    skips and what the metric gives for the two points otherwise, never a
    value of another pair and never the uninitialised one.  On the pair the
    memo starts at, and two different sets, the first base case does return
    the uninitialised value, and changes nothing. *)
Theorem BaseCase_returns_the_distance (refs qs : list point) (same : bool)
    (nb : Mat N) (ds : Mat double) (arena : list (TreeNode bound))
    (uninit : double) :
  (∀ calls r (q rf : N) r' (d : double),
     BaseCase_calls calls (construct refs qs same nb ds arena uninit) = Ok r →
     N.to_nat q < length qs ∨ N.to_nat rf < length refs →
     BaseCase q rf r = Ok (r', d) →
     (same = true ∧ q = rf ∧ d = d_zero)
     ∨ ∃ qp rp, qs !! N.to_nat q = Some qp ∧ refs !! N.to_nat rf = Some rp
                ∧ d = Evaluate qp rp)
  ∧ (same = false →
     BaseCase (N.of_nat (length qs)) (N.of_nat (length refs))
              (construct refs qs same nb ds arena uninit)
     = Ok (construct refs qs same nb ds arena uninit, uninit)).
Proof.
  split.
  - intros calls r q rf r' d Hcalls Hrange Hb.
    apply BaseCase_calls_memo_exact in Hcalls as (Hm & Hq & Hr & Hs);
      [|apply construct_memo_exact].
    simpl in Hq, Hr, Hs.
    apply BaseCase_inv in Hb
      as [([Hsame ->] & _ & ->)|[(_ & Hlq & Hlr & _ & ->)|(_ & _ & Hb)]].
    + left. by rewrite <- Hs.
    + right. destruct Hm as [[Hmq Hmr]|(qp & rp & Hqp & Hrp & ->)].
      * rewrite Hq in Hmq. rewrite Hr in Hmr. lia.
      * exists qp, rp. by rewrite <- Hq, <- Hr, <- Hlq, <- Hlr.
    + destruct Hb as (qp & rp & col & r1 & Hqp & Hrp & -> & _).
      right. exists qp, rp. by rewrite <- Hq, <- Hr.
  - intros ->. unfold BaseCase. simpl. by rewrite !N.eqb_refl.
Qed.

End MemoExact.

(** ** Ranked insertion, seen from the candidate list *)

Section InsertNeighborMore.
Context `{DO : DoubleOps} {point bound : Type}.
Context `{M : !MetricType point} `{SP : !SortPolicy point bound}.
Context `{TT : TreeTraits}.
Implicit Types r : NeighborSearchRules point bound.

Lemma zip_shifted_insert {A B} (pos : nat) (x : A) (y : B) (l : list A)
    (k : list B) :
  length k = length l →
  zip (shifted_insert pos x l) (shifted_insert pos y k)
  = shifted_insert pos (x, y) (zip l k).
Proof.
  intros Hlen. unfold shifted_insert.
  rewrite zip_with_app by (rewrite !length_take; lia). simpl.
  rewrite zip_with_take, zip_with_drop, length_zip_with, Hlen.
  by rewrite Nat.min_id, zip_with_take.
Qed.

Lemma shifted_insert_drops_last {A} (pos : nat) (x : A) (l : list A) :
  pos < length l → shifted_insert pos x l ≡ₚ x :: take (length l - 1) l.
Proof.
  intros Hpos. unfold shifted_insert.
  rewrite <- Permutation_middle, take_take_drop.
  by replace (pos + (length l - 1 - pos)) with (length l - 1) by lia.
Qed.

(** X7.  On well-formed matrices a successful [InsertNeighbor] keeps every
    distance with its neighbor: the candidate list of the query point, read
    as pairs, is the old list with the new pair put in at [pos] and the
    pairs from [pos] on moved one row down.  As a collection it is the new
    pair and the old list without its last pair: the insertion loses the
    last candidate and nothing else.  The lists of the other query points
    are as they were. *)
Theorem InsertNeighbor_candidates r (q pos nb : N) (d : double) r'
    (l : list (double * N)) :
  rules_wf r → candidates r q = Some l →
  InsertNeighbor q pos nb d r = Ok r' →
  candidates r' q = Some (shifted_insert (N.to_nat pos) (d, nb) l)
  ∧ shifted_insert (N.to_nat pos) (d, nb) l
    ≡ₚ (d, nb) :: take (length l - 1) l
  ∧ ∀ q' : N, q' ≠ q → candidates r' q' = candidates r q'.
Proof.
  intros Hwf Hl Hins.
  destruct (InsertNeighbor_inv _ _ _ _ _ _ Hwf Hins)
    as (dcol & ncol & Hd & Hn & Hpos & ->).
  assert (length ncol = length dcol
          ∧ N.of_nat (length dcol) = n_rows (distances r)) as [Hlen Hk].
  { destruct Hwf as [w1 w2 w3 _ _ _].
    pose proof (proj1 (Forall_lookup _ _) w1 _ _ Hd) as H1.
    pose proof (proj1 (Forall_lookup _ _) w2 _ _ Hn) as H2.
    simpl in H1, H2. split; [lia|done]. }
  revert Hl. unfold candidates. rewrite Hd, Hn. simpl. intros [= <-].
  rewrite !list_lookup_insert_eq by (by eapply lookup_lt_Some). simpl.
  split_and!.
  - by rewrite zip_shifted_insert.
  - apply shifted_insert_drops_last. rewrite length_zip_with. lia.
  - intros q' Hq'. rewrite !list_lookup_insert_ne; [done|lia..].
Qed.

Lemma shift_column_fault {A} (elt : N) (m : Mat A) (c pos : N) (len : Z)
    (e : fault) :
  shift_column elt m c pos len = Fault e → e = OutOfBounds.
Proof.
  unfold shift_column, unsafe_col, memmove.
  destruct (columns m !! N.to_nat c); simpl; [|by intros [= <-]].
  case_match; simpl; [done|by intros [= <-]].
Qed.

Lemma mat_store_out_of_range {A} (m : Mat A) (row c : N) (v : A) :
  (n_rows m ≤ row)%N ∨ (n_cols m ≤ c)%N →
  mat_store m row c v = Fault OutOfBounds.
Proof.
  intros Hout. unfold mat_store.
  destruct (N.ltb_spec row (n_rows m)) as [Hlt|_]; [|done].
  destruct Hout as [?|Hc]; [lia|].
  unfold unsafe_col, n_cols in *.
  rewrite lookup_ge_None_2; [done|lia].
Qed.


End InsertNeighborMore.

(** ** The bound update, once more *)

Section CalculateBoundMore.
Context `{DO : DoubleOps} {point bound : Type}.
Context `{M : !MetricType point} `{SP : !SortPolicy point bound}.
Context `{TT : TreeTraits}.
Implicit Types r : NeighborSearchRules point bound.
Implicit Types n : TreeNode bound.

Lemma traverse_ext {A B} (f g : A → result B) (l : list A) :
  (∀ a, a ∈ l → f a = g a) → traverse f l = traverse g l.
Proof.
  induction l as [|a l IH]; intros Hfg; simpl; [done|].
  rewrite (Hfg a) by left. rewrite IH; [done|].
  intros b Hb. apply Hfg. by right.
Qed.

Lemma node_update_stat_ne r (id id' : nat)
    (f : NeighborSearchStat → NeighborSearchStat) :
  id ≠ id' → node (update_stat id f r) id' = node r id'.
Proof. intros Hne. unfold node. by rewrite update_stat_lookup_ne. Qed.

Lemma update_stat_set_bounds_twice r (id : nat) (b1 b2 b : double) :
  update_stat id (set_bounds b1 b2 b) (update_stat id (set_bounds b1 b2 b) r)
  = update_stat id (set_bounds b1 b2 b) r.
Proof.
  unfold update_stat, set_nodes. simpl. f_equal.
  rewrite list_alter_alter_eq. by apply list_alter_ext.
Qed.

(** The bounds of a node do not depend on what its own statistic holds,
    as long as the node is neither its own parent nor its own child. *)
Lemma bound_values_update_stat r (id : nat)
    (f : NeighborSearchStat → NeighborSearchStat) (qn : TreeNode bound) :
  nodes r !! id = Some qn → Parent qn ≠ Some id → id ∉ Children qn →
  bound_values id (update_stat id f r) = bound_values id r.
Proof.
  intros Hqn Hpar Hch. rewrite !bound_values_combine.
  assert (node (update_stat id f r) id = Ok (set_stat (f (Stat qn)) qn)) as ->
    by (unfold node; by rewrite (update_stat_lookup _ _ _ _ Hqn)).
  assert (node r id = Ok qn) as -> by (unfold node; by rewrite Hqn).
  simpl.
  rewrite (traverse_ext (kth_distance (update_stat id f r)) (kth_distance r))
    by done.
  destruct (traverse (kth_distance r) (Points qn)) as [owned|]; simpl;
    [|done].
  rewrite (traverse_ext (node (update_stat id f r)) (node r)).
  2:{ intros c Hc. apply node_update_stat_ne. by intros ->. }
  destruct (traverse (node r) (Children qn)) as [children|]; simpl; [|done].
  destruct (Parent qn) as [par|]; [|done].
  rewrite node_update_stat_ne by (by intros ->). done.
Qed.

Lemma CalculateBound_again (queryNode : nat) r r1 (b : double)
    (qn : TreeNode bound) :
  nodes r !! queryNode = Some qn →
  Parent qn ≠ Some queryNode → queryNode ∉ Children qn →
  CalculateBound queryNode r = Ok (r1, b) →
  CalculateBound queryNode r1 = Ok (r1, b).
Proof.
  intros Hqn Hpar Hch Hb.
  apply CalculateBound_inv in Hb as (qn' & b1 & b2 & _ & Hv & -> & _).
  unfold CalculateBound.
  rewrite (bound_values_update_stat _ _ _ _ Hqn Hpar Hch), Hv. simpl.
  by rewrite update_stat_set_bounds_twice.
Qed.

(** X9.  [CalculateBound] writes the three bounds of the query node and
    nothing else: the matrices, the memo, the data sets and the count of
    metric calls are as before, every other node is as before, and the
    query node keeps its place in the tree and its cached last distance and
    last node.  The value returned is the bound now stored on the node. *)
Theorem CalculateBound_writes_bounds_only (queryNode : nat) r r' (b : double) :
  CalculateBound queryNode r = Ok (r', b) →
  set_nodes (nodes r) r' = r
  ∧ (∀ id, id ≠ queryNode → nodes r' !! id = nodes r !! id)
  ∧ ∃ qn qn',
      nodes r !! queryNode = Some qn ∧ nodes r' !! queryNode = Some qn'
      ∧ same_shape qn qn'
      ∧ LastDistanceNode (Stat qn') = LastDistanceNode (Stat qn)
      ∧ LastDistance (Stat qn') = LastDistance (Stat qn)
      ∧ Bound (Stat qn') = b.
Proof.
  intros H.
  apply CalculateBound_inv in H as (qn & b1 & b2 & Hqn & _ & -> & Hq').
  split_and!.
  - by destruct r.
  - intros id Hid. by apply update_stat_lookup_ne.
  - exists qn, (set_stat (set_bounds b1 b2 b (Stat qn)) qn).
    by split_and!.
Qed.

(** X10.  On a node that is neither its own parent nor one of its own
    children, a second [CalculateBound] right after the first returns the
    same bound and changes nothing: the bounds of a node are a function of
    the candidate distances of its points and of the statistics of its
    children and its parent, not of its own. *)
Theorem CalculateBound_idempotent (queryNode : nat) r r1 (b : double)
    (qn : TreeNode bound) :
  nodes r !! queryNode = Some qn →
  Parent qn ≠ Some queryNode → queryNode ∉ Children qn →
  CalculateBound queryNode r = Ok (r1, b) →
  CalculateBound queryNode r1 = Ok (r1, b).
Proof. apply CalculateBound_again. Qed.

End CalculateBoundMore.

(** ** Score, then rescore *)

Section ScoreThenRescore.
Context `{DO : DoubleOps} {point bound : Type}.
Context `{M : !MetricType point} `{SP : !SortPolicy point bound}.
Context `{TT : TreeTraits}.
Implicit Types r : NeighborSearchRules point bound.
Implicit Types n : TreeNode bound.

Lemma rescored (s distance best : double) :
  s = (if IsBetter distance best then distance else DBL_MAX) →
  d_eqb s DBL_MAX = false →
  (if IsBetter s best then s else DBL_MAX) = s.
Proof.
  destruct (IsBetter distance best) eqn:Hb; intros -> Hs.
  - by rewrite Hb.
  - by rewrite d_eqb_DBL_MAX in Hs.
Qed.

(** X11.  [Rescore], point to node, right after [Score] and with the score
    it returned, returns that score again: a pruned node stays pruned, and
    a node that was not pruned is not pruned by a rescore that follows at
    once. *)
Theorem Score_then_Rescore_point (q : N) (referenceNode : nat)
    (indeterminate : double) r r' (s : double) :
  Score_point q referenceNode indeterminate r = Ok (r', s) →
  Rescore_point q referenceNode s r' = Ok s.
Proof.
  unfold Score_point, Rescore_point. intros H.
  destruct (node r referenceNode) as [rn|]; simpl in H; [|done].
  destruct (if FirstPointIsCentroid then _ else _) as [[r1 distance]|];
    simpl in H; [|done].
  destruct (kth_distance r1 q) as [best|] eqn:Hk; simpl in H; [|done].
  injection H as <- Hs. destruct (d_eqb s DBL_MAX) eqn:Hmax; [done|].
  rewrite Hk. simpl. f_equal. by eapply rescored.
Qed.

(** X12.  [Rescore], node to node, right after [Score] with the score it
    returned, returns that score again and leaves everything as [Score]
    left it, the bounds of the query node included (the query node being
    neither its own parent nor its own child). *)
Theorem Score_then_Rescore_nodes (queryNode referenceNode : nat) r r'
    (s : double) (qn : TreeNode bound) :
  nodes r !! queryNode = Some qn →
  Parent qn ≠ Some queryNode → queryNode ∉ Children qn →
  Score_nodes queryNode referenceNode r = Ok (r', s) →
  Rescore_nodes queryNode referenceNode s r' = Ok (r', s).
Proof.
  intros Hqn Hpar Hch H. unfold Rescore_nodes.
  destruct (d_eqb s DBL_MAX) eqn:Hmax; [done|].
  revert H. unfold Score_nodes.
  rewrite (proj2 (node_Ok _ _ _) Hqn). simpl.
  destruct (node r referenceNode) as [rn|]; simpl; [|done].
  destruct (if FirstPointIsCentroid then _ else _) as [[r1 distance]|]
    eqn:Hd; simpl; [|done].
  destruct (CalculateBound queryNode r1) as [[r2 best]|] eqn:Hb; simpl;
    [|done].
  intros [= <- Hs].
  assert (one_base_case r r1) as (r0 & H0 & Hs0).
  { destruct FirstPointIsCentroid.
    - destruct (centroid_base_case queryNode referenceNode r)
        as [[r1' base]|] eqn:Hc; simpl in Hd; [|done].
      injection Hd as <- _. by eapply centroid_base_case_one_base_case.
    - injection Hd as <- _. apply one_base_case_refl. }
  assert (nodes r0 = nodes r) as Hn0.
  { destruct H0 as [->|(a & c & d & Hbc)]; [done|].
    by apply BaseCase_frame in Hbc as (_ & _ & _ & ? & _). }
  destruct Hs0 as (_ & _ & _ & _ & _ & _ & Hshape). rewrite Hn0 in Hshape.
  destruct (Forall2_lookup_l _ _ _ _ _ Hshape Hqn)
    as (qn1 & Hqn1 & [(Hp1 & _ & Hc1 & _) _]).
  rewrite (CalculateBound_again queryNode r1 r2 best qn1); try done;
    [|by rewrite Hp1|by rewrite Hc1].
  simpl. do 2 f_equal. by eapply rescored.
Qed.

End ScoreThenRescore.

(** ** What the node-to-node score caches *)

Section ScoreNodesCaches.
Context `{DO : DoubleOps} {point bound : Type}.
Context `{M : !MetricType point} `{SP : !SortPolicy point bound}.
Context `{TT : TreeTraits}.
Implicit Types r : NeighborSearchRules point bound.
Implicit Types n : TreeNode bound.

(** The four writes that end the centroid branch. *)
Lemma last_compared_lookup r (queryNode referenceNode : nat) (base : double)
    (qn rn : TreeNode bound) r1 :
  nodes r !! queryNode = Some qn → nodes r !! referenceNode = Some rn →
  r1 = update_stat referenceNode (set_last_distance base)
         (update_stat referenceNode (set_last_node queryNode)
            (update_stat queryNode (set_last_distance base)
               (update_stat queryNode (set_last_node referenceNode) r))) →
  ∃ qn' rn',
    nodes r1 !! queryNode = Some qn' ∧ nodes r1 !! referenceNode = Some rn'
    ∧ same_shape qn qn' ∧ same_shape rn rn'
    ∧ LastDistanceNode (Stat rn') = Some queryNode
    ∧ (queryNode ≠ referenceNode →
       LastDistanceNode (Stat qn') = Some referenceNode)
    ∧ LastDistance (Stat qn') = base ∧ LastDistance (Stat rn') = base.
Proof.
  intros Hqn Hrn ->. unfold update_stat. simpl.
  destruct (decide (queryNode = referenceNode)) as [->|Hne].
  - rewrite Hrn in Hqn. injection Hqn as ->.
    rewrite !list_alter_alter_eq, list_lookup_alter_eq, Hrn. simpl.
    eexists _, _. split_and!; try done.
  - rewrite !list_alter_alter_eq.
    rewrite list_lookup_alter_ne, list_lookup_alter_eq, Hqn by done.
    rewrite list_lookup_alter_eq, list_lookup_alter_ne, Hrn by done.
    simpl. eexists _, _. split_and!; try done.
Qed.

Lemma centroid_base_case_effects (queryNode referenceNode : nat) r r1
    (base : double) :
  centroid_base_case queryNode referenceNode r = Ok (r1, base) →
  ∃ qn rn qp0 rp0 r0,
    nodes r !! queryNode = Some qn ∧ nodes r !! referenceNode = Some rn
    ∧ Points qn !! 0 = Some qp0 ∧ Points rn !! 0 = Some rp0
    ∧ nodes r0 = nodes r ∧ sameSet r0 = sameSet r
    ∧ (elided r qp0 rp0
       ∨ (lastQueryIndex r0 = qp0 ∧ lastReferenceIndex r0 = rp0
          ∧ lastBaseCase r0 = base))
    ∧ r1 = update_stat referenceNode (set_last_distance base)
             (update_stat referenceNode (set_last_node queryNode)
                (update_stat queryNode (set_last_distance base)
                   (update_stat queryNode (set_last_node referenceNode)
                      r0))).
Proof.
  unfold centroid_base_case. intros H.
  destruct (node r queryNode) as [qn|] eqn:Hqn; simpl in H; [|done].
  destruct (node r referenceNode) as [rn|] eqn:Hrn; simpl in H; [|done].
  apply node_Ok in Hqn, Hrn.
  destruct (Point qn 0) as [qp0|] eqn:Hq0; simpl in H; [|done].
  destruct (Point rn 0) as [rp0|] eqn:Hr0; simpl in H; [|done].
  unfold Point in Hq0, Hr0.
  destruct (Points qn !! 0) as [qp0'|] eqn:Hq0'; simpl in Hq0; [|done].
  destruct (Points rn !! 0) as [rp0'|] eqn:Hr0'; simpl in Hr0; [|done].
  injection Hq0 as ->. injection Hr0 as ->.
  destruct (if HasSelfChildren then _ else _) as [cached|]; simpl in H;
    [|done].
  exists qn, rn, qp0, rp0.
  destruct cached as [b|]; simpl in H.
  - injection H as <- <-. exists (set_memo qp0 rp0 b r).
    split_and!; try done. by right.
  - destruct (BaseCase qp0 rp0 r) as [[r0 b]|] eqn:Hb; simpl in H; [|done].
    injection H as <- <-. exists r0.
    pose proof (BaseCase_frame _ _ _ _ _ Hb) as (_ & _ & Hs & Hn & _).
    split_and!; try done.
    destruct (BaseCase_inv _ _ _ _ _ Hb)
      as [(He & _)|[(_ & Hlq & Hlr & -> & ->)|(_ & _ & Hb')]].
    + by left.
    + by right.
    + destruct Hb' as (? & ? & ? & ? & _ & _ & _ & _ & _ & ->). by right.
Qed.

Lemma Score_nodes_effects (queryNode referenceNode : nat) r r' (s : double) :
  FirstPointIsCentroid = true →
  Score_nodes queryNode referenceNode r = Ok (r', s) →
  ∃ qn rn qp0 rp0 qn' rn' base,
    nodes r !! queryNode = Some qn ∧ nodes r !! referenceNode = Some rn
    ∧ Points qn !! 0 = Some qp0 ∧ Points rn !! 0 = Some rp0
    ∧ nodes r' !! queryNode = Some qn'
    ∧ nodes r' !! referenceNode = Some rn'
    ∧ same_shape qn qn' ∧ same_shape rn rn'
    ∧ LastDistanceNode (Stat rn') = Some queryNode
    ∧ (queryNode ≠ referenceNode →
       LastDistanceNode (Stat qn') = Some referenceNode)
    ∧ LastDistance (Stat qn') = base ∧ LastDistance (Stat rn') = base
    ∧ sameSet r' = sameSet r
    ∧ (elided r qp0 rp0
       ∨ (lastQueryIndex r' = qp0 ∧ lastReferenceIndex r' = rp0
          ∧ lastBaseCase r' = base))
    ∧ (s = DBL_MAX
       ∨ s = CombineBest base (d_add (FurthestDescendantDistance qn)
                                     (FurthestDescendantDistance rn))).
Proof.
  intros Hc. unfold Score_nodes. rewrite Hc. intros H.
  destruct (node r queryNode) as [qn0|] eqn:Hqn0; simpl in H; [|done].
  destruct (node r referenceNode) as [rn0|] eqn:Hrn0; simpl in H; [|done].
  apply node_Ok in Hqn0, Hrn0.
  destruct (centroid_base_case queryNode referenceNode r)
    as [[r1 base]|] eqn:Hcb; simpl in H; [|done].
  destruct (CalculateBound queryNode r1) as [[r2 best]|] eqn:Hb;
    simpl in H; [|done].
  injection H as <- Hs.
  apply centroid_base_case_effects in Hcb
    as (qn & rn & qp0 & rp0 & r0 & Hqn & Hrn & Hq0 & Hr0 & Hn0 & Hs0
        & Hmemo & Hr1).
  rewrite Hqn in Hqn0. rewrite Hrn in Hrn0.
  injection Hqn0 as <-. injection Hrn0 as <-.
  rewrite <- Hn0 in Hqn, Hrn.
  destruct (last_compared_lookup r0 queryNode referenceNode base qn rn r1
              Hqn Hrn Hr1)
    as (qn1 & rn1 & Hqn1 & Hrn1 & Sq & Sr & Lr & Lq & Dq & Dr).
  pose proof (CalculateBound_stats_only _ _ _ _ Hb) as [Hst Hm].
  apply CalculateBound_inv in Hb as (qn1' & b1 & b2 & Hq1' & _ & -> & Hq2).
  rewrite Hqn1 in Hq1'. injection Hq1' as <-.
  rewrite Hn0 in Hqn, Hrn.
  exists qn, rn, qp0, rp0, (set_stat (set_bounds b1 b2 best (Stat qn1)) qn1),
    (if decide (queryNode = referenceNode)
     then set_stat (set_bounds b1 b2 best (Stat qn1)) qn1 else rn1), base.
  split_and!; try done.
  - destruct (decide (queryNode = referenceNode)) as [<-|Hne]; [done|].
    by rewrite update_stat_lookup_ne.
  - destruct (decide (queryNode = referenceNode)) as [<-|Hne]; [|done].
    rewrite Hqn in Hrn. injection Hrn as <-.
    destruct Sq as (?&?&?&?&?). by split_and!.
  - destruct (decide (queryNode = referenceNode)) as [<-|Hne]; [|done].
    rewrite Hqn1 in Hrn1. by injection Hrn1 as <-.
  - destruct (decide (queryNode = referenceNode)) as [<-|Hne]; [|done].
    rewrite Hqn1 in Hrn1. by injection Hrn1 as <-.
  - by rewrite Hr1.
  - destruct Hmemo as [He|(H1 & H2 & H3)]; [by left|right].
    by rewrite Hr1.
  - rewrite <- Hs. destruct (IsBetter _ best); [by right|by left].
Qed.

(** X13.  After a node-to-node score on a tree whose first point is the
    centroid, the reference node names the query node as its last compared
    node, the query node names the reference node (when the two are not
    one node), both cache one and the same base case, and the score
    returned is the prune value or that base case improved by the two
    furthest descendant distances. *)
Theorem Score_nodes_caches (queryNode referenceNode : nat) r r' (s : double) :
  FirstPointIsCentroid = true →
  Score_nodes queryNode referenceNode r = Ok (r', s) →
  ∃ qn' rn' base,
    nodes r' !! queryNode = Some qn'
    ∧ nodes r' !! referenceNode = Some rn'
    ∧ LastDistanceNode (Stat rn') = Some queryNode
    ∧ (queryNode ≠ referenceNode →
       LastDistanceNode (Stat qn') = Some referenceNode)
    ∧ LastDistance (Stat qn') = base ∧ LastDistance (Stat rn') = base
    ∧ (s = DBL_MAX
       ∨ s = CombineBest base (d_add (FurthestDescendantDistance qn')
                                     (FurthestDescendantDistance rn'))).
Proof.
  intros Hc H. apply Score_nodes_effects in H
    as (qn & rn & qp0 & rp0 & qn' & rn' & base & _ & _ & _ & _ & Hq' & Hr'
        & (_ & _ & _ & Fq & _) & (_ & _ & _ & Fr & _) & H1 & H2 & H3 & H4
        & _ & _ & Hs); [|done].
  exists qn', rn', base. rewrite Fq, Fr. by split_and!.
Qed.

(** X14.  After a node-to-node score on a tree whose first point is the
    centroid, the base case of the two first points is not computed again:
    [BaseCase] on them returns without a call of the metric and without a
    change, and what it returns, the skipped self-match apart, is the base
    case the query node has cached. *)
Theorem Score_nodes_then_BaseCase (queryNode referenceNode : nat) r r'
    (s : double) (qn rn : TreeNode bound) (qp0 rp0 : N) :
  FirstPointIsCentroid = true →
  nodes r !! queryNode = Some qn → nodes r !! referenceNode = Some rn →
  Points qn !! 0 = Some qp0 → Points rn !! 0 = Some rp0 →
  Score_nodes queryNode referenceNode r = Ok (r', s) →
  ∃ d, BaseCase qp0 rp0 r' = Ok (r', d)
       ∧ (¬ elided r' qp0 rp0 →
          ∃ qn', nodes r' !! queryNode = Some qn'
                 ∧ LastDistance (Stat qn') = d).
Proof.
  intros Hc Hqn Hrn Hq0 Hr0 H. apply Score_nodes_effects in H
    as (qn1 & rn1 & qp & rp & qn' & rn' & base & Hqn1 & Hrn1 & Hq1 & Hr1
        & Hq' & _ & _ & _ & _ & _ & Dq & _ & Hsame & Hmemo & _); [|done].
  rewrite Hqn in Hqn1. rewrite Hrn in Hrn1.
  injection Hqn1 as <-. injection Hrn1 as <-.
  rewrite Hq0 in Hq1. rewrite Hr0 in Hr1.
  injection Hq1 as <-. injection Hr1 as <-.
  unfold BaseCase.
  destruct (sameSet r' && (qp0 =? rp0)%N) eqn:He.
  - exists d_zero. split; [done|]. intros Hne. destruct Hne.
    apply andb_true_iff in He as [? ?%N.eqb_eq]. by split.
  - destruct Hmemo as [[Hs' Heq]|(H1 & H2 & H3)].
    + rewrite Hsame, Hs', Heq, N.eqb_refl in He. done.
    + rewrite H1, H2, !N.eqb_refl. simpl. exists base.
      split; [by rewrite H3|]. intros _. by exists qn'.
Qed.

End ScoreNodesCaches.

(** ** Null pointers *)

Section NullPointers.
Context `{DO : DoubleOps} {point bound : Type}.
Context `{M : !MetricType point} `{SP : !SortPolicy point bound}.
Context `{TT : TreeTraits}.
Implicit Types r : NeighborSearchRules point bound.
Implicit Types n : TreeNode bound.

Lemma kth_distance_not_null r (p : N) : kth_distance r p ≠ Fault NullPointer.
Proof. apply mat_at_not_null. Qed.

Lemma Score_point_not_null (q : N) (id : nat) (junk : double) r :
  Score_point q id junk r ≠ Fault NullPointer.
Proof.
  unfold Score_point.
  apply bind_not_null; [apply node_not_null|]. intros rn _.
  apply bind_not_null.
  2:{ intros [r1 distance] _.
      apply bind_not_null; [apply kth_distance_not_null|done]. }
  destruct FirstPointIsCentroid.
  - apply bind_not_null; [|by intros [??] _].
    destruct HasSelfChildren; [|done].
    apply bind_not_null; [apply Point_not_null|]. intros p0 _.
    apply bind_not_null; [|by intros [??] _].
    destruct (Parent rn) as [par|]; [|apply BaseCase_not_null].
    apply bind_not_null; [apply node_not_null|]. intros pn _.
    apply bind_not_null; [apply Point_not_null|]. intros pp0 _.
    destruct (p0 =? pp0)%N; [done|apply BaseCase_not_null].
  - apply bind_not_null; [by apply or_fault_not_null|done].
Qed.

Lemma Rescore_point_not_null (q : N) (id : nat) (old : double) r :
  Rescore_point q id old r ≠ Fault NullPointer.
Proof.
  unfold Rescore_point. destruct (d_eqb old DBL_MAX); [done|].
  apply bind_not_null; [apply kth_distance_not_null|done].
Qed.

Lemma Rescore_nodes_not_null (queryNode referenceNode : nat) (old : double)
    r :
  Rescore_nodes queryNode referenceNode old r ≠ Fault NullPointer.
Proof.
  unfold Rescore_nodes. destruct (d_eqb old DBL_MAX); [done|].
  apply bind_not_null; [apply CalculateBound_not_null|by intros [??] _].
Qed.

(** X15.  The base case, the insertion, the point-to-node score, both
    rescores and the bound update never dereference a null pointer,
    whatever the state: where they follow a parent pointer they have tested
    it. *)
Theorem no_null_dereference r :
  (∀ q rf, BaseCase q rf r ≠ Fault NullPointer)
  ∧ (∀ q pos nb (d : double),
       InsertNeighbor q pos nb d r ≠ Fault NullPointer)
  ∧ (∀ q id (indeterminate : double),
       Score_point q id indeterminate r ≠ Fault NullPointer)
  ∧ (∀ q id (oldScore : double),
       Rescore_point q id oldScore r ≠ Fault NullPointer)
  ∧ (∀ queryNode, CalculateBound queryNode r ≠ Fault NullPointer)
  ∧ (∀ queryNode referenceNode (oldScore : double),
       Rescore_nodes queryNode referenceNode oldScore r
       ≠ Fault NullPointer).
Proof.
  split_and!; intros.
  - apply BaseCase_not_null.
  - apply InsertNeighbor_not_null.
  - apply Score_point_not_null.
  - apply Rescore_point_not_null.
  - apply CalculateBound_not_null.
  - apply Rescore_nodes_not_null.
Qed.

Lemma rules_calls_last_node r r' (id : nat) n :
  rules_calls r r' → nodes r !! id = Some n →
  is_Some (LastDistanceNode (Stat n)) →
  ∃ n', nodes r' !! id = Some n' ∧ is_Some (LastDistanceNode (Stat n')).
Proof.
  intros H Hn Hl. apply rules_calls_structure in H
    as (_ & _ & _ & _ & _ & _ & _ & H).
  destruct (Forall2_lookup_l _ _ _ _ _ H Hn) as (n' & Hn' & [_ Hk]).
  exists n'. auto.
Qed.

(** X16.  Once two nodes were scored against each other on a tree whose
    first point is the centroid, both have a last compared node, and no
    later call of the rules takes it away.  So from then on the node-to-node
    score finds the cache of either of them in place when it scores one of
    their self-children: the dereference that can fail at the start of a
    search cannot fail for their children. *)
Theorem self_children_safe_after_score (a b : nat) r r1 r2 (s : double)
    (c : nat) n :
  FirstPointIsCentroid = true →
  Score_nodes a b r = Ok (r1, s) → rules_calls r1 r2 →
  nodes r2 !! c = Some n → Parent n = Some a ∨ Parent n = Some b →
  ¬ parent_cache_empty r2 c.
Proof.
  intros Hc Hs Hcalls Hn Hpar (n' & par & pn & Hn' & _ & Hp & Hpn & Hnone).
  rewrite Hn in Hn'. injection Hn' as <-.
  apply Score_nodes_effects in Hs
    as (_ & _ & _ & _ & qn' & rn' & base & _ & _ & _ & _ & Hq' & Hr'
        & _ & _ & Lr & Lq & _); [|done].
  assert (is_Some (LastDistanceNode (Stat qn'))) as Hqs.
  { destruct (decide (a = b)) as [<-|Hne].
    - rewrite Hq' in Hr'. injection Hr' as <-. by rewrite Lr.
    - by rewrite Lq. }
  assert (is_Some (LastDistanceNode (Stat rn'))) as Hrs by (by rewrite Lr).
  assert (∃ pn', nodes r2 !! par = Some pn'
                 ∧ is_Some (LastDistanceNode (Stat pn')))
    as (pn' & Hpn' & Hsome).
  { rewrite Hp in Hpar. destruct Hpar as [[= ->]|[= ->]].
    - by eapply rules_calls_last_node.
    - by eapply rules_calls_last_node. }
  rewrite Hpn in Hpn'. injection Hpn' as <-.
  rewrite Hnone in Hsome. by destruct Hsome.
Qed.

(** X18.  Unless the tree's first point is the centroid and the tree has
    no self-children, the point-to-node score never reads its local
    [baseCase] before writing it: the result does not depend on what the
    uninitialised local holds. *)
Theorem Score_point_initialised (q : N) (id : nat) (junk1 junk2 : double) r :
  (FirstPointIsCentroid = true → HasSelfChildren = true) →
  Score_point q id junk1 r = Score_point q id junk2 r.
Proof.
  intros H. unfold Score_point.
  destruct FirstPointIsCentroid, HasSelfChildren; try done.
  by specialize (H eq_refl).
Qed.

End NullPointers.

(** ** Faults of the base case *)

Section BaseCaseFaults.
Context `{DO : DoubleOps} {point bound : Type}.
Context `{M : !MetricType point} `{SP : !SortPolicy point bound}.
Context `{TT : TreeTraits}.
Implicit Types r : NeighborSearchRules point bound.

(** X19.  On well-formed matrices, and with a policy whose [SortDistance]
    answers "do not insert" or a row of the column: [BaseCase] goes wrong
    exactly when the pair is neither the skipped self-match nor the pair of
    the memo, and the query index is not a query point or has no candidate
    column, or the reference index is not a reference point; what goes
    wrong is an access outside a matrix.  The self-match and the memo are
    answered before any index is used, so for them no index is checked. *)
Theorem BaseCase_faults r (q rf : N) (e : fault) :
  rules_wf r →
  (∀ col d, SortDistance col d = size_max
            ∨ (SortDistance col d < N.of_nat (length col))%N) →
  BaseCase q rf r = Fault e
  ↔ e = OutOfBounds ∧ ¬ elided r q rf
    ∧ ¬ (lastQueryIndex r = q ∧ lastReferenceIndex r = rf)
    ∧ (length (querySet r) ≤ N.to_nat q
       ∨ length (referenceSet r) ≤ N.to_nat rf
       ∨ (n_cols (distances r) ≤ q)%N).
Proof.
  intros Hwf Hrow. split.
  - intros Hf.
    assert (¬ elided r q rf) as Hne.
    { intros [Hs ->]. revert Hf. unfold BaseCase.
      by rewrite Hs, N.eqb_refl. }
    assert (¬ (lastQueryIndex r = q ∧ lastReferenceIndex r = rf)) as Hnm.
    { intros [Hq Hr]. revert Hf. unfold BaseCase.
      rewrite Hq, Hr, !N.eqb_refl. simpl. by destruct (sameSet r && _). }
    destruct (decide (length (querySet r) ≤ N.to_nat q)) as [Hq|Hq];
      [|destruct (decide (length (referenceSet r) ≤ N.to_nat rf)) as [Hr|Hr];
        [|destruct (decide (n_cols (distances r) ≤ q)%N) as [Hc|Hc]]].
    4:{ destruct (BaseCase_returns r q rf Hwf) as (r' & d & Hok);
          [lia..|done|]. by rewrite Hok in Hf. }
    all: split_and!; auto.
    all: revert Hf; unfold BaseCase.
    all: destruct (sameSet r && (q =? rf)%N); [done|].
    all: destruct ((lastQueryIndex r =? q)%N && _); [done|].
    + rewrite (lookup_ge_None_2 (querySet r)) by done. simpl. congruence.
    + destruct (querySet r !! N.to_nat q); simpl; [|congruence].
      rewrite (lookup_ge_None_2 (referenceSet r)) by done. simpl.
      congruence.
    + destruct (querySet r !! N.to_nat q); simpl; [|congruence].
      destruct (referenceSet r !! N.to_nat rf); simpl; [|congruence].
      unfold unsafe_col. simpl.
      rewrite (lookup_ge_None_2 (columns (distances r)))
        by (unfold n_cols in Hc; lia).
      simpl. congruence.
  - intros (-> & Hne & Hnm & Hout). unfold BaseCase.
    destruct (sameSet r && (q =? rf)%N) eqn:He.
    { destruct Hne. apply andb_true_iff in He as [? ?%N.eqb_eq]. by split. }
    destruct ((lastQueryIndex r =? q)%N && _) eqn:Hm.
    { destruct Hnm. by apply andb_true_iff in Hm as [?%N.eqb_eq ?%N.eqb_eq]. }
    destruct (querySet r !! N.to_nat q) as [qp|] eqn:Hqp; simpl; [|done].
    destruct (referenceSet r !! N.to_nat rf) as [rp|] eqn:Hrp; simpl;
      [|done].
    apply lookup_lt_Some in Hqp, Hrp.
    destruct Hout as [?|[?|Hc]]; [lia..|].
    unfold unsafe_col. simpl.
    rewrite (lookup_ge_None_2 (columns (distances r)))
      by (unfold n_cols in Hc; lia).
    done.
Qed.

End BaseCaseFaults.

(** ** A node's bound and its parent's *)

Section BoundInherited.
Context `{DO : DoubleOps} {point bound : Type}.
Context `{M : !MetricType point} `{SP : !SortPolicy point bound}.
Context `{TT : TreeTraits}.
Implicit Types r : NeighborSearchRules point bound.

Hypothesis better_eq_trans :
  ∀ a b c : double, better_eq a b → better_eq b c → better_eq a c.

(** X20.  With a transitive ordering: the bound [CalculateBound] returns
    for a node is never worse than the first bound or the second bound its
    parent has cached, and for a node without a parent never worse than the
    worst distance. *)
Theorem CalculateBound_inherits (queryNode : nat) r r' (b : double)
    (qn : TreeNode bound) :
  nodes r !! queryNode = Some qn →
  CalculateBound queryNode r = Ok (r', b) →
  match Parent qn with
  | Some par =>
      ∃ pn, nodes r !! par = Some pn
            ∧ better_eq b (FirstBound (Stat pn))
            ∧ better_eq b (SecondBound (Stat pn))
  | None => better_eq b WorstDistance
  end.
Proof.
  intros Hqn Hb.
  apply CalculateBound_inv in Hb as (qn' & b1 & b2 & Hqn' & Hv & _).
  rewrite Hqn in Hqn'. injection Hqn' as <-.
  revert Hv. rewrite bound_values_combine.
  rewrite (proj2 (node_Ok _ _ _) Hqn). simpl.
  destruct (traverse (kth_distance r) (Points qn)) as [owned|]; simpl;
    [|done].
  destruct (traverse (node r) (Children qn)) as [children|]; simpl; [|done].
  destruct (Parent qn) as [par|].
  - destruct (node r par) as [pn|] eqn:Hpn; simpl; [|done].
    apply node_Ok in Hpn. unfold combine_bounds. intros [= <- <- <-].
    exists pn. split; [done|]. split.
    + eapply better_eq_trans; [apply best_l|apply best_r].
    + eapply better_eq_trans; [apply best_r|apply best_r].
  - simpl. unfold combine_bounds. intros [= <- <- <-].
    eapply better_eq_trans; [apply best_l|apply best_r].
Qed.

End BoundInherited.

(** ** What a score says about the state it leaves *)

Section ScoreResults.
Context `{DO : DoubleOps} {point bound : Type}.
Context `{M : !MetricType point} `{SP : !SortPolicy point bound}.
Context `{TT : TreeTraits}.
Implicit Types r : NeighborSearchRules point bound.
Implicit Types n : TreeNode bound.

(** X21.  A score that is not the prune value has passed [IsBetter] against
    the threshold as the call leaves it: for the point-to-node score the
    k-th candidate distance of the query point after the base case the
    call may have run, for the node-to-node score the bound now stored on
    the query node. *)
Theorem Score_beats_threshold :
  (∀ (q : N) (id : nat) (indeterminate : double) r r' (s : double),
     Score_point q id indeterminate r = Ok (r', s) →
     ∃ threshold, kth_distance r' q = Ok threshold
                  ∧ (s = DBL_MAX ∨ IsBetter s threshold = true))
  ∧ (∀ (queryNode referenceNode : nat) r r' (s : double),
       Score_nodes queryNode referenceNode r = Ok (r', s) →
       ∃ qn', nodes r' !! queryNode = Some qn'
              ∧ (s = DBL_MAX ∨ IsBetter s (Bound (Stat qn')) = true)).
Proof.
  split.
  - intros q id junk r r' s. unfold Score_point. intros H.
    destruct (node r id) as [rn|]; simpl in H; [|done].
    destruct (if FirstPointIsCentroid then _ else _) as [[r1 distance]|];
      simpl in H; [|done].
    destruct (kth_distance r1 q) as [best|] eqn:Hk; simpl in H; [|done].
    injection H as <- <-. exists best. split; [done|].
    destruct (IsBetter distance best) eqn:Hb; [by right|by left].
  - intros queryNode referenceNode r r' s. unfold Score_nodes. intros H.
    destruct (node r queryNode) as [qn|]; simpl in H; [|done].
    destruct (node r referenceNode) as [rn|]; simpl in H; [|done].
    destruct (if FirstPointIsCentroid then _ else _) as [[r1 distance]|];
      simpl in H; [|done].
    destruct (CalculateBound queryNode r1) as [[r2 best]|] eqn:Hb;
      simpl in H; [|done].
    injection H as <- <-.
    apply CalculateBound_inv in Hb as (qn1 & b1 & b2 & _ & _ & _ & Hq').
    eexists. split; [done|]. simpl.
    destruct (IsBetter distance best) eqn:Hbest; [by right|by left].
Qed.

(** X22.  When the node-to-node score finds the base case of the two first
    points cached (on the two nodes or on the parent of a self-child), it
    does not call the metric and leaves both candidate matrices as they
    are; it points the memo at the pair of first points with the cached
    value, and scores with that value. *)
Theorem Score_nodes_cached (queryNode referenceNode : nat) r r' (s : double)
    (qn rn : TreeNode bound) (qp0 rp0 : N) (b : double) :
  FirstPointIsCentroid = true → HasSelfChildren = true →
  nodes r !! queryNode = Some qn → nodes r !! referenceNode = Some rn →
  Points qn !! 0 = Some qp0 → Points rn !! 0 = Some rp0 →
  cached_base_case qn rn qp0 rp0 r = Ok (Some b) →
  Score_nodes queryNode referenceNode r = Ok (r', s) →
  metricCalls r' = metricCalls r
  ∧ distances r' = distances r ∧ neighbors r' = neighbors r
  ∧ (lastQueryIndex r', lastReferenceIndex r', lastBaseCase r')
    = (qp0, rp0, b)
  ∧ (s = DBL_MAX
     ∨ s = CombineBest b (d_add (FurthestDescendantDistance qn)
                                (FurthestDescendantDistance rn))).
Proof.
  intros Hc Hs Hqn Hrn Hq0 Hr0 Hcache. unfold Score_nodes, centroid_base_case.
  rewrite Hc, Hs, (proj2 (node_Ok _ _ _) Hqn), (proj2 (node_Ok _ _ _) Hrn).
  simpl. unfold Point. rewrite Hq0, Hr0. simpl. rewrite Hcache. simpl.
  intros H.
  destruct (CalculateBound queryNode _) as [[r2 best]|] eqn:Hb; simpl in H;
    [|done].
  injection H as <- <-.
  apply CalculateBound_stats_only in Hb
    as [(_ & _ & _ & Hn & Hd & Hm & _) Hmemo].
  rewrite Hn, Hd, Hm, Hmemo. split_and!; try done.
  destruct (IsBetter _ best); [by right|by left].
Qed.

End ScoreResults.

(** ** The point-to-node score, branch by branch *)

Section ScoreBranches.
Context `{DO : DoubleOps} {point bound : Type}.
Context `{M : !MetricType point} `{SP : !SortPolicy point bound}.
Context `{TT : TreeTraits}.
Implicit Types r : NeighborSearchRules point bound.
Implicit Types n : TreeNode bound.

(** X23.  On a tree with self-children whose first point is the centroid,
    the point-to-node score takes as base case the last distance cached on
    the parent when the node is a self-child (no base case is run, nothing
    but the node's statistic is written), and the result of
    [BaseCase(queryIndex, Point(0))] otherwise; it stores the base case as
    the node's last distance and returns [CombineBest] of it and the
    furthest descendant distance when that beats the k-th candidate
    distance read after the base case, the prune value when not. *)
Theorem Score_point_with_self_children (q : N) (id : nat)
    (indeterminate : double) r r' (s : double) :
  FirstPointIsCentroid = true → HasSelfChildren = true →
  Score_point q id indeterminate r = Ok (r', s) →
  ∃ rn p0 r1 base threshold,
    nodes r !! id = Some rn ∧ Points rn !! 0 = Some p0
    ∧ ((self_child r rn ∧ r1 = r
        ∧ ∃ par pn, Parent rn = Some par ∧ nodes r !! par = Some pn
                    ∧ base = LastDistance (Stat pn))
       ∨ (¬ self_child r rn ∧ BaseCase q p0 r = Ok (r1, base)))
    ∧ r' = update_stat id (set_last_distance base) r1
    ∧ kth_distance r' q = Ok threshold
    ∧ s = if IsBetter (CombineBest base (FurthestDescendantDistance rn))
                      threshold
          then CombineBest base (FurthestDescendantDistance rn)
          else DBL_MAX.
Proof. apply Score_point_self_children. Qed.

(** X24.  On a tree whose first point is not the centroid neither score
    runs a base case.  The point-to-node score changes nothing and compares
    the policy's distance from the query point to the node with the k-th
    candidate distance of the point; the node-to-node score is
    [CalculateBound] on the query node followed by the comparison of the
    policy's node-to-node distance with the bound. *)
Theorem Score_without_centroid :
  FirstPointIsCentroid = false →
  (∀ (q : N) (id : nat) (indeterminate : double) r r' (s : double),
     Score_point q id indeterminate r = Ok (r', s) →
     r' = r
     ∧ ∃ rn qp threshold,
         nodes r !! id = Some rn ∧ querySet r !! N.to_nat q = Some qp
         ∧ kth_distance r q = Ok threshold
         ∧ s = if IsBetter (BestPointToNodeDistance qp rn) threshold
               then BestPointToNodeDistance qp rn else DBL_MAX)
  ∧ (∀ (queryNode referenceNode : nat) r r' (s : double),
       Score_nodes queryNode referenceNode r = Ok (r', s) →
       ∃ qn rn b,
         nodes r !! queryNode = Some qn ∧ nodes r !! referenceNode = Some rn
         ∧ CalculateBound queryNode r = Ok (r', b)
         ∧ s = if IsBetter (BestNodeToNodeDistance qn rn) b
               then BestNodeToNodeDistance qn rn else DBL_MAX).
Proof.
  intros Hc. split.
  - intros q id junk r r' s. unfold Score_point. rewrite Hc. intros H.
    destruct (node r id) as [rn|] eqn:Hrn; simpl in H; [|done].
    apply node_Ok in Hrn.
    destruct (querySet r !! N.to_nat q) as [qp|] eqn:Hqp; simpl in H;
      [|done].
    destruct (kth_distance r q) as [threshold|] eqn:Hk; simpl in H; [|done].
    injection H as <- <-. split; [done|]. by exists rn, qp, threshold.
  - intros queryNode referenceNode r r' s. unfold Score_nodes. rewrite Hc.
    intros H.
    destruct (node r queryNode) as [qn|] eqn:Hqn; simpl in H; [|done].
    destruct (node r referenceNode) as [rn|] eqn:Hrn; simpl in H; [|done].
    apply node_Ok in Hqn, Hrn.
    destruct (CalculateBound queryNode r) as [[r2 b]|] eqn:Hb; simpl in H;
      [|done].
    injection H as <- <-. by exists qn, rn, b.
Qed.

End ScoreBranches.

(** ** The further properties at concrete inputs *)

Section MoreWitnesses.
#[local] Existing Instance Z_double.
#[local] Existing Instance Line.metric.
#[local] Existing Instance Line.NearestNeighborSort.
#[local] Existing Instance Line.cover_tree.

Abbreviation dbl := (@double Z_double).

Lemma prune_state_scored : rules_calls Line.prune_state Line.pruned.
Proof.
  apply rtc_once. apply (call_Score_nodes 0 2 _ _ (Z_DBL_MAX : dbl)).
  vm_compute. reflexivity.
Qed.

(** The score of [prune_state] changes statistics only. *)
Lemma rules_calls_keep_structure_witness :
  referenceSet Line.pruned = [0; 4]%Z ∧ querySet Line.pruned = [0; 1]%Z
  ∧ n_rows (distances Line.pruned) = 1%N
  ∧ length (nodes Line.pruned) = 3.
Proof.
  destruct (rules_calls_keep_structure Line.prune_state Line.pruned
              prune_state_scored)
    as (H1 & H2 & _ & H4 & _ & _ & _ & H8 & _).
  rewrite H1, H2, H4, H8. repeat split.
Defined.

Lemma self_search_wf : rules_wf Line.self_search.
Proof. split; [repeat constructor..|reflexivity|by vm_compute]. Qed.

Lemma self_search_no_self : no_self Line.self_search.
Proof.
  intros i col Hcol Hi.
  assert (col = [size_max]) as ->.
  { simpl in Hcol. destruct (N.to_nat i) as [|[|k]]; simpl in Hcol;
      by simplify_eq. }
  apply list_elem_of_singleton in Hi as ->.
  pose proof (lookup_lt_Some _ _ _ Hcol) as Hlt. simpl in Hlt.
  unfold size_max in Hlt. rewrite size_modulus_eq in Hlt. lia.
Qed.

(** A search of a set against itself: after the base case of the points 0
    and 1 no point is its own neighbour. *)
Lemma rules_calls_keep_wf_witness :
  ∃ r', BaseCase 0 1 Line.self_search = Ok (r', 1%Z : dbl)
        ∧ rules_wf r' ∧ no_self r'.
Proof.
  destruct (BaseCase 0 1 Line.self_search) as [[r' d]|] eqn:Hb;
    [|vm_compute in Hb; discriminate].
  exists r'.
  destruct (rules_calls_keep_wf Line.self_search r' self_search_wf)
    as [Hwf Hno].
  { apply rtc_once. by apply (call_BaseCase 0 1 _ _ d). }
  split; [|split; [exact Hwf|exact (Hno eq_refl self_search_no_self)]].
  vm_compute in Hb. by injection Hb as <- <-.
Defined.

Lemma three_slots_first : rules_call Line.three_slots Line.after_first.
Proof.
  apply (call_BaseCase 0 1 _ _ (1%Z : dbl)). vm_compute. reflexivity.
Qed.

(** The first base case of [three_slots] calls the metric once. *)
Lemma rules_call_metric_calls_witness :
  (metricCalls Line.after_first = 0
   ∧ distances Line.after_first = distances Line.three_slots
   ∧ neighbors Line.after_first = neighbors Line.three_slots)
  ∨ metricCalls Line.after_first = 1.
Proof.
  exact (rules_call_metric_calls Line.three_slots Line.after_first
           three_slots_first).
Defined.

Lemma three_slots_three : rules_calls Line.three_slots Line.after_three.
Proof.
  eapply rtc_l; [apply (call_BaseCase 0 2 _ _ (4%Z : dbl)); vm_compute;
                 reflexivity|].
  eapply rtc_l; [apply (call_BaseCase 0 0 _ _ (0%Z : dbl)); vm_compute;
                 reflexivity|].
  apply rtc_once. apply (call_BaseCase 0 1 _ _ (1%Z : dbl)).
  vm_compute. reflexivity.
Qed.

(** The candidate at distance 1 found by three base cases is genuine. *)
Lemma rules_calls_genuine_witness :
  genuine Line.three_slots 0 (1%Z : dbl, 1%N)
  ∨ ∃ l, candidates Line.three_slots 0 = Some l ∧ (1%Z : dbl, 1%N) ∈ l.
Proof.
  refine (rules_calls_genuine Line.three_slots Line.after_three 0
            [(0%Z, 0%N); (1%Z, 1%N); (4%Z, 2%N)] (1%Z : dbl, 1%N)
            three_slots_wf three_slots_three _ _).
  - vm_compute. reflexivity.
  - apply list_elem_of_lookup. by exists 1.
Defined.

(** Three base cases leave the list of [three_slots] sorted. *)
Lemma rules_calls_keep_sorted_witness :
  all_sorted Line.after_three
  ∧ ∀ p w', kth_distance Line.after_three p = Ok w' →
      ∃ w, kth_distance Line.three_slots p = Ok w ∧ better_eq w' w.
Proof.
  exact (rules_calls_keep_sorted nn_better_eq_trans nn_SortDistance_sorted
           Line.three_slots Line.after_three three_slots_wf
           three_slots_sorted three_slots_three).
Defined.

(** An insertion at row 1 of three, as pairs. *)
Lemma InsertNeighbor_candidates_witness :
  ∃ r', InsertNeighbor 0 1 7 (5%Z : dbl) Line.three_slots = Ok r'
        ∧ candidates r' 0
          = Some [(Z_DBL_MAX, size_max); (5%Z, 7%N); (Z_DBL_MAX, size_max)].
Proof.
  destruct (InsertNeighbor 0 1 7 (5%Z : dbl) Line.three_slots) as [r'|]
    eqn:Hins; [|vm_compute in Hins; discriminate].
  exists r'. split; [reflexivity|].
  destruct (InsertNeighbor_candidates Line.three_slots 0 1 7 (5%Z : dbl) r'
              (replicate 3 (Z_DBL_MAX, size_max)) three_slots_wf eq_refl Hins)
    as [H _].
  rewrite H. reflexivity.
Defined.


Lemma two_level_root_bound :
  CalculateBound 0 Line.two_level = Ok (Line.root_bounded, Z_DBL_MAX : dbl).
Proof. vm_compute. reflexivity. Qed.

(** The bound of the root of [two_level]. *)
Lemma CalculateBound_writes_bounds_only_witness :
  set_nodes (nodes Line.two_level) Line.root_bounded = Line.two_level
  ∧ nodes Line.root_bounded !! 1 = nodes Line.two_level !! 1.
Proof.
  destruct (CalculateBound_writes_bounds_only 0 Line.two_level
              Line.root_bounded (Z_DBL_MAX : dbl) two_level_root_bound)
    as (H1 & H2 & _).
  split; [exact H1|]. by apply H2.
Defined.

(** The bound of the root of [two_level], twice. *)
Lemma CalculateBound_idempotent_witness :
  CalculateBound 0 Line.root_bounded
  = Ok (Line.root_bounded, Z_DBL_MAX : dbl).
Proof.
  refine (CalculateBound_idempotent 0 Line.two_level Line.root_bounded
            (Z_DBL_MAX : dbl) _ eq_refl _ _ two_level_root_bound).
  - discriminate.
  - by intros ?%list_elem_of_singleton.
Defined.

(** A leaf that is not pruned, scored and rescored. *)
Lemma Score_then_Rescore_point_witness :
  ∃ r', Score_point 0 0 (0%Z : dbl) Line.two_slots_leaf = Ok (r', 1%Z : dbl)
        ∧ Rescore_point 0 0 (1%Z : dbl) r' = Ok (1%Z : dbl).
Proof.
  destruct (Score_point 0 0 (0%Z : dbl) Line.two_slots_leaf) as [[r' s]|]
    eqn:Hs; [|vm_compute in Hs; discriminate].
  pose proof (Score_then_Rescore_point 0 0 (0%Z : dbl) Line.two_slots_leaf
                r' s Hs) as Hr.
  assert (s = 1%Z) as -> by (vm_compute in Hs; by injection Hs as _ <-).
  by exists r'.
Defined.

Lemma prune_start_scored :
  Score_nodes 0 2 Line.prune_start = Ok (Line.scored_start, 3%Z : dbl).
Proof. vm_compute. reflexivity. Qed.

(** A reference node that is not pruned, scored and rescored. *)
Lemma Score_then_Rescore_nodes_witness :
  Rescore_nodes 0 2 (3%Z : dbl) Line.scored_start
  = Ok (Line.scored_start, 3%Z : dbl).
Proof.
  refine (Score_then_Rescore_nodes 0 2 Line.prune_start Line.scored_start
            (3%Z : dbl) _ eq_refl _ _ prune_start_scored).
  - discriminate.
  - by intros ?%list_elem_of_singleton.
Defined.

(** The two nodes of the first score name each other. *)
Lemma Score_nodes_caches_witness :
  ∃ qn' rn' : TreeNode Line.interval,
    nodes Line.scored_start !! 0 = Some qn'
    ∧ nodes Line.scored_start !! 2 = Some rn'
    ∧ LastDistanceNode (Stat rn') = Some 0
    ∧ LastDistanceNode (Stat qn') = Some 2
    ∧ LastDistance (Stat qn') = LastDistance (Stat rn').
Proof.
  destruct (Score_nodes_caches (TT := Line.cover_tree) 0 2 Line.prune_start
              Line.scored_start (3%Z : dbl) eq_refl prune_start_scored)
    as (qn' & rn' & base & Hq & Hr & Lr & Lq & Dq & Dr & _).
  exists qn', rn'. split_and!; try done.
  - by apply Lq.
  - by rewrite Dq, Dr.
Defined.

(** The base case of the two first points after the first score. *)
Lemma Score_nodes_then_BaseCase_witness :
  ∃ d : dbl, BaseCase 0 1 Line.scored_start = Ok (Line.scored_start, d).
Proof.
  destruct (Score_nodes_then_BaseCase (TT := Line.cover_tree) 0 2
              Line.prune_start Line.scored_start (3%Z : dbl) _ _ 0%N 1%N
              eq_refl eq_refl eq_refl eq_refl eq_refl prune_start_scored)
    as (d & Hd & _).
  by exists d.
Defined.

Lemma self_child_start_scored :
  Score_nodes 0 2 Line.self_child_start
  = Ok (Line.self_child_scored, Z_DBL_MAX : dbl).
Proof. vm_compute. reflexivity. Qed.

(** The self-child of the query root, once the root was scored. *)
Lemma self_children_safe_after_score_witness :
  (parent_cache_empty Line.self_child_scored 1 → False)
  ∧ ∃ r2, Score_nodes 1 2 Line.self_child_scored
          = Ok (r2, Z_DBL_MAX : dbl).
Proof.
  split.
  - refine (self_children_safe_after_score (TT := Line.cover_tree) 0 2
              Line.self_child_start
              Line.self_child_scored Line.self_child_scored
              (Z_DBL_MAX : dbl) 1 _ eq_refl self_child_start_scored
              (rtc_refl _ _) eq_refl _).
    by left.
  - eexists. vm_compute. reflexivity.
Defined.

(** The self-child of the query root at the start of a search. *)
Lemma Score_nodes_null_pointer_witness :
  FirstPointIsCentroid = true ∧ HasSelfChildren = true
  ∧ (parent_cache_empty Line.self_child_start 1
     ∨ parent_cache_empty Line.self_child_start 2).
Proof.
  apply (Score_nodes_null_pointer 1 2 Line.self_child_start).
  vm_compute. reflexivity.
Defined.

(** On a tree with self-children the local is written before it is read. *)
Lemma Score_point_initialised_witness :
  Score_point 0 0 (100%Z : dbl) Line.single_leaf
  = Score_point 0 0 (5%Z : dbl) Line.single_leaf.
Proof. apply Score_point_initialised. reflexivity. Defined.

(** A reference index one past the last reference point. *)
Lemma BaseCase_faults_witness :
  BaseCase 0 3 Line.three_slots = Fault OutOfBounds.
Proof.
  apply (BaseCase_faults Line.three_slots 0 3 OutOfBounds three_slots_wf
           nn_SortDistance_row).
  split_and!.
  - reflexivity.
  - intros [H _]. discriminate.
  - intros [H _]. vm_compute in H. discriminate.
  - right. left. simpl. lia.
Defined.

Lemma root_bounded_child_bound :
  CalculateBound 1 Line.root_bounded = Ok (Line.child_bounded, 3%Z : dbl).
Proof. vm_compute. reflexivity. Qed.

(** The child of [two_level] under its root. *)
Lemma CalculateBound_inherits_witness :
  ∃ pn : TreeNode Line.interval,
    nodes Line.root_bounded !! 0 = Some pn
    ∧ better_eq (3%Z : dbl) (FirstBound (Stat pn))
    ∧ better_eq (3%Z : dbl) (SecondBound (Stat pn)).
Proof.
  exact (CalculateBound_inherits nn_better_eq_trans 1 Line.root_bounded
           Line.child_bounded (3%Z : dbl) _ eq_refl root_bounded_child_bound).
Defined.

(** The same two nodes scored again: the base case is found cached. *)
Lemma Score_nodes_cached_witness :
  metricCalls Line.scored_start = 1
  ∧ (lastQueryIndex Line.scored_start, lastReferenceIndex Line.scored_start,
     lastBaseCase Line.scored_start) = (0%N, 1%N, 4%Z : dbl).
Proof.
  destruct (Score_nodes_cached (TT := Line.cover_tree) 0 2
              Line.scored_start Line.scored_start
              (3%Z : dbl) _ _ 0%N 1%N (4%Z : dbl) eq_refl eq_refl
              eq_refl eq_refl eq_refl eq_refl)
    as (H1 & _ & _ & H4 & _).
  - vm_compute. reflexivity.
  - vm_compute. reflexivity.
  - split; [reflexivity|exact H4].
Defined.

End MoreWitnesses.

Section BranchWitnesses.
#[local] Existing Instance Z_double.
#[local] Existing Instance Line.metric.
#[local] Existing Instance Line.NearestNeighborSort.

Abbreviation dbl := (@double Z_double).

(** The self-child of the scored root, scored against the query point 0:
    the distance 3 cached on the root is taken. *)
Lemma Score_point_with_self_children_witness :
  ∃ (rn : TreeNode Line.interval) (base : dbl),
    nodes Line.self_child_scored !! 1 = Some rn
    ∧ self_child Line.self_child_scored rn ∧ base = 3%Z.
Proof.
  destruct (Score_point (TT := Line.cover_tree) 0 1 (0%Z : dbl)
              Line.self_child_scored) as [[r' s]|] eqn:Hs;
    [|vm_compute in Hs; discriminate].
  destruct (Score_point_with_self_children (TT := Line.cover_tree) 0 1
              (0%Z : dbl) Line.self_child_scored r' s eq_refl eq_refl Hs)
    as (rn & p0 & r1 & base & threshold & Hrn & Hp0 & Hcase & _).
  exists rn, base. split; [exact Hrn|].
  injection Hrn as <-.
  destruct Hcase as [(Hself & _ & par & pn & Hpar & Hpn & ->)|[Hno _]].
  - split; [exact Hself|]. injection Hpar as <-. by injection Hpn as <-.
  - destruct Hno. exists 0. eexists. exists 0%N.
    split_and!; [reflexivity|vm_compute; reflexivity|reflexivity..].
Defined.

(** A leaf of a tree whose nodes are intervals. *)
Lemma Score_without_centroid_witness :
  ∃ (rn : TreeNode Line.interval) (qp : Z) (threshold : dbl),
    nodes Line.single_leaf !! 0 = Some rn
    ∧ querySet Line.single_leaf !! N.to_nat 0 = Some qp
    ∧ kth_distance Line.single_leaf 0 = Ok threshold
    ∧ (1%Z : dbl) = if IsBetter (BestPointToNodeDistance qp rn) threshold
                    then BestPointToNodeDistance qp rn else DBL_MAX.
Proof.
  assert (Score_point (TT := Line.binary_tree) 0 0 (0%Z : dbl)
            Line.single_leaf = Ok (Line.single_leaf, 1%Z : dbl)) as H
    by (vm_compute; reflexivity).
  exact (proj2 (proj1 (Score_without_centroid (TT := Line.binary_tree)
                         eq_refl) _ _ _ _ _ _ H)).
Defined.

End BranchWitnesses.

(** ** Lists too long for an [int] *)

Section LongShift.
Context `{DO : DoubleOps} {point bound : Type}.
Context `{M : !MetricType point} `{SP : !SortPolicy point bound}.
Context `{TT : TreeTraits}.
Implicit Types r : NeighborSearchRules point bound.

Lemma to_int_negative (x : N) :
  (2 ^ 31 ≤ x < 2 ^ 32)%N → to_int x = (Z.of_N x - 2 ^ 32)%Z.
Proof.
  intros Hx. unfold to_int.
  rewrite Z.mod_small by lia.
  destruct (Z.ltb_spec (Z.of_N x) (2 ^ 31)) as [?|_]; [lia|done].
Qed.

Lemma byte_count_negative (x : N) :
  (2 ^ 31 ≤ x < 2 ^ 32)%N →
  (byte_count 8 (to_int x) / 8 = 2 ^ 61 - 2 ^ 32 + x)%N.
Proof.
  intros Hx. rewrite to_int_negative by done. unfold byte_count.
  rewrite size_modulus_eq.
  replace ((Z.of_N 8 * (Z.of_N x - 2 ^ 32)) mod Z.of_N 18446744073709551616)%Z
    with (Z.of_N 8 * (Z.of_N x - 2 ^ 32) + 18446744073709551616)%Z.
  2:{ apply Z.mod_unique with (q := (-1)%Z); lia. }
  apply N2Z.inj. rewrite N2Z.inj_div, Z2N.id by lia.
  rewrite N2Z.inj_add, N2Z.inj_sub by lia.
  change (Z.of_N (2 ^ 61)) with (2 ^ 61)%Z.
  change (Z.of_N (2 ^ 32)) with (2 ^ 32)%Z. change (Z.of_N 8) with 8%Z.
  symmetry. apply Z.div_unique with (r := 0%Z); lia.
Qed.

Lemma shift_column_long {A} (m : Mat A) (q pos x : N) :
  (2 ^ 31 ≤ x < 2 ^ 32)%N →
  (∀ col, columns m !! N.to_nat q = Some col →
          (N.of_nat (length col) < 2 ^ 61 - 2 ^ 31)%N) →
  shift_column 8 m q pos (to_int x) = Fault OutOfBounds.
Proof.
  intros Hx Hcol. unfold shift_column, unsafe_col.
  destruct (columns m !! N.to_nat q) as [col|] eqn:Hc; simpl; [|done].
  specialize (Hcol col eq_refl).
  rewrite byte_count_negative by done. unfold memmove.
  destruct (N.leb_spec (pos + (2 ^ 61 - 2 ^ 32 + x))
              (N.of_nat (length col))) as [Hle|_]; [lia|done].
Qed.

(** X25.  [InsertNeighbor] keeps the number of rows to move in an [int].
    With 2^31 rows or more to move (and fewer than 2^32) that number is
    negative, the byte count handed to [memmove] wraps around to nearly
    2^64, and the move leaves the column: the insertion does not work on
    lists that long. *)
Theorem InsertNeighbor_long_shift r (q pos nb : N) (d : double) :
  (n_rows (distances r) < size_modulus)%N →
  (2 ^ 31 ≤ n_rows (distances r) - 1 - pos < 2 ^ 32)%N →
  (∀ col, columns (distances r) !! N.to_nat q = Some col →
          (N.of_nat (length col) < 2 ^ 61 - 2 ^ 31)%N) →
  InsertNeighbor q pos nb d r = Fault OutOfBounds.
Proof.
  intros Hn Hx Hcol. unfold InsertNeighbor.
  rewrite (size_sub_small (n_rows (distances r)) 1) by lia.
  rewrite (size_sub_small (n_rows (distances r) - 1) pos) by lia.
  destruct (N.ltb_spec pos (n_rows (distances r) - 1)) as [_|?]; [|lia].
  unfold sizeof_double.
  by rewrite (shift_column_long (distances r) q pos _ Hx Hcol).
Qed.

End LongShift.

Section LongShiftWitness.
#[local] Existing Instance Z_double.
#[local] Existing Instance Line.metric.
#[local] Existing Instance Line.NearestNeighborSort.
#[local] Existing Instance Line.cover_tree.

(** A list of 2^31 + 1 candidates: the insertion at row 0 has 2^31 rows to
    move. *)
Lemma InsertNeighbor_long_shift_witness :
  InsertNeighbor 0 0 7 (5%Z : @double Z_double) Line.long_list
  = Fault OutOfBounds.
Proof.
  apply InsertNeighbor_long_shift.
  - rewrite size_modulus_eq.
    change (n_rows (distances Line.long_list)) with (2 ^ 31 + 1)%N. lia.
  - change (n_rows (distances Line.long_list)) with (2 ^ 31 + 1)%N. lia.
  - intros col Hcol.
    change (Some (replicate (N.to_nat (2 ^ 31 + 1)) Z_DBL_MAX) = Some col)
      in Hcol.
    apply (inj Some) in Hcol. rewrite <- Hcol.
    rewrite length_replicate, N2Nat.id. lia.
Defined.

End LongShiftWitness.
